(* ===== verification/_CoqProject ===== *)
-Q . S2P
Prelude.v
JsValue.v
Types.v
Store.v
StoreWf.v
StoreWfDec.v
Runtime.v
EventLoop.v
StoreProps.v
CacheSpec.v
Events.v
EventsRef.v
EventsHeap.v
Ttl.v
Derived.v
