(* ===== verification/Prelude.v ===== *)
(** * Minimarket: a verification development of the [minimarket] cache

    The repository is a process-local key/value cache written in TypeScript.

    - [src/src/Store.ts] is the core: class [Store] (an [EventEmitter])
      owns [data : Map<string, Entry>], where an [Entry] holds an optional
      [value], an optional [loader], an optional [expiresAt] timestamp, the
      promise of an in-flight load ([loading]) and the handle of an
      auto-refresh interval ([refreshInterval]).  Its methods are [get]
      (lazy population through a loader, with de-duplication of concurrent
      loads through the shared [loading] promise and purge of expired
      entries), [set] (assignment with an optional TTL, emitting
      ["update"] and ["update:<key>"]), [setLoader], [setAutoRefresh]
      (a [setInterval] timer that re-runs the loader), [query] (filter of a
      stored array) and [delete] (emitting ["delete"]).
    - [src/src/events.ts] is a separate minimal event bus ([on], [emit],
      [off]) over the four event names of [src/src/types.ts].
    - [src/src/ttl.ts] keeps a second TTL registry ([setTTL], [clearTTL])
      of [setTimeout] handles that emits ["expire"] on the bus of
      [events.ts].
    - [src/src/derived.ts] ([setDerived]) recomputes a key from its
      dependencies through [store.get]/[store.set].
    - [src/src/types.ts] holds the shared types ([TTLItem],
      [MarketEventName], the handler payload, the unused [MarketStore]
      interface).

    ** Files of the development (in dependency order)

    - [Prelude.v] (this file): the JavaScript-flavoured notations of the
      development (scope [js_scope]: [a ?? b] is the nullish-coalescing
      operator on [option]), the hint database [minimarket], the tactics
      shared by the proofs, and generic lemmas on [option], on [gmap] and
      on "every key below a bound" ([map_below]), which the freshness
      invariants of the heap models use.
    - [JsValue.v]: JavaScript values as the code observes them
      ([undefined] is a value of its own, arrays are lists), the
      truthiness tests the code performs ([ttlMs ? .. : ..]), and
      [Array.prototype.filter].
    - [Types.v]: the declarations of [types.ts] ([MarketKey],
      [MarketValue], the [MarketStore] interface as a class of
      operations, [MarketEventName], the handler payload).
    - [Store.v], [Section Cache]: class [Store] of [Store.ts].  The state
      [Store] makes the JavaScript heap explicit: [data] maps keys to
      object identities, [heap] maps identities to [Entry] records, so
      that the entry object [get] captures ([entry!.loading = undefined]
      in its callbacks) is aliased exactly as in the source, while [set],
      [setLoader] and [setAutoRefresh] store a fresh spread copy
      ([{ ...this.data.get(key), .. }]).  Promises ([promises]), pending
      loader calls ([tasks]), [setInterval] timers ([intervals]), the clock
      [Date.now()] ([now]) and what others observe ([trace]: emitted
      events, loader calls, unhandled rejections) are fields too; one
      counter [next_ref] supplies every fresh identity.  One definition
      per method ([get], [set], [setLoader], [setAutoRefresh] with its
      [refresh] closure, [query], [delete], [isExpired]), per branch of
      [get] ([get_from], [start_load], [no_loader_error]) and per event
      loop callback ([load_result] and [settle_load] for the [.then] and
      [.catch] of a load, [settle_refresh] for the [await loader()] of a
      refresh tick, [fire] for a timer tick).
    - [StoreWf.v]: the invariant [wf] (identities below the counter, the
      key map injective into the heap, every in-flight load's promise
      pending and held in the [loading] slot of its entry object, every
      pending promise owned by a task) and its preservation by every
      operation and callback.
    - [StoreWfDec.v]: [wfb], an executable check of [wf] proved
      equivalent to it, and the [Decision] instance it gives; the
      well-formedness of the concrete runs used as witnesses is
      established by evaluating it.
    - [Runtime.v]: the program as a transition system: [step] is an
      inductive relation whose rules are a caller's method call, the
      settling of a load or of a refresh, a timer firing and the clock
      advancing; [reachable] states are those [rtc step] reaches from
      [init].  Claims C1-C6: de-duplication of concurrent [get]s, all
      joined callers observing one outcome, at most one in-flight load per
      entry object, and the effect of a failed and of a successful load.
    - [EventLoop.v]: the callbacks of loads and refreshes as the relation
      [callback_step]; claim C37: they terminate (the number of pending
      tasks decreases); they can also always all run, whatever the
      loaders' outcomes ([callbacks_drain]); claim C22: after they have
      run, every promise the store handed out is settled, so no caller
      of [get] waits forever.
    - [StoreProps.v]: the behaviour of each method on every branch
      (claims C7-C21, C33): TTL expiry and its boundary, a TTL of 0,
      loader precedence, the missing-loader error, [query], [delete], the
      timer replacement of [setLoader], the timer [delete] clears, one
      period of the refresh loop of [setAutoRefresh] (C20), the delay
      clamp of [setInterval], and
      the consequences of the aliasing of entry objects (a deleted key
      resurrected by its load, two in-flight loads after [delete], a
      rejected or [undefined] load that sticks).
    - [CacheSpec.v], [Section Contract]: the contract of class [Store]
      as functions on a map from keys to a value and an expiry
      ([a_set], [a_delete], [a_get], [a_reserve], the read [lookup_at])
      and [a_label], the contract's move on the label of a program step;
      [lstep] is [Runtime.step] with those labels and [abs] abstracts a
      store.  Claims C28-C30: every sequence of method calls commutes
      with the abstraction (functional refinement), along every labelled
      run the contents are the contract's replay of the labels (trace
      refinement), and the value [get] returns at once is the contract's
      read; [get],
      [setLoader] and [setAutoRefresh] never change a read
      ([reads_preserved_by_get_and_loaders]).
    - [Events.v]: [events.ts] as the class [EventBus] with its laws
      [EventBusLaws] (the interface [ttl.ts] relies on) and the instance
      [Listeners] that implements it (claim C35: [on] appends, [off]
      after it removes every registration of the handler, and undoes it
      for a new handler; the call order of [emit] is [emit_calls_registered_in_order], and [off]
      removing every registration [off_removes_all_registrations]).
    - [EventsRef.v]: a reference bus keeping one ordered log of
      registrations, with an equivalence of logs coarser than equality
      and [Proper] instances for its operations; claim C36: [events.ts]
      calls exactly the handlers the reference calls, after any sequence
      of [on] and [off].
    - [EventsHeap.v]: [events.ts] again, with the four arrays of
      [listeners] as objects of a heap ([HBus]): [on] pushes in place,
      [off] swaps in a filtered copy, [emit] walks with [forEach] the
      array it read once, up to the length it had at the start; handlers
      are lists of [on], [off] and [emit] calls ([bus_action]) run while
      the outer [emit] iterates.  Claims C38-C40: this heap model is
      equivalent to the snapshot semantics [snap_emit] over the values
      of [Events.v] (a simulation with the invariant [heap_wf] and the
      relation [grows]: arrays only get longer); with handlers that only
      call [on] and [off], [emit] calls exactly what [Events.emit] lists
      (a handler removed during the emit is still called, one added is
      not); a handler that re-emits its own event exhausts the stack.
    - [Ttl.v]: [ttl.ts] in a Section over any bus satisfying
      [EventBusLaws], with the module's event loop as the step relation
      [ttl_step] (claims C23-C25, C32, C34: [clearTTL] cancels [setTTL],
      a second [setTTL] leaves a stale timeout, expiry notifies the
      ["expire"] handlers in order, in every reachable state each
      recorded TTL has a live timeout that enforces it, and a TTL above
      [2^31-1] ms fires after 1 ms).
    - [Derived.v]: [derived.ts] over the store of [Store.v] and the
      store's own listener list (claims C26, C27, C31: [setDerived]
      computes once, never subscribes, and a dependency that cannot be
      loaded leaves an unhandled rejection).  [Promise.all] rejects with
      the first input to reject in time: a [get] that threw rejected at
      the call, so the first such reply in the order of [deps] is the
      reason; otherwise the model lets the step choose among the
      rejected replies ([all_reason]), as it does not order the
      settlements of loads in time.

    ** Bounds and fuel

    Only [EventsHeap.emit_heap] takes fuel: the number of nested [emit]
    calls the JavaScript stack holds, so that running out of fuel is the
    [RangeError] of a re-entrant [emit] that never returns (C40).  More
    fuel never changes a result ([emit_heap_mono]), and one level is
    enough when no handler emits (C39).  Every other operation is a
    single non-recursive step of the event loop, and loops over the
    program's lists ([filter], [forEach], [deps.map]) are structural.
    The callbacks of the event loop terminate by the measure "number of
    pending tasks" (C37).  Non-termination of the
    program (timers firing forever) is represented by the step relation,
    not by a function.  Node clamps a [setInterval] or [setTimeout]
    delay outside [1 .. 2^31-1] to 1 ms; [interval_delay] and
    [timeout_delay] model the clamp and C21, C34 prove its bounds.

    ** Not modelled

    - [src/src/index.ts], the module that creates the [store] singleton
      [derived.ts] imports, is not among the sources; [Derived.v] passes
      the store explicitly.
    - The internals of Node's [EventEmitter]: emission is recorded in the
      trace ([Store.v]) or dispatched to the listener list ([Derived.v]);
      the listeners of class [Store] are not called synchronously by the
      model except in [Derived.set_notify].
    - Handlers whose calls to the bus depend on more than the handler
      and the payload (state of their own closures): [EventsHeap.v]
      gives each handler a fixed list of bus calls per payload.
    - An implementation of the [MarketStore] interface of [types.ts]:
      nothing in the repository implements or uses it, so [Types.v]
      declares the class and gives it no instance.

    ** Findings

    The modelling shows that [setAutoRefresh] leaks its previous timer,
    that a load completing after [delete] resurrects the key, that the
    [loading] slot is cleared on a discarded object (so a rejected or
    [undefined] load sticks forever), that a refresh failure is an
    unhandled rejection, that [setTTL] does not clear the previous
    timeout, that a TTL or refresh interval above [2^31-1] ms is clamped
    by Node to 1 ms, that [setDerived] never subscribes to its
    dependencies, that a failing dependency makes [recompute] reject
    unhandled, and that [emit] of [events.ts] still calls a handler
    removed during the same emit and overflows the stack when a handler
    re-emits its own event; each but the unhandled refresh failure (a
    rejection the model records as such in [settle_refresh]) is proved
    as a theorem of the files above.

    ** Modelling conventions

    - JavaScript numbers (timestamps, TTLs, intervals) are integers [Z]:
      the code only adds and compares millisecond counts, and the model
      does not represent the rounding of IEEE doubles above 2^53 ms
      (about 285000 years), nor NaN.
    - Functions supplied by callers (loaders, predicates, handlers) are
      represented by identities ([loader] is a number); what a loader
      returns is chosen by the environment when its promise settles, so
      every theorem holds for every loader behaviour.
 *)

From stdpp Require Export base gmap strings list.
From Stdlib Require Export ZArith.

Declare Scope js_scope.
Delimit Scope js_scope with js.

(** JavaScript's nullish-coalescing [a ?? b] on optional values. *)
Definition nullish {A} (a b : option A) : option A :=
  match a with Some x => Some x | None => b end.

Notation "a ?? b" := (nullish a b) (at level 50, left associativity) : js_scope.

#[global] Open Scope js_scope.

Create HintDb minimarket discriminated.
Create Rewrite HintDb minimarket_rw.

Lemma nullish_Some {A} (x : A) (b : option A) : Some x ?? b = Some x.
Proof. reflexivity. Qed.

Lemma nullish_None {A} (b : option A) : None ?? b = b.
Proof. reflexivity. Qed.

#[export] Hint Rewrite @nullish_Some @nullish_None : minimarket_rw.

(** ** Maps whose keys all lie below a bound

    The heap models allocate identities from a counter; [map_below m n]
    says that every key of [m] is below the counter [n], so that [n] is
    fresh. *)
Definition map_below {A} (m : gmap nat A) (n : nat) : Prop :=
  forall i, is_Some (m !! i) -> i < n.

Section map_below.
Context {A : Type}.
Implicit Types (m : gmap nat A) (n : nat).

Lemma map_below_fresh m n : map_below m n -> m !! n = None.
Proof.
  intros Hb. destruct (m !! n) eqn:E; [|done].
  assert (n < n) by (apply Hb; eauto). lia.
Qed.

Lemma map_below_mono m n n' : map_below m n -> n <= n' -> map_below m n'.
Proof. intros Hb Hle i Hi. specialize (Hb i Hi). lia. Qed.

Lemma map_below_insert m n i x :
  map_below m n -> i < n -> map_below (<[i:=x]> m) n.
Proof.
  intros Hb Hi j. rewrite lookup_insert. case_decide; subst; [done|].
  apply Hb.
Qed.

Lemma map_below_insert_fresh m n x :
  map_below m n -> map_below (<[n:=x]> m) (S n).
Proof.
  intros Hb. apply map_below_insert; [|lia].
  eapply map_below_mono; [done|lia].
Qed.

Lemma map_below_delete m n i : map_below m n -> map_below (delete i m) n.
Proof.
  intros Hb j. rewrite lookup_delete. case_decide; [by intros []|]. apply Hb.
Qed.

Lemma map_below_empty n : map_below (∅ : gmap nat A) n.
Proof. intros i. rewrite lookup_empty. by intros []. Qed.
(** A fresh identity was allocated: the bound moves up by one. *)
Lemma map_below_S m n : map_below m n -> map_below m (S n).
Proof. intros Hb. eapply map_below_mono; [done|lia]. Qed.

End map_below.

#[export] Hint Resolve map_below_insert_fresh map_below_delete map_below_empty
  map_below_fresh map_below_S : minimarket.

(** ** Shared tactics *)

(** Rewrite the lookups of [insert]/[delete] on maps and close the easy
    goals; the workhorse of the operation lemmas. *)
Ltac simpl_maps :=
  repeat first
    [ progress simplify_map_eq
    | rewrite lookup_insert_ne by congruence
    | rewrite lookup_delete_ne by congruence ];
  try done.

(** Case analysis on every [match] in the goal, keeping the equations. *)
Ltac split_matches := repeat (case_match; simplify_eq/=).

Lemma nullish_None_r {A} (a : option A) (x : A) : a ?? None = Some x <-> a = Some x.
Proof. destruct a; simpl; done. Qed.

(** [Array.prototype.filter] keeps a list whose elements all pass. *)
Lemma filter_all {A} (P : A -> Prop) `{!forall x, Decision (P x)} (l : list A) :
  Forall P l -> filter P l = l.
Proof. induction 1 as [|x l Hx _ IH]; [done|]. by rewrite filter_cons_True, IH. Qed.
