(* ===== verification/JsValue.v ===== *)
(** * JavaScript values as the cache observes them

    The store treats values as opaque payloads except in three places,
    which this file models: [entry?.value !== undefined] in [Store.get]
    ([is_undefined]), [Array.isArray(value) ? value.filter(fn) : []] in
    [Store.query] ([array_filter]), and the truthiness of the optional
    millisecond arguments in [ttlMs ? Date.now() + ttlMs : undefined] and
    [if (ttlMs)] ([num_truthy], [opt_num_truthy]).  Errors thrown by the
    code are [Error] objects carrying a message ([JError]). *)

From S2P Require Import Prelude.

#[local] Set Warnings "-register-all".
Inductive jsval :=
| JUndefined
| JNull
| JBool (b : bool)
| JNum (n : Z)
| JStr (s : string)
| JArray (xs : list jsval)
| JObject (id : nat)
| JError (msg : string).

Fixpoint jsval_eq_dec (x y : jsval) {struct x} : Decision (x = y).
Proof.
  refine (match x, y with
  | JUndefined, JUndefined => left _
  | JNull, JNull => left _
  | JBool a, JBool b => cast_if (decide (a = b))
  | JNum a, JNum b => cast_if (decide (a = b))
  | JStr a, JStr b => cast_if (decide (a = b))
  | JObject a, JObject b => cast_if (decide (a = b))
  | JError a, JError b => cast_if (decide (a = b))
  | JArray xs, JArray ys => cast_if (@list_eq_dec _ jsval_eq_dec xs ys)
  | _, _ => right _
  end); abstract congruence.
Defined.

#[export] Instance jsval_eq_decision : EqDecision jsval := jsval_eq_dec.

(** [v === undefined]: the test behind [entry?.value !== undefined]. *)
Definition is_undefined (v : jsval) : bool :=
  match v with JUndefined => true | _ => false end.

Lemma is_undefined_spec v : is_undefined v = true <-> v = JUndefined.
Proof. destruct v; simpl; split; congruence. Qed.

(** Truthiness of a number: [0] is falsy, every other integer truthy
    ([NaN] is not represented). *)
Definition num_truthy (n : Z) : bool := negb (Z.eqb n 0).

(** Truthiness of an optional number argument such as [ttlMs?: number]:
    an omitted argument is [undefined], hence falsy. *)
Definition opt_num_truthy (o : option Z) : bool :=
  match o with Some n => num_truthy n | None => false end.

Lemma opt_num_truthy_spec o :
  opt_num_truthy o = true <-> exists n, o = Some n /\ n <> 0%Z.
Proof.
  destruct o as [n|]; simpl; unfold num_truthy.
  - rewrite negb_true_iff, Z.eqb_neq. split; [eauto|]. by intros (? & [= <-] & ?).
  - split; [done|]. by intros (? & ? & ?).
Qed.

(** [Array.isArray(value) ? value.filter(fn) : []]; the predicate is the
    truthiness of the callback's result on each element. *)
Definition array_filter (fn : jsval -> bool) (v : jsval) : list jsval :=
  match v with
  | JArray xs => filter fn xs
  | _ => []
  end.


