(* ===== verification/Types.v ===== *)
(** * The shared types of [src/src/types.ts]

    [MarketKey] and [MarketValue] are the key and value types; the event
    vocabulary [MarketEventName] and the payload of a [MarketEventHandler]
    are used by [events.ts] and [ttl.ts] (files [Events.v], [Ttl.v]);
    [TTLItem] is declared with the registry that uses it, in [Ttl.v].
    [MarketStore] is the interface [types.ts] declares for a store: a
    class of operations over the state of its implementation.  Nothing in
    the repository implements or uses it -- class [Store] of [Store.ts]
    has an asynchronous [get], no [has] and no [all], and its [delete]
    returns nothing -- so it has no instance here. *)

From S2P Require Import Prelude JsValue.

(** [type MarketKey = string] *)
Definition MarketKey := string.

(** [type MarketValue<T = any> = T]: any JavaScript value. *)
Definition MarketValue := jsval.

(** [interface MarketStore]: the methods as operations over the state [S]
    of an implementation. *)
Class MarketStore (S : Type) := {
  ms_set : MarketKey -> MarketValue -> S -> S;
  ms_get : MarketKey -> S -> MarketValue;
  ms_has : MarketKey -> S -> bool;
  ms_delete : MarketKey -> S -> bool * S;
  ms_all : S -> gmap MarketKey MarketValue
}.

(** [type MarketEventName = "set" | "delete" | "expire" | "clear"] *)
Inductive MarketEventName := EvNameSet | EvNameDelete | EvNameExpire | EvNameClear.

#[export] Instance MarketEventName_eq_dec : EqDecision MarketEventName.
Proof. solve_decision. Defined.

(** The payload [{ key: string; value?: any; ttl?: number }] of a
    [MarketEventHandler]. *)
Record Payload := mkPayload { pl_key : MarketKey; pl_value : option MarketValue; pl_ttl : option Z }.

(** A [MarketEventHandler], by identity. *)
Definition Handler := nat.
