(* ===== verification/Store.v ===== *)
(** * The cache store of [src/src/Store.ts]

    Section [Cache] models class [Store] together with the part of the
    JavaScript runtime it relies on:

    - [Store.data : Map<string, Entry>] maps keys to *references* to
      entry objects.  [get] captures the entry object in the callbacks of
      its loading promise and writes [entry!.loading = undefined] through
      that reference, while [set], [setLoader] and [setAutoRefresh] replace
      the map's entry by a fresh spread copy.  The model therefore keeps a
      heap of entry objects ([heap]) and the map [data] of key to object
      identity, so that the aliasing of the source is represented.
    - promises created by [get] ([promises]) with their state;
    - callbacks waiting for a loader's promise ([tasks]): the
      [.then]/[.catch] chain of [get] ([TLoad]) and the body of [refresh]
      after [await loader()] ([TRefresh]);
    - [setInterval] timers ([intervals]), [Date.now()] ([now]);
    - what the store makes observable ([trace]): the events it emits, each
      invocation of a loader, each rejection of a [refresh] promise that
      no code handles.

    Every identity (object, promise, callback, timer) is drawn from the
    counter [next_ref].  Each operation of the class is one definition of
    the same name; [settle_load], [settle_refresh] and [fire] are the
    steps the event loop takes on its own. *)

From S2P Require Import Prelude JsValue.

Section Cache.

(** [type Loader<T> = () => Promise<T> | T]: a function, by identity. *)
Inductive Loader := LoaderFn (fid : nat).

#[export] Instance Loader_eq_dec : EqDecision Loader.
Proof. solve_decision. Defined.

(** [interface Entry<T>]: the optional fields [value?], [loader?],
    [expiresAt?], [loading?] (a promise, by identity) and
    [refreshInterval?] (a timer, by identity).  An absent [value] reads as
    [undefined], which is how the code tests it. *)
Record Entry := mkEntry {
  value : jsval;
  loader : option Loader;
  expiresAt : option Z;
  loading : option nat;
  refreshInterval : option nat
}.

(** The object literal [{}]. *)
Definition empty_entry : Entry := mkEntry JUndefined None None None None.

Inductive outcome := Fulfilled (v : jsval) | Rejected (err : jsval).

Inductive pstate := Pending | Settled (o : outcome).

Inductive task :=
| TLoad (key : string) (obj : nat)
| TRefresh (key : string) (fn : Loader).

(** A live [setInterval] timer: the key and loader its [refresh] closure
    captured, its delay and the time it is next due. *)
Record Interval := mkInterval {
  iv_key : string;
  iv_loader : Loader;
  iv_delay : Z;
  iv_due : Z
}.

(** [this.emit("update", key, value, old)], [this.emit(`update:${key}`,
    value, old)] and [this.emit("delete", key)]. *)
Inductive emission :=
| EvUpdate (key : string) (v old : jsval)
| EvUpdateKey (key : string) (v old : jsval)
| EvDelete (key : string).

Inductive observation :=
| ObsEmit (ev : emission)
| ObsCall (key : string) (fn : Loader)
| ObsUnhandled (err : jsval).

Record Store := mkStore {
  data : gmap string nat;
  heap : gmap nat Entry;
  promises : gmap nat pstate;
  tasks : gmap nat task;
  intervals : gmap nat Interval;
  next_ref : nat;
  now : Z;
  trace : list observation
}.

(** [new Store()] at time [t0]. *)
Definition init (t0 : Z) : Store := mkStore ∅ ∅ ∅ ∅ ∅ 0 t0 [].

(** ** Field updates *)
Definition upd_data f s :=
  mkStore (f (data s)) (heap s) (promises s) (tasks s) (intervals s) (next_ref s) (now s) (trace s).
Definition upd_heap f s :=
  mkStore (data s) (f (heap s)) (promises s) (tasks s) (intervals s) (next_ref s) (now s) (trace s).
Definition upd_promises f s :=
  mkStore (data s) (heap s) (f (promises s)) (tasks s) (intervals s) (next_ref s) (now s) (trace s).
Definition upd_tasks f s :=
  mkStore (data s) (heap s) (promises s) (f (tasks s)) (intervals s) (next_ref s) (now s) (trace s).
Definition upd_intervals f s :=
  mkStore (data s) (heap s) (promises s) (tasks s) (f (intervals s)) (next_ref s) (now s) (trace s).
Definition bump s :=
  mkStore (data s) (heap s) (promises s) (tasks s) (intervals s) (S (next_ref s)) (now s) (trace s).
Definition advance (d : Z) s :=
  mkStore (data s) (heap s) (promises s) (tasks s) (intervals s) (next_ref s) (now s + d) (trace s).
Definition log (o : observation) s :=
  mkStore (data s) (heap s) (promises s) (tasks s) (intervals s) (next_ref s) (now s) (trace s ++ [o]).

Definition store_emit (ev : emission) s := log (ObsEmit ev) s.

(** ** Access to the map of entries *)

(** [this.data.get(key)], with the identity of the object. *)
Definition fetch (key : string) (s : Store) : option (nat * Entry) :=
  l ← data s !! key; e ← heap s !! l; Some (l, e).

(** [this.data.get(key)]. *)
Definition data_get (key : string) (s : Store) : option Entry := snd <$> fetch key s.

(** [this.data.set(key, e)] where [e] is a freshly built object literal. *)
Definition data_set (key : string) (e : Entry) (s : Store) : Store :=
  let l := next_ref s in
  bump (upd_data <[key:=l]> (upd_heap <[l:=e]> s)).

(** An assignment [obj.field = ...] through a reference. *)
Definition write_obj (l : nat) (e : Entry) (s : Store) : Store := upd_heap <[l:=e]> s.

(** [clearInterval(h)] on [entry?.refreshInterval]. *)
Definition clearInterval (h : option nat) (s : Store) : Store :=
  match h with Some t => upd_intervals (base.delete t) s | None => s end.

(** [ttlMs ? Date.now() + ttlMs : undefined] *)
Definition expiry_of (t : Z) (ttlMs : option Z) : option Z :=
  match ttlMs with Some ms => if num_truthy ms then Some (t + ms)%Z else None | None => None end.

(** ** The methods of class [Store] *)

(** [private isExpired(entry)]:
    [typeof entry.expiresAt === "number" && Date.now() > entry.expiresAt]. *)
Definition isExpired (e : Entry) (s : Store) : bool :=
  match expiresAt e with Some t => Z.ltb t (now s) | None => false end.

(** [set(key, value, ttlMs?)] *)
Definition set (key : string) (v : jsval) (ttlMs : option Z) (s : Store) : Store :=
  let old := default JUndefined (value <$> data_get key s) in
  let base := default empty_entry (data_get key s) in
  let s1 := data_set key
              (mkEntry v (loader base) (expiry_of (now s) ttlMs) (loading base)
                 (refreshInterval base)) s in
  store_emit (EvUpdateKey key v old) (store_emit (EvUpdate key v old) s1).

(** [delete(key)] *)
Definition delete (key : string) (s : Store) : Store :=
  let s1 := match data_get key s with
            | Some e => clearInterval (refreshInterval e) s
            | None => s
            end in
  match data s1 !! key with
  | Some _ => store_emit (EvDelete key) (upd_data (base.delete key) s1)
  | None => s1
  end.

(** [query(key, fn)] *)
Definition query (key : string) (fn : jsval -> bool) (s : Store) : list jsval :=
  array_filter fn (default JUndefined (value <$> data_get key s)).

(** The [refresh] closure of [setAutoRefresh]: [loader()] runs at once,
    the rest of the body ([this.set(key, value)]) waits for its promise. *)
Definition refresh (key : string) (fn : Loader) (s : Store) : Store :=
  let i := next_ref s in
  bump (upd_tasks <[i:=TRefresh key fn]> (log (ObsCall key fn) s)).

(** Node's [setInterval] clamps a delay outside [1 .. 2^31-1] to 1 ms. *)
Definition interval_delay (ms : Z) : Z :=
  if (1 <=? ms)%Z && (ms <=? 2147483647)%Z then ms else 1%Z.

Definition setInterval (key : string) (fn : Loader) (ms : Z) (s : Store) : nat * Store :=
  let t := next_ref s in
  let d := interval_delay ms in
  (t, bump (upd_intervals <[t:=mkInterval key fn d (now s + d)%Z]> s)).

(** [setAutoRefresh(key, loader, intervalMs)] *)
Definition setAutoRefresh (key : string) (fn : Loader) (intervalMs : Z) (s : Store) : Store :=
  let s1 := refresh key fn s in
  let '(timer, s2) := setInterval key fn intervalMs s1 in
  let base := default empty_entry (data_get key s2) in
  data_set key (mkEntry (value base) (Some fn) (expiresAt base) (loading base) (Some timer)) s2.

(** [setLoader(key, loader, ttlMs?)] *)
Definition setLoader (key : string) (fn : Loader) (ttlMs : option Z) (s : Store) : Store :=
  let existing := data_get key s in
  let s1 := match existing with
            | Some e => clearInterval (refreshInterval e) s
            | None => s
            end in
  let base := default empty_entry existing in
  let s2 := data_set key
              (mkEntry (value base) (Some fn) (expiresAt base) (loading base)
                 (refreshInterval base)) s1 in
  match ttlMs with
  | Some ms => if num_truthy ms then setAutoRefresh key fn ms s2 else s2
  | None => s2
  end.

(** ** [get(key, loader?)] *)

(** What the promise returned by the [async] method [get] becomes: a value
    at once, an error at once, or the same promise as a load. *)
Inductive reply :=
| RValue (v : jsval)
| RThrow (err : jsval)
| RPromise (p : nat).

(** What calling [loadFn()] does before it returns: it returns (a value or
    a promise, which settles later), or throws at once. *)
Inductive invocation := Returns | ThrowsSync (err : jsval).

Definition dquote : string := String (Ascii.ascii_of_nat 34) EmptyString.

(** [new Error(`No loader available for key "${key}"`)] *)
Definition no_loader_error (key : string) : jsval :=
  JError (String.append "No loader available for key "
            (String.append dquote (String.append key dquote))).

(** Lines 41-52: [loadFn()] is called, then
    [entry.loading = Promise.resolve(loadFn()).then(..).catch(..)] is
    written into the object [l] the method holds, and returned. *)
Definition start_load (key : string) (fn : Loader) (inv : invocation)
    (l : nat) (e : Entry) (s : Store) : reply * Store :=
  let s1 := log (ObsCall key fn) s in
  match inv with
  | ThrowsSync err => (RThrow err, s1)
  | Returns =>
      let p := next_ref s1 in
      let e' := mkEntry (value e) (loader e) (expiresAt e) (Some p) (refreshInterval e) in
      (RPromise p,
       bump (upd_promises <[p:=Pending]> (upd_tasks <[p:=TLoad key l]> (write_obj l e' s1))))
  end.

(** Lines 35-52, on the entry object [l] the method holds. *)
Definition get_from (key : string) (ldr : option Loader) (inv : invocation)
    (l : nat) (e : Entry) (s : Store) : reply * Store :=
  match loading e with
  | Some p => (RPromise p, s)
  | None =>
      match ldr ?? loader e with
      | None => (RThrow (no_loader_error key), s)
      | Some fn => start_load key fn inv l e s
      end
  end.

(** [get(key, loader?)]: purge an expired entry, return a cached value,
    create the entry if missing, then join or start a load. *)
Definition get (key : string) (ldr : option Loader) (inv : invocation) (s : Store)
    : reply * Store :=
  let '(entry, s1) :=
    match fetch key s with
    | Some (l, e) => if isExpired e s then (None, delete key s) else (Some (l, e), s)
    | None => (None, s)
    end in
  match entry with
  | Some (l, e) =>
      if is_undefined (value e) then get_from key ldr inv l e s1 else (RValue (value e), s1)
  | None =>
      let l := next_ref s1 in
      get_from key ldr inv l empty_entry (data_set key empty_entry s1)
  end.

(** ** Steps of the event loop *)

Definition clear_loading (l : nat) (s : Store) : Store :=
  match heap s !! l with
  | Some e => write_obj l (mkEntry (value e) (loader e) (expiresAt e) None (refreshInterval e)) s
  | None => s
  end.

(** What the callbacks of the load do to the store before
    [entry!.loading = undefined]: [.then(value => { this.set(key, value);
    ..})] stores the value; [.catch(err => { ..; throw err; })] changes no
    entry. *)
Definition load_result (key : string) (o : outcome) (s : Store) : Store :=
  match o with Fulfilled v => set key v None s | Rejected _ => s end.

(** The load [p] of [get] on key [key], holding entry object [l], settles
    with [o]: [load_result], then [entry!.loading = undefined] on the
    object [l], and the promise settles with the value or rethrown error. *)
Definition settle_load (p : nat) (key : string) (l : nat) (o : outcome) (s : Store) : Store :=
  upd_tasks (base.delete p) (upd_promises <[p:=Settled o]> (clear_loading l (load_result key o s))).

(** The [await loader()] of the [refresh] callback [i] settles: on success
    [this.set(key, value)]; a rejection rejects the promise of [refresh],
    which nothing handles. *)
Definition settle_refresh (i : nat) (key : string) (o : outcome) (s : Store) : Store :=
  let s1 := upd_tasks (base.delete i) s in
  match o with
  | Fulfilled v => set key v None s1
  | Rejected err => log (ObsUnhandled err) s1
  end.

(** Timer [t] fires once it is due: [refresh()] runs and the timer is due
    again one delay later. *)
Definition fire (t : nat) (s : Store) : option Store :=
  match intervals s !! t with
  | Some iv =>
      if (iv_due iv <=? now s)%Z
      then Some (refresh (iv_key iv) (iv_loader iv)
                   (upd_intervals <[t:=mkInterval (iv_key iv) (iv_loader iv) (iv_delay iv)
                                         (iv_due iv + iv_delay iv)%Z]> s))
      else None
  | None => None
  end.

(** The outcome a caller holding reply [r] observes in state [s], once it
    is known. *)
Definition reply_outcome (r : reply) (s : Store) : option outcome :=
  match r with
  | RValue v => Some (Fulfilled v)
  | RThrow err => Some (Rejected err)
  | RPromise p => match promises s !! p with Some (Settled o) => Some o | _ => None end
  end.

End Cache.
