(* ===== verification/StoreWf.v ===== *)
(** * Well-formedness of the store state

    [wf] is the invariant every reachable state of [Store] satisfies:
    identities below [next_ref] are the only ones in use, every key of
    [data] points to an allocated entry object and no two keys share one,
    and an in-flight load of [get] ([TLoad]) is pending exactly while the
    object it captured still holds its promise in [loading].  The second
    half of the file proves that every operation of the class and every
    step of the event loop preserves [wf]. *)

From S2P Require Import Prelude JsValue Store.

(** The promise and the timer an entry object holds were allocated below
    [n]. *)
Definition entry_below (e : Entry) (n : nat) : Prop :=
  (forall p, loading e = Some p -> p < n) /\
  (forall t, refreshInterval e = Some t -> t < n).

Record wf (s : Store) : Prop := {
  wf_heap_below : map_below (heap s) (next_ref s);
  wf_promises_below : map_below (promises s) (next_ref s);
  wf_tasks_below : map_below (tasks s) (next_ref s);
  wf_intervals_below : map_below (intervals s) (next_ref s);
  wf_data_heap : forall k l, data s !! k = Some l -> is_Some (heap s !! l);
  wf_data_inj : forall k1 k2 l, data s !! k1 = Some l -> data s !! k2 = Some l -> k1 = k2;
  wf_load_task : forall p key l, tasks s !! p = Some (TLoad key l) ->
    promises s !! p = Some Pending /\
    exists e, heap s !! l = Some e /\ loading e = Some p;
  wf_pending : forall p, promises s !! p = Some Pending ->
    exists key l, tasks s !! p = Some (TLoad key l);
  wf_entry_refs : forall l e, heap s !! l = Some e -> entry_below e (next_ref s)
}.

Lemma entry_below_mono e n n' : entry_below e n -> n <= n' -> entry_below e n'.
Proof. intros [Hl Hr] Hle. split; intros; [specialize (Hl _ H)|specialize (Hr _ H)]; lia. Qed.

Lemma entry_below_empty n : entry_below empty_entry n.
Proof. split; by intros. Qed.

Lemma entry_below_S e n : entry_below e n -> entry_below e (S n).
Proof. intros Hb. eapply entry_below_mono; [done|lia]. Qed.

#[export] Hint Resolve entry_below_empty entry_below_S : minimarket.

#[export] Hint Resolve wf_heap_below wf_promises_below wf_tasks_below
  wf_intervals_below : minimarket.

(** ** Reading the map after the primitive updates *)

Lemma fetch_Some key s l e :
  fetch key s = Some (l, e) <-> data s !! key = Some l /\ heap s !! l = Some e.
Proof.
  unfold fetch. destruct (data s !! key) as [l'|]; simpl; [|naive_solver].
  destruct (heap s !! l') eqn:E; simpl; naive_solver.
Qed.

Lemma wf_data_fresh s k l : wf s -> data s !! k = Some l -> l < next_ref s.
Proof. intros Hwf Hk. apply (wf_heap_below s Hwf), (wf_data_heap s Hwf k l Hk). Qed.

Lemma fetch_data_set s key k e :
  wf s ->
  fetch k (data_set key e s) =
    if decide (k = key) then Some (next_ref s, e) else fetch k s.
Proof.
  intros Hwf. unfold fetch, data_set; simpl. case_decide; subst; simpl_maps.
  destruct (data s !! k) as [l|] eqn:Hk; simpl; [|done].
  assert (l < next_ref s) by (eapply wf_data_fresh; eauto).
  by rewrite lookup_insert_ne by lia.
Qed.

Lemma data_get_data_set s key k e :
  wf s ->
  data_get k (data_set key e s) = if decide (k = key) then Some e else data_get k s.
Proof. intros Hwf. unfold data_get. rewrite fetch_data_set by done. by case_decide. Qed.

Lemma fetch_write_obj s k l e :
  fetch k (write_obj l e s) =
    match data s !! k with
    | Some l' => if decide (l' = l) then Some (l, e) else fetch k s
    | None => None
    end.
Proof.
  unfold fetch, write_obj; simpl. destruct (data s !! k) as [l'|]; simpl; [|done].
  case_decide; subst; simpl_maps.
Qed.

Lemma data_get_log k o s : data_get k (log o s) = data_get k s.
Proof. done. Qed.

Lemma fetch_log k o s : fetch k (log o s) = fetch k s.
Proof. done. Qed.

#[export] Hint Rewrite data_get_log fetch_log : minimarket_rw.

(** ** Preservation by the primitive updates *)

Lemma wf_same_core s s' :
  data s' = data s -> heap s' = heap s -> promises s' = promises s ->
  tasks s' = tasks s -> next_ref s' = next_ref s ->
  map_below (intervals s') (next_ref s') -> wf s -> wf s'.
Proof.
  destruct s, s'; simpl; intros -> -> -> -> -> Hi [? ? ? ? ? ? ? ? ?].
  by constructor.
Qed.

Ltac wf_same s := apply (wf_same_core s); try reflexivity; simpl.

Lemma wf_log o s : wf s -> wf (log o s).
Proof. intros Hwf. wf_same s; eauto with minimarket. Qed.

Lemma wf_store_emit ev s : wf s -> wf (store_emit ev s).
Proof. apply wf_log. Qed.

Lemma wf_advance d s : wf s -> wf (advance d s).
Proof. intros Hwf. wf_same s; eauto with minimarket. Qed.

Lemma wf_clearInterval h s : wf s -> wf (clearInterval h s).
Proof. intros Hwf. destruct h; [wf_same s|]; eauto with minimarket. Qed.

#[export] Hint Resolve wf_log wf_store_emit wf_advance wf_clearInterval : minimarket.

Lemma below_lt {A} (m : gmap nat A) n i x : map_below m n -> m !! i = Some x -> i < n.
Proof. intros Hb Hi. apply Hb. eauto. Qed.

Lemma below_ne {A} (m : gmap nat A) n i x : map_below m n -> m !! i = Some x -> i <> n.
Proof. intros Hb Hi ->. assert (n < n) by (apply Hb; eauto). lia. Qed.

Lemma wf_data_set key e s :
  wf s -> entry_below e (S (next_ref s)) -> wf (data_set key e s).
Proof.
  intros [Hh Hp Ht Hi Hdh Hinj Hlt Hpe Her] He. unfold data_set; constructor; simpl;
    try solve [auto with minimarket].
  - intros k l. rewrite lookup_insert.
    case_decide; [intros Hl; simplify_eq; rewrite lookup_insert_eq; eauto|].
    intros Hk. destruct (Hdh k l Hk) as [x Hx].
    rewrite lookup_insert_ne; [eauto|]. pose proof (below_ne _ _ _ _ Hh Hx). congruence.
  - intros k1 k2 l. rewrite !lookup_insert.
    assert (forall k, data s !! k <> Some (next_ref s)).
    { intros k Hk. destruct (Hdh k _ Hk) as [x Hx]. by apply (below_ne _ _ _ _ Hh Hx). }
    repeat case_decide; subst; naive_solver.
  - intros p k l Hk. destruct (Hlt p k l Hk) as (Hpp & x & Hx & Hxl).
    split; [done|]. exists x. split; [|done].
    rewrite lookup_insert_ne; [done|]. pose proof (below_ne _ _ _ _ Hh Hx). congruence.
  - intros l e'. rewrite lookup_insert. case_decide; [intros Hx; by simplify_eq|]. eauto with minimarket.
Qed.

Lemma entry_below_base key s :
  wf s -> entry_below (default empty_entry (data_get key s)) (next_ref s).
Proof.
  intros Hwf. unfold data_get. destruct (fetch key s) as [[l e]|] eqn:Hf; simpl;
    [|apply entry_below_empty].
  apply fetch_Some in Hf as [_ He]. by eapply wf_entry_refs.
Qed.

Lemma wf_data_set_copy key v ld ex s :
  wf s ->
  wf (data_set key (mkEntry v ld ex (loading (default empty_entry (data_get key s)))
                      (refreshInterval (default empty_entry (data_get key s)))) s).
Proof.
  intros Hwf. apply wf_data_set; [done|].
  eapply entry_below_mono; [apply (entry_below_base key s Hwf)|lia].
Qed.

Lemma wf_data_set_empty key s : wf s -> wf (data_set key empty_entry s).
Proof. intros Hwf. apply wf_data_set; [done|apply entry_below_empty]. Qed.

(** An entry holding no promise and no timer. *)
Lemma wf_data_set_empty' key v ld ex s : wf s -> wf (data_set key (mkEntry v ld ex None None) s).
Proof. intros Hwf. apply wf_data_set; [done|]. split; done. Qed.

Lemma wf_remove_key key s : wf s -> wf (upd_data (base.delete key) s).
Proof.
  intros [Hh Hp Ht Hi Hdh Hinj Hlt Hpe Her]. constructor; simpl; auto.
  - intros k l. rewrite lookup_delete. case_decide; [done|]. apply Hdh.
  - intros k1 k2 l. rewrite !lookup_delete. repeat case_decide; eauto; done.
Qed.

Lemma wf_refresh key fn s : wf s -> wf (refresh key fn s).
Proof.
  intros [Hh Hp Ht Hi Hdh Hinj Hlt Hpe Her]. unfold refresh; constructor; simpl;
    try solve [eauto with minimarket].
  - intros p k l. rewrite lookup_insert. case_decide; [done|]. apply Hlt.
  - intros p Hpp. destruct (Hpe p Hpp) as (k & l & Hk). exists k, l.
    rewrite lookup_insert_ne; [done|]. pose proof (below_ne _ _ _ _ Ht Hk). congruence.
Qed.

Lemma wf_setInterval key fn ms s : wf s -> wf (snd (setInterval key fn ms s)).
Proof.
  intros [Hh Hp Ht Hi Hdh Hinj Hlt Hpe Her]. unfold setInterval; constructor; simpl;
    eauto with minimarket.
Qed.

#[export] Hint Resolve wf_data_set wf_remove_key wf_refresh wf_setInterval : minimarket.

(** ** Preservation by the methods *)

Lemma wf_set key v ttl s : wf s -> wf (set key v ttl s).
Proof. intros Hwf. unfold set, store_emit. apply wf_log, wf_log, wf_data_set_copy, Hwf. Qed.

Lemma wf_delete key s : wf s -> wf (delete key s).
Proof.
  intros Hwf. unfold delete.
  match goal with |- wf (match data ?s1 !! _ with _ => _ end) =>
    assert (wf s1) by (case_match; eauto with minimarket); destruct (data s1 !! key)
  end; eauto with minimarket.
Qed.

Lemma wf_setAutoRefresh key fn ms s : wf s -> wf (setAutoRefresh key fn ms s).
Proof.
  intros Hwf. unfold setAutoRefresh.
  pose proof (wf_setInterval key fn ms (refresh key fn s) (wf_refresh _ _ _ Hwf)) as H.
  unfold setInterval in *. simpl in *. apply wf_data_set; [done|]. split; simpl.
  - intros p Hp. pose proof (proj1 (entry_below_base key _ H) p Hp). simpl in *. lia.
  - intros t Ht. injection Ht as <-. simpl. lia.
Qed.

(** [setLoader] up to its call of [setAutoRefresh]. *)
Lemma wf_setLoader_entry key fn s :
  wf s ->
  let base := default empty_entry (data_get key s) in
  wf (data_set key (mkEntry (value base) (Some fn) (expiresAt base) (loading base)
                      (refreshInterval base))
        (match data_get key s with Some e => clearInterval (refreshInterval e) s | None => s end)).
Proof.
  intros Hwf base. subst base.
  pose proof (entry_below_base key s Hwf) as Hb.
  destruct (data_get key s) as [e|]; simpl in *; [|by apply wf_data_set_empty'].
  assert (Hn : next_ref (clearInterval (refreshInterval e) s) = next_ref s)
    by (unfold clearInterval; by destruct (refreshInterval e)).
  apply wf_data_set; [eauto with minimarket|].
  rewrite Hn. exact (entry_below_mono _ _ _ Hb (le_S _ _ (le_n _))).
Qed.

Lemma wf_setLoader key fn ttl s : wf s -> wf (setLoader key fn ttl s).
Proof.
  intros Hwf. pose proof (wf_setLoader_entry key fn s Hwf). unfold setLoader.
  destruct ttl as [ms|]; [destruct (num_truthy ms)|]; auto using wf_setAutoRefresh.
Qed.

#[export] Hint Resolve wf_set wf_delete wf_setAutoRefresh wf_setLoader : minimarket.

(** ** Preservation by [get] *)

Lemma wf_start_load key fn inv l e s :
  wf s -> heap s !! l = Some e -> loading e = None ->
  wf (snd (start_load key fn inv l e s)).
Proof.
  intros Hwf He Hl. unfold start_load. destruct inv; [|simpl; eauto with minimarket].
  destruct Hwf as [Hh Hp Ht Hi Hdh Hinj Hlt Hpe Her]. simpl. constructor; simpl.
  - apply map_below_insert; [auto with minimarket|].
    pose proof (below_lt _ _ _ _ Hh He). lia.
  - by apply map_below_insert_fresh.
  - by apply map_below_insert_fresh.
  - auto with minimarket.
  - intros k l' Hk. rewrite lookup_insert. case_decide; eauto.
  - done.
  - intros p k l' Hk. rewrite lookup_insert in Hk. case_decide; simplify_eq.
    + split; [by rewrite lookup_insert_eq|].
      eexists; split; [by rewrite lookup_insert_eq|done].
    + destruct (Hlt p k l' Hk) as (Hpp & x & Hx & Hxl).
      rewrite lookup_insert_ne by done. split; [done|].
      exists x. rewrite lookup_insert_ne; [done|]. congruence.
  - intros p Hpp. rewrite lookup_insert in Hpp. case_decide; subst.
    + exists key, l. simpl_maps.
    + destruct (Hpe p Hpp) as (k & l' & Hk). exists k, l'. by rewrite lookup_insert_ne.
  - intros l' e'' Hx. rewrite lookup_insert in Hx. case_decide; simplify_eq.
    + destruct (Her _ _ He) as [_ Hr]. split; simpl.
      * intros q Hq. injection Hq as <-. lia.
      * intros t Htt. specialize (Hr t Htt). lia.
    + eauto with minimarket.
Qed.

Lemma wf_get_from key ldr inv l e s :
  wf s -> heap s !! l = Some e -> wf (snd (get_from key ldr inv l e s)).
Proof.
  intros Hwf He. unfold get_from.
  destruct (loading e) eqn:Hl; [done|].
  destruct (ldr ?? loader e); [|done]. by apply wf_start_load.
Qed.

Lemma wf_get key ldr inv s : wf s -> wf (snd (get key ldr inv s)).
Proof.
  intros Hwf. unfold get.
  destruct (fetch key s) as [[l e]|] eqn:Hf;
    [apply fetch_Some in Hf as [_ He]; destruct (isExpired e s); [|case_match]|];
    try apply wf_get_from; simpl; simpl_maps; eauto with minimarket.
Qed.

(** ** Preservation by the steps of the event loop *)

Lemma set_frame key v ttl s :
  tasks (set key v ttl s) = tasks s /\ promises (set key v ttl s) = promises s /\
  intervals (set key v ttl s) = intervals s /\ now (set key v ttl s) = now s /\
  heap (set key v ttl s) = <[next_ref s := mkEntry v
      (loader (default empty_entry (data_get key s)))
      (expiry_of (now s) ttl)
      (loading (default empty_entry (data_get key s)))
      (refreshInterval (default empty_entry (data_get key s)))]> (heap s) /\
  next_ref (set key v ttl s) = S (next_ref s).
Proof. done. Qed.

Lemma set_heap_old key v ttl s l :
  wf s -> is_Some (heap s !! l) -> heap (set key v ttl s) !! l = heap s !! l.
Proof.
  intros Hwf [x Hx]. rewrite (proj1 (proj2 (proj2 (proj2 (proj2 (set_frame key v ttl s)))))).
  rewrite lookup_insert_ne; [done|]. pose proof (below_ne _ _ _ _ (wf_heap_below s Hwf) Hx).
  congruence.
Qed.

Lemma wf_settle_core p key l o s :
  wf s -> tasks s !! p = Some (TLoad key l) ->
  wf (upd_tasks (base.delete p) (upd_promises <[p:=Settled o]> (clear_loading l s))).
Proof.
  intros Hwf Hp. pose proof (wf_load_task s Hwf p key l Hp) as (Hpp & e & He & Hel).
  destruct Hwf as [Hh Hpb Ht Hi Hdh Hinj Hlt Hpe Her].
  unfold clear_loading. rewrite He. constructor; simpl.
  - apply map_below_insert; [done|]. exact (below_lt _ _ _ _ Hh He).
  - apply map_below_insert; [done|]. exact (below_lt _ _ _ _ Hpb Hpp).
  - by apply map_below_delete.
  - done.
  - intros k l' Hk. rewrite lookup_insert. case_decide; eauto.
  - done.
  - intros p' k l' Hk. rewrite lookup_delete in Hk. case_decide; [done|].
    destruct (Hlt p' k l' Hk) as (Hpp' & x & Hx & Hxl).
    rewrite lookup_insert_ne by congruence. split; [done|].
    rewrite lookup_insert. case_decide; subst; [congruence|]. eauto.
  - intros p' Hpp'. rewrite lookup_insert in Hpp'. case_decide; [done|].
    destruct (Hpe p' Hpp') as (k & l' & Hk). exists k, l'. by rewrite lookup_delete_ne.
  - intros l' e'' Hx. rewrite lookup_insert in Hx. case_decide; simplify_eq.
    + destruct (Her _ _ He) as [_ Hr]. split; simpl; [done|exact Hr].
    + by eapply Her.
Qed.

Lemma tasks_set key v ttl s : tasks (set key v ttl s) = tasks s.
Proof. done. Qed.

Lemma promises_set key v ttl s : promises (set key v ttl s) = promises s.
Proof. done. Qed.

(** [delete] by its cases: the entry, its timer, the map key. *)
Ltac delete_cases key s :=
  unfold delete, clearInterval;
  destruct (data_get key s) as [?e|]; [destruct (refreshInterval _)|]; simpl;
    destruct (data _ !! key); done.

Lemma tasks_delete key s : tasks (delete key s) = tasks s.
Proof. delete_cases key s. Qed.

Lemma promises_delete key s : promises (delete key s) = promises s.
Proof. delete_cases key s. Qed.

#[export] Hint Rewrite tasks_set promises_set tasks_delete promises_delete : minimarket_rw.

(** The callbacks of a load keep the invariant, the tasks and the promises. *)
Lemma wf_load_result key o s :
  wf s -> wf (load_result key o s) /\ tasks (load_result key o s) = tasks s /\
  promises (load_result key o s) = promises s.
Proof.
  intros Hwf. destruct o; cbn [load_result]; autorewrite with minimarket_rw;
    split_and!; eauto with minimarket.
Qed.

Lemma wf_settle_load p key l o s :
  wf s -> tasks s !! p = Some (TLoad key l) -> wf (settle_load p key l o s).
Proof.
  intros Hwf Hp. destruct (wf_load_result key o s Hwf) as (Hw & Ht & _).
  apply (wf_settle_core p key); [done|by rewrite Ht].
Qed.

(** The callback of a refresh leaves the task table. *)
Lemma wf_drop_refresh i key fn s :
  wf s -> tasks s !! i = Some (TRefresh key fn) -> wf (upd_tasks (base.delete i) s).
Proof.
  intros Hwf Hi. destruct Hwf as [Hh Hpb Ht Hib Hdh Hinj Hlt Hpe Her]. constructor; simpl; auto.
  - by apply map_below_delete.
  - intros p k l. rewrite lookup_delete. case_decide; [done|]. apply Hlt.
  - intros p Hpp. destruct (Hpe p Hpp) as (k & l & Hk). exists k, l.
    rewrite lookup_delete_ne; [done|]. congruence.
Qed.

Lemma wf_settle_refresh i key fn o s :
  wf s -> tasks s !! i = Some (TRefresh key fn) -> wf (settle_refresh i key o s).
Proof.
  intros Hwf Hi. pose proof (wf_drop_refresh i key fn s Hwf Hi).
  unfold settle_refresh. destruct o; eauto with minimarket.
Qed.

Lemma wf_fire t s s' : wf s -> fire t s = Some s' -> wf s'.
Proof.
  intros Hwf. unfold fire. destruct (intervals s !! t) as [iv|] eqn:Ht; [|done].
  destruct (iv_due iv <=? now s)%Z; [|done]. intros Hs; injection Hs as <-.
  apply wf_refresh.
  wf_same s; [|done]. apply map_below_insert; [exact (wf_intervals_below s Hwf)|].
  exact (below_lt _ _ _ _ (wf_intervals_below s Hwf) Ht).
Qed.

#[export] Hint Resolve wf_get wf_settle_load wf_settle_refresh wf_fire : minimarket.

(** ** What [delete] leaves untouched *)

Lemma delete_frame key s :
  heap (delete key s) = heap s /\ promises (delete key s) = promises s /\
  tasks (delete key s) = tasks s /\ next_ref (delete key s) = next_ref s /\
  now (delete key s) = now s.
Proof. delete_cases key s. Qed.

(** ** Reading an entry after [set] and after a callback clears [loading] *)

Lemma data_get_set s key k v ttl :
  wf s ->
  data_get k (set key v ttl s) =
    if decide (k = key) then
      Some (mkEntry v (loader (default empty_entry (data_get key s)))
              (expiry_of (now s) ttl)
              (loading (default empty_entry (data_get key s)))
              (refreshInterval (default empty_entry (data_get key s))))
    else data_get k s.
Proof. intros Hwf. unfold set, store_emit. rewrite !data_get_log. by apply data_get_data_set. Qed.

Lemma data_get_clear_loading s k l :
  data_get k (clear_loading l s) =
    match fetch k s with
    | Some (l', e) =>
        Some (if decide (l' = l)
              then mkEntry (value e) (loader e) (expiresAt e) None (refreshInterval e)
              else e)
    | None => None
    end.
Proof.
  unfold clear_loading. destruct (heap s !! l) as [e0|] eqn:Hl.
  - unfold data_get. rewrite fetch_write_obj. unfold fetch.
    destruct (data s !! k) as [l'|]; simpl; [|done].
    destruct (decide (l' = l)) as [->|Hne].
    + rewrite Hl; simpl. by rewrite decide_True.
    + destruct (heap s !! l'); simpl; [|done]. by rewrite decide_False.
  - unfold data_get, fetch. destruct (data s !! k) as [l'|]; simpl; [|done].
    destruct (heap s !! l') eqn:E; simpl; [|done].
    destruct (decide (l' = l)); subst; congruence.
Qed.

(** ** [delete] on a present key *)

Lemma delete_present key s l :
  data s !! key = Some l ->
  data (delete key s) = base.delete key (data s) /\
  trace (delete key s) = trace s ++ [ObsEmit (EvDelete key)] /\
  intervals (delete key s) =
    match data_get key s ≫= refreshInterval with
    | Some t => base.delete t (intervals s)
    | None => intervals s
    end.
Proof.
  intros Hk. unfold delete, clearInterval.
  destruct (data_get key s) as [e|]; simpl; [destruct (refreshInterval e)|]; simpl; by rewrite Hk.
Qed.

Lemma delete_absent key s : data s !! key = None -> delete key s = s.
Proof.
  intros Hk. unfold delete, data_get, fetch. rewrite Hk. simpl. by rewrite Hk.
Qed.

(** ** A [get] on one key leaves the entries of the other keys *)

Lemma fetch_delete_other k k' s : k <> k' -> fetch k (delete k' s) = fetch k s.
Proof.
  intros Hne. unfold delete. set (s1 := match data_get k' s with
                                        | Some e => clearInterval (refreshInterval e) s | None => s end).
  assert (Hs1 : fetch k s1 = fetch k s /\ data s1 = data s).
  { subst s1. destruct (data_get k' s) as [e|]; [destruct (refreshInterval e)|]; done. }
  destruct Hs1 as [Hf Hd]. rewrite Hd. destruct (data s !! k'); [|done].
  unfold store_emit. rewrite fetch_log, <-Hf. unfold fetch. simpl. by rewrite lookup_delete_ne by congruence.
Qed.

Lemma fetch_get_from_other k k' ldr inv l e s :
  wf s -> data s !! k' = Some l -> k <> k' -> fetch k (snd (get_from k' ldr inv l e s)) = fetch k s.
Proof.
  intros Hwf Hl Hne. unfold get_from, start_load. repeat case_match; try done.
  change (fetch k (write_obj l (mkEntry (value e) (loader e) (expiresAt e) (Some (next_ref (log (ObsCall k' l0) s)))
            (refreshInterval e)) (log (ObsCall k' l0) s)) = fetch k s).
  rewrite fetch_write_obj. simpl. destruct (data s !! k) as [lk|] eqn:Hk; [|by unfold fetch; rewrite Hk].
  rewrite decide_False; [done|]. intros ->. apply Hne. by eapply (wf_data_inj s Hwf).
Qed.

Lemma fetch_get_other k k' ldr inv s :
  wf s -> k <> k' -> fetch k (snd (get k' ldr inv s)) = fetch k s.
Proof.
  intros Hwf Hne. unfold get. destruct (fetch k' s) as [[l e]|] eqn:Hf;
    [apply fetch_Some in Hf as [Hl He]; destruct (isExpired e s); cbv beta iota zeta;
     [|destruct (is_undefined (value e)); [by apply fetch_get_from_other|done]]|].
  all: rewrite fetch_get_from_other; [|eauto with minimarket|simpl; by rewrite lookup_insert_eq|done].
  all: rewrite fetch_data_set, decide_False by eauto with minimarket; try done.
  all: by apply fetch_delete_other.
Qed.
