(* ===== verification/StoreWfDec.v ===== *)
(** * The invariant [wf] as an executable check

    [wfb] decides [wf] field by field, each quantification over a map of
    the store being a [map_Forall] over that map; [wfb_spec] proves it
    equivalent to [wf], and [wf_dec] makes [wf] a [Decision] instance, so
    that the well-formedness of a concrete store is established by
    evaluation. *)

From S2P Require Import Prelude JsValue Store StoreWf.

(** The task [p] is consistent with the promises and the heap. *)
Definition task_ok (s : Store) (p : nat) (t : task) : bool :=
  match t with
  | TLoad _ l =>
      match promises s !! p, heap s !! l with
      | Some Pending, Some e => bool_decide (loading e = Some p)
      | _, _ => false
      end
  | TRefresh _ _ => true
  end.

(** A pending promise belongs to a load. *)
Definition pending_ok (s : Store) (p : nat) (st : pstate) : bool :=
  match st with
  | Pending => match tasks s !! p with Some (TLoad _ _) => true | _ => false end
  | Settled _ => true
  end.

Definition entry_belowb (e : Entry) (n : nat) : bool :=
  match loading e with Some p => bool_decide (p < n) | None => true end &&
  match refreshInterval e with Some t => bool_decide (t < n) | None => true end.

Definition wfb (s : Store) : bool :=
  let n := next_ref s in
  bool_decide (map_Forall (fun i _ => i < n) (heap s)) &&
  bool_decide (map_Forall (fun i _ => i < n) (promises s)) &&
  bool_decide (map_Forall (fun i _ => i < n) (tasks s)) &&
  bool_decide (map_Forall (fun i _ => i < n) (intervals s)) &&
  bool_decide (map_Forall (fun _ l => is_Some (heap s !! l)) (data s)) &&
  bool_decide (map_Forall (fun k1 l => map_Forall (fun k2 l' => l = l' -> k1 = k2) (data s)) (data s)) &&
  bool_decide (map_Forall (fun p t => task_ok s p t = true) (tasks s)) &&
  bool_decide (map_Forall (fun p st => pending_ok s p st = true) (promises s)) &&
  bool_decide (map_Forall (fun _ e => entry_belowb e n = true) (heap s)).

(** ** Each check against the field of [wf] it decides *)

Lemma map_below_Forall {A} (m : gmap nat A) n : map_below m n <-> map_Forall (fun i _ => i < n) m.
Proof. split; intros H i; [intros x Hx; apply H; eauto|intros [x Hx]; eapply H; eauto]. Qed.

Lemma entry_belowb_spec e n : entry_belowb e n = true <-> entry_below e n.
Proof.
  unfold entry_belowb, entry_below. rewrite andb_true_iff.
  destruct (loading e), (refreshInterval e); rewrite ?bool_decide_eq_true; naive_solver.
Qed.

Lemma task_ok_load s p key l :
  task_ok s p (TLoad key l) = true <->
  promises s !! p = Some Pending /\ exists e, heap s !! l = Some e /\ loading e = Some p.
Proof.
  simpl. destruct (promises s !! p) as [[]|], (heap s !! l) as [e|];
    rewrite ?bool_decide_eq_true; naive_solver.
Qed.

Lemma pending_ok_spec s p st :
  pending_ok s p st = true <-> (st = Pending -> exists key l, tasks s !! p = Some (TLoad key l)).
Proof.
  destruct st; simpl; [|naive_solver]. destruct (tasks s !! p) as [[]|]; naive_solver.
Qed.

(** ** The check decides the invariant *)

Theorem wfb_spec s : wfb s = true <-> wf s.
Proof.
  unfold wfb. rewrite !andb_true_iff, !bool_decide_eq_true, <-!map_below_Forall.
  split.
  - intros ((((((((Hh & Hp) & Ht) & Hi) & Hdh) & Hinj) & Hlt) & Hpe) & Her).
    constructor; try done.
    + intros k1 k2 l H1 H2. by apply (Hinj k1 l H1 k2 l H2).
    + intros p key l Hk. apply (proj1 (task_ok_load s p key l)), (Hlt p _ Hk).
    + intros p Hp'. exact (proj1 (pending_ok_spec s p Pending) (Hpe p _ Hp') eq_refl).
    + intros l e He. apply (proj1 (entry_belowb_spec e _)), (Her l e He).
  - intros [Hh Hp Ht Hi Hdh Hinj Hlt Hpe Her]. split_and!; try done.
    + intros k1 l H1 k2 l' H2 ->. by apply (Hinj k1 k2 l').
    + intros p [key l|key fn] Hk; [|done]. by apply (proj2 (task_ok_load s p key l)), (Hlt p key l).
    + intros p st Hst. apply pending_ok_spec. intros ->. by apply Hpe.
    + intros l e He. by apply (proj2 (entry_belowb_spec e _)), (Her l e).
Qed.

#[export] Instance wf_dec s : Decision (wf s).
Proof. destruct (wfb s) eqn:H; [left|right]; rewrite <-wfb_spec; congruence. Defined.
