(* ===== verification/Runtime.v ===== *)
(** * The store under the event loop

    Callers and the event loop interleave at the points where the code
    yields: a call of a method of [Store] runs to completion (none of them
    awaits before returning its promise), and between calls the loop may
    run a callback whose loader promise has settled, fire a due
    [setInterval] timer, or let time pass.  [step] is that interleaving,
    [reachable] the states a fresh store reaches through it.

    The theorems of this file are the cache's concurrency contract:
    every reachable state is well formed; concurrent [get] calls on one
    key start at most one load and all join its promise; a settled
    promise never changes, so every joined caller sees the same outcome;
    a failed load leaves every cached value in place. *)

From S2P Require Import Prelude JsValue Store StoreWf StoreWfDec.

(** A call of a method of [Store] by some caller. *)
Inductive call :=
| CallGet (key : string) (ldr : option Loader) (inv : invocation)
| CallSet (key : string) (v : jsval) (ttl : option Z)
| CallSetLoader (key : string) (fn : Loader) (ttl : option Z)
| CallSetAutoRefresh (key : string) (fn : Loader) (ms : Z)
| CallDelete (key : string).

Definition run_call (c : call) (s : Store) : Store :=
  match c with
  | CallGet key ldr inv => snd (get key ldr inv s)
  | CallSet key v ttl => set key v ttl s
  | CallSetLoader key fn ttl => setLoader key fn ttl s
  | CallSetAutoRefresh key fn ms => setAutoRefresh key fn ms s
  | CallDelete key => delete key s
  end.

Inductive step : Store -> Store -> Prop :=
| StepCall c s : step s (run_call c s)
| StepSettleLoad p key l o s :
    tasks s !! p = Some (TLoad key l) -> step s (settle_load p key l o s)
| StepSettleRefresh i key fn o s :
    tasks s !! i = Some (TRefresh key fn) -> step s (settle_refresh i key o s)
| StepFire t s s' : fire t s = Some s' -> step s s'
| StepTick d s : (0 <= d)%Z -> step s (advance d s).

Definition reachable (s : Store) : Prop := exists t0, rtc step (init t0) s.

(** [n] callers issue [get(key, ..)] one after the other, before any
    callback of the event loop runs: the replies and the final state. *)
Fixpoint gets (key : string) (calls : list (option Loader * invocation)) (s : Store)
    : list reply * Store :=
  match calls with
  | [] => ([], s)
  | (ldr, inv) :: cs =>
      let '(r, s1) := get key ldr inv s in
      let '(rs, s2) := gets key cs s1 in
      (r :: rs, s2)
  end.

(** ** Every reachable state is well formed *)

Lemma wf_init t0 : wf (init t0).
Proof.
  constructor; simpl; try apply map_below_empty; intros *; rewrite ?lookup_empty; done.
Qed.

Lemma wf_step s s' : wf s -> step s s' -> wf s'.
Proof.
  intros Hwf Hs. destruct Hs as [c s|p key l o s Hp|i key fn o s Hi|t s s1 Hf|d s Hd].
  - destruct c; simpl; eauto with minimarket.
  - eauto with minimarket.
  - eapply wf_settle_refresh; eauto.
  - eapply wf_fire; eauto.
  - eauto with minimarket.
Qed.

Lemma wf_steps s s' : wf s -> rtc step s s' -> wf s'.
Proof. induction 2; eauto using wf_step. Qed.

Lemma reachable_wf s : reachable s -> wf s.
Proof. intros [t0 Hs]. eapply wf_steps; [apply wf_init|done]. Qed.

(** ** Joining an in-flight load *)

(** The entry of [key] is valid, holds no value and carries the promise
    [p] in [loading]: a [get] on [key] now returns [p]. *)
Definition joinable (key : string) (p : nat) (s : Store) : Prop :=
  exists l e, fetch key s = Some (l, e) /\ isExpired e s = false /\
              value e = JUndefined /\ loading e = Some p.

(** The loader [get(key, ldr)] would use: the explicit one, else the one
    registered on the entry. *)
Definition resolve_loader (key : string) (ldr : option Loader) (s : Store) : option Loader :=
  ldr ?? (data_get key s ≫= loader).

Lemma get_joinable key ldr inv s p :
  joinable key p s -> get key ldr inv s = (RPromise p, s).
Proof.
  intros (l & e & Hf & Hx & Hv & Hl). unfold get. rewrite Hf, Hx; simpl.
  rewrite Hv; simpl. unfold get_from. by rewrite Hl.
Qed.

Lemma gets_joinable key calls s p :
  joinable key p s -> gets key calls s = (replicate (length calls) (RPromise p), s).
Proof.
  intros Hj. induction calls as [|[ldr inv] cs IH]; simpl; [done|].
  by rewrite (get_joinable _ _ _ _ _ Hj), IH.
Qed.

Lemma get_from_joinable key ldr inv l e s p s1 :
  fetch key s = Some (l, e) -> isExpired e s = false -> value e = JUndefined ->
  get_from key ldr inv l e s = (RPromise p, s1) -> joinable key p s1.
Proof.
  intros Hf Hx Hv. unfold get_from.
  destruct (loading e) as [p'|] eqn:Hl; [intros [= <- <-]; by exists l, e|].
  destruct (ldr ?? loader e) as [fn|]; [|done].
  unfold start_load. destruct inv; [|done]. intros [= <- <-].
  apply fetch_Some in Hf as [Hd He].
  exists l, (mkEntry (value e) (loader e) (expiresAt e) (Some (next_ref s))
                 (refreshInterval e)).
  split_and!; [|done..].
  apply fetch_Some; simpl. split; [done|]. by rewrite lookup_insert_eq.
Qed.

Lemma get_fresh_entry key ldr inv s p s1 :
  wf s ->
  get_from key ldr inv (next_ref s) empty_entry (data_set key empty_entry s) = (RPromise p, s1) ->
  joinable key p s1.
Proof.
  intros Hwf. apply get_from_joinable; [|done..].
  rewrite fetch_data_set by done. by case_decide.
Qed.

(** After a [get] that returned the promise [p], the entry of the key is
    joinable on [p]. *)
Lemma get_promise_joinable key ldr inv s p s1 :
  wf s -> get key ldr inv s = (RPromise p, s1) -> joinable key p s1.
Proof.
  intros Hwf. unfold get. destruct (fetch key s) as [[l e]|] eqn:Hf.
  - destruct (isExpired e s) eqn:Hx.
    + apply get_fresh_entry. eauto with minimarket.
    + destruct (is_undefined (value e)) eqn:Hv; [|done].
      apply get_from_joinable; [done|done|]. by apply is_undefined_spec.
  - by apply get_fresh_entry.
Qed.

(** The key has no value a [get] could return and no load in flight. *)
Definition unpopulated (key : string) (s : Store) : Prop :=
  fetch key s = None \/
  exists l e, fetch key s = Some (l, e) /\ isExpired e s = false /\
              value e = JUndefined /\ loading e = None.

Lemma get_starts_load key ldr fn s :
  unpopulated key s -> resolve_loader key ldr s = Some fn ->
  exists p s1, get key ldr Returns s = (RPromise p, s1) /\
    trace s1 = trace s ++ [ObsCall key fn] /\ promises s1 !! p = Some Pending.
Proof.
  unfold resolve_loader, data_get. intros [Hf | (l & e & Hf & Hx & Hv & Hl)]; rewrite Hf; simpl.
  - intros Hfn. unfold get. rewrite Hf. unfold get_from; simpl.
    rewrite nullish_None_r in Hfn. rewrite Hfn.
    eexists _, _. split; [reflexivity|]. simpl. split; [done|]. by rewrite lookup_insert_eq.
  - intros Hfn. unfold get. rewrite Hf, Hx, Hv; simpl. unfold get_from. rewrite Hl, Hfn.
    eexists _, _. split; [reflexivity|]. simpl. split; [done|]. by rewrite lookup_insert_eq.
Qed.

(** ** Settled promises never change *)

Lemma promises_get key ldr inv s p x :
  wf s -> promises s !! p = Some x -> promises (snd (get key ldr inv s)) !! p = Some x.
Proof.
  intros Hwf Hp.
  assert (Hfrom : forall s0 l e, next_ref s <= next_ref s0 -> promises s0 = promises s ->
            promises (snd (get_from key ldr inv l e s0)) !! p = Some x).
  { intros s0 l e Hle Hs0. unfold get_from, start_load.
    repeat case_match; simpl; rewrite ?Hs0; try done.
    rewrite lookup_insert_ne; [done|].
    pose proof (below_lt _ _ _ _ (wf_promises_below s Hwf) Hp). lia. }
  pose proof (delete_frame key s) as (_ & Hdp & _ & Hdn & _).
  unfold get. destruct (fetch key s) as [[l e]|]; [destruct (isExpired e s)|]; simpl.
  - apply Hfrom; simpl; [lia|done].
  - destruct (is_undefined (value e)); [apply Hfrom; [lia|done]|done].
  - apply Hfrom; simpl; [lia|done].
Qed.

Lemma promises_setAutoRefresh key fn ms s : promises (setAutoRefresh key fn ms s) = promises s.
Proof. done. Qed.

Lemma promises_setLoader key fn ttl s : promises (setLoader key fn ttl s) = promises s.
Proof.
  unfold setLoader, clearInterval.
  destruct (data_get key s) as [e|]; [destruct (refreshInterval e)|];
    destruct ttl as [ms|]; try destruct (num_truthy ms); done.
Qed.

Lemma promises_clear_loading l s : promises (clear_loading l s) = promises s.
Proof. unfold clear_loading. by case_match. Qed.

Lemma settled_step s s' p o :
  wf s -> step s s' -> promises s !! p = Some (Settled o) -> promises s' !! p = Some (Settled o).
Proof.
  intros Hwf Hs Hp. destruct Hs as [c s|p' key l o' s Hp'|i key fn o' s Hi|t s s1 Hf|d s Hd].
  - destruct c; simpl.
    + by apply promises_get.
    + done.
    + by rewrite promises_setLoader.
    + done.
    + by rewrite (proj1 (proj2 (delete_frame key s))).
  - destruct (wf_load_task s Hwf p' key l Hp') as [Hpend _].
    unfold settle_load; simpl. rewrite lookup_insert_ne by congruence.
    rewrite promises_clear_loading. by rewrite (proj2 (proj2 (wf_load_result key o' s Hwf))).
  - unfold settle_refresh. by destruct o'.
  - unfold fire in Hf. repeat case_match; simplify_eq; done.
  - done.
Qed.

Lemma settled_steps s s' p o :
  wf s -> rtc step s s' -> promises s !! p = Some (Settled o) -> promises s' !! p = Some (Settled o).
Proof.
  intros Hwf Hs. revert Hwf. induction Hs as [|s1 s2 s3 H12 H23 IH]; [done|].
  intros Hwf Hp. apply IH; [by eapply wf_step|]. by eapply settled_step.
Qed.

(** ** Theorems: de-duplication of concurrent loads *)

(** C1. De-duplication.  Once a [get] on [key] has returned the promise
    [p] of a load, every further [get(key, ..)] issued before that load
    settles -- with any explicit loader, whatever the loader would do --
    returns the same promise [p], calls no loader and changes nothing. *)
Theorem get_dedup key ldr inv calls s p s1 :
  wf s -> get key ldr inv s = (RPromise p, s1) ->
  gets key calls s1 = (replicate (length calls) (RPromise p), s1).
Proof. intros Hwf Hg. apply gets_joinable. by eapply get_promise_joinable. Qed.

(** C2. Exactly one loader call.  If [key] holds no value and no load is
    in flight, and [get] has a loader to use, then [n+1] concurrent
    [get(key, ..)] calls invoke that loader exactly once (the trace gains
    one [ObsCall] and nothing else), and all of them receive the one
    pending promise. *)
Theorem get_single_call key ldr fn calls s rs s' :
  wf s -> unpopulated key s -> resolve_loader key ldr s = Some fn ->
  gets key ((ldr, Returns) :: calls) s = (rs, s') ->
  exists p, rs = replicate (S (length calls)) (RPromise p) /\
    trace s' = trace s ++ [ObsCall key fn] /\ promises s' !! p = Some Pending.
Proof.
  intros Hwf Hu Hr. destruct (get_starts_load key ldr fn s Hu Hr) as (p & s1 & Hg & Ht & Hp).
  simpl. rewrite Hg. rewrite (gets_joinable key calls s1 p).
  - intros [= <- <-]. eauto.
  - by eapply get_promise_joinable.
Qed.

(** C3. All joined callers see one outcome.  When the load [p] of a
    reachable state settles with outcome [o] (a value or a failure), the
    promise [p] that every joined caller holds has outcome [o] in every
    state reached afterwards. *)
Theorem joined_callers_agree s p key l o s' :
  reachable s -> tasks s !! p = Some (TLoad key l) ->
  rtc step (settle_load p key l o s) s' ->
  reply_outcome (RPromise p) s' = Some o.
Proof.
  intros Hr Hp Hs. pose proof (reachable_wf s Hr) as Hwf. simpl.
  erewrite (settled_steps _ _ p o); [done|by apply wf_settle_load|done|].
  unfold settle_load; simpl. by rewrite lookup_insert_eq.
Qed.

(** C4. At most one load per entry object.  In every reachable state two
    in-flight loads of [get] never hold the same entry object: the
    [loading] slot of an entry is owned by a single load. *)
Theorem inflight_unique s p1 p2 k1 k2 l :
  reachable s -> tasks s !! p1 = Some (TLoad k1 l) -> tasks s !! p2 = Some (TLoad k2 l) ->
  p1 = p2.
Proof.
  intros Hr H1 H2. pose proof (reachable_wf s Hr) as Hwf.
  destruct (wf_load_task s Hwf _ _ _ H1) as (_ & e1 & He1 & Hl1).
  destruct (wf_load_task s Hwf _ _ _ H2) as (_ & e2 & He2 & Hl2). congruence.
Qed.

(** ** Theorems: what a settling load does to the entries *)

Lemma settle_load_reads s p key l o k :
  data_get k (settle_load p key l o s) = data_get k (clear_loading l (load_result key o s)).
Proof. done. Qed.

(** C5. A failed load changes no cached data.  When a load of [get] fails,
    every key keeps the value and expiry it had; only the [loading] slot
    of the entry object the load held is cleared, the promise is rejected
    with the loader's error, and nothing is emitted. *)
Theorem failed_load_keeps_values s p key l err k :
  wf s -> tasks s !! p = Some (TLoad key l) ->
  (value <$> data_get k (settle_load p key l (Rejected err) s)) = (value <$> data_get k s) /\
  (expiresAt <$> data_get k (settle_load p key l (Rejected err) s)) = (expiresAt <$> data_get k s) /\
  reply_outcome (RPromise p) (settle_load p key l (Rejected err) s) = Some (Rejected err) /\
  trace (settle_load p key l (Rejected err) s) = trace s.
Proof.
  intros Hwf Hp. split_and!.
  - rewrite settle_load_reads, data_get_clear_loading. cbn [load_result]. unfold data_get.
    destruct (fetch k s) as [[l' e]|]; simpl; [by case_decide|done].
  - rewrite settle_load_reads, data_get_clear_loading. cbn [load_result]. unfold data_get.
    destruct (fetch k s) as [[l' e]|]; simpl; [by case_decide|done].
  - unfold settle_load; simpl. by rewrite lookup_insert_eq.
  - unfold settle_load, clear_loading; simpl. by case_match.
Qed.

Lemma fetch_set_self s key v ttl :
  wf s ->
  fetch key (set key v ttl s) =
    Some (next_ref s, mkEntry v (loader (default empty_entry (data_get key s)))
                        (expiry_of (now s) ttl)
                        (loading (default empty_entry (data_get key s)))
                        (refreshInterval (default empty_entry (data_get key s)))).
Proof. intros Hwf. unfold set, store_emit. rewrite !fetch_log, fetch_data_set by done. by case_decide. Qed.

Lemma settle_load_fetch s p key l o k :
  fetch k (settle_load p key l o s) = fetch k (clear_loading l (load_result key o s)).
Proof. done. Qed.

(** [set] stores a fresh object, so clearing [loading] on the object [l]
    the load held does not touch it. *)
Lemma fetch_clear_loading_set s key v l e :
  wf s -> heap s !! l = Some e ->
  fetch key (clear_loading l (set key v None s)) =
    Some (next_ref s, mkEntry v (loader (default empty_entry (data_get key s))) None
                        (loading (default empty_entry (data_get key s)))
                        (refreshInterval (default empty_entry (data_get key s)))).
Proof.
  intros Hwf He.
  assert (Hne : next_ref s <> l)
    by (pose proof (below_ne _ _ _ _ (wf_heap_below s Hwf) He); congruence).
  pose proof (fetch_set_self s key v None Hwf) as Hf.
  unfold clear_loading. rewrite set_heap_old by eauto.
  rewrite He, fetch_write_obj. apply fetch_Some in Hf as Hf'. destruct Hf' as [Hk _].
  rewrite Hk, decide_False by done. done.
Qed.

(** C6. A successful load stores its value through [set].  The key's
    entry then holds the loaded value with no expiry (the loader path sets
    no TTL) and keeps its registered loader; the promise every joined
    caller holds is fulfilled with the value; ["update"] and
    ["update:<key>"] are emitted, in this order, with the previous value. *)
Theorem load_success_sets_value s p key l v :
  wf s -> tasks s !! p = Some (TLoad key l) ->
  let s' := settle_load p key l (Fulfilled v) s in
  let old := default JUndefined (value <$> data_get key s) in
  value <$> data_get key s' = Some v /\
  expiresAt <$> data_get key s' = Some None /\
  data_get key s' ≫= loader = data_get key s ≫= loader /\
  reply_outcome (RPromise p) s' = Some (Fulfilled v) /\
  trace s' = trace s ++ [ObsEmit (EvUpdate key v old); ObsEmit (EvUpdateKey key v old)].
Proof.
  intros Hwf Hp s' old.
  destruct (wf_load_task s Hwf _ _ _ Hp) as (_ & e & He & _).
  assert (Hget : data_get key s' =
            Some (mkEntry v (loader (default empty_entry (data_get key s))) None
                    (loading (default empty_entry (data_get key s)))
                    (refreshInterval (default empty_entry (data_get key s))))).
  { subst s'. unfold data_get at 1. rewrite settle_load_fetch. cbn [load_result].
    by rewrite (fetch_clear_loading_set s key v l e). }
  rewrite Hget. split_and!; [done|done|by destruct (data_get key s)| |].
  - subst s'. unfold settle_load; simpl. by rewrite lookup_insert_eq.
  - subst s' old. unfold settle_load, clear_loading; simpl.
    case_match; simpl; by rewrite <-app_assoc.
Qed.

(** ** A concrete run: [setLoader("price", L)] then [get("price")] *)

Definition price_loader : Loader := LoaderFn 1.

Definition price_registered : Store :=
  run_call (CallSetLoader "price" price_loader None) (init 0).

Definition price_loading : Store :=
  run_call (CallGet "price" None Returns) price_registered.

Lemma price_loading_reachable : reachable price_loading.
Proof.
  exists 0%Z. eapply rtc_l; [apply (StepCall (CallSetLoader "price" price_loader None))|].
  eapply rtc_l; [apply (StepCall (CallGet "price" None Returns))|]. apply rtc_refl.
Qed.

Lemma price_registered_wf : wf price_registered.
Proof. apply wfb_spec. vm_compute. reflexivity. Qed.

Lemma price_loading_wf : wf price_loading.
Proof. apply wfb_spec. vm_compute. reflexivity. Qed.

Lemma get_dedup_witness :
  gets "price" [(None, Returns); (Some (LoaderFn 2), ThrowsSync JNull)] price_loading =
    (replicate 2 (RPromise 1), price_loading).
Proof.
  apply (get_dedup "price" None Returns [(None, Returns); (Some (LoaderFn 2), ThrowsSync JNull)]
           price_registered 1 price_loading);
    [apply price_registered_wf|reflexivity].
Defined.

Lemma get_single_call_witness :
  exists p, fst (gets "price" [(None, Returns); (None, Returns); (None, Returns)] price_registered)
              = replicate 3 (RPromise p) /\
    trace (snd (gets "price" [(None, Returns); (None, Returns); (None, Returns)] price_registered))
      = trace price_registered ++ [ObsCall "price" price_loader] /\
    promises (snd (gets "price" [(None, Returns); (None, Returns); (None, Returns)] price_registered))
      !! p = Some Pending.
Proof.
  apply (get_single_call "price" None price_loader [(None, Returns); (None, Returns)]).
  - apply price_registered_wf.
  - right. do 2 eexists. split_and!; reflexivity.
  - reflexivity.
  - apply surjective_pairing.
Defined.

Lemma joined_callers_agree_witness :
  reply_outcome (RPromise 1) (settle_load 1 "price" 0 (Fulfilled (JNum 100)) price_loading)
    = Some (Fulfilled (JNum 100)).
Proof.
  apply (joined_callers_agree price_loading 1 "price" 0).
  - apply price_loading_reachable.
  - vm_compute. reflexivity.
  - apply rtc_refl.
Defined.

Lemma inflight_unique_witness : tasks price_loading !! 1 = Some (TLoad "price" 0) /\ 1 = 1.
Proof.
  split; [vm_compute; reflexivity|].
  apply (inflight_unique price_loading 1 1 "price" "price" 0);
    [apply price_loading_reachable|vm_compute; reflexivity..].
Defined.

Lemma failed_load_keeps_values_witness :
  (value <$> data_get "price" (settle_load 1 "price" 0 (Rejected (JError "down")) price_loading))
    = (value <$> data_get "price" price_loading) /\
  (expiresAt <$> data_get "price" (settle_load 1 "price" 0 (Rejected (JError "down")) price_loading))
    = (expiresAt <$> data_get "price" price_loading) /\
  reply_outcome (RPromise 1) (settle_load 1 "price" 0 (Rejected (JError "down")) price_loading)
    = Some (Rejected (JError "down")) /\
  trace (settle_load 1 "price" 0 (Rejected (JError "down")) price_loading) = trace price_loading.
Proof.
  apply failed_load_keeps_values;
    [apply price_loading_wf|vm_compute; reflexivity].
Defined.

Lemma load_success_sets_value_witness :
  value <$> data_get "price" (settle_load 1 "price" 0 (Fulfilled (JNum 100)) price_loading)
    = Some (JNum 100).
Proof.
  apply (load_success_sets_value price_loading 1 "price" 0 (JNum 100));
    [apply price_loading_wf|vm_compute; reflexivity].
Defined.
