(* ===== verification/EventLoop.v ===== *)
(** * The callbacks of the event loop drain

    Between two calls of a caller, Node runs the callbacks whose loader
    promise has settled: the [.then]/[.catch] chain of a load of [get]
    ([settle_load]) and the rest of a [refresh] after its [await]
    ([settle_refresh]).  [callback_step] is that part of [Runtime.step].
    Each callback removes its own task and creates none (the body of
    [refresh] calls [set], which starts no load), so the number of
    pending tasks is a measure that decreases: any run of callbacks is
    finite, and however the loaders settle, the callbacks can all run
    until no task is left.  The timers are what keeps the program going:
    [fire] starts a new refresh task and is not a callback of this kind. *)

From S2P Require Import Prelude JsValue Store StoreWf Runtime.

Inductive callback_step : Store -> Store -> Prop :=
| CbLoad p key l o s :
    tasks s !! p = Some (TLoad key l) -> callback_step s (settle_load p key l o s)
| CbRefresh i key fn o s :
    tasks s !! i = Some (TRefresh key fn) -> callback_step s (settle_refresh i key o s).


Lemma tasks_load_result key o s : tasks (load_result key o s) = tasks s.
Proof. by destruct o. Qed.

Lemma tasks_clear_loading l s : tasks (clear_loading l s) = tasks s.
Proof. unfold clear_loading. by case_match. Qed.

(** A callback removes its own task, and nothing else of the task table. *)
Lemma callback_tasks s s' :
  callback_step s s' -> exists p, is_Some (tasks s !! p) /\ tasks s' = base.delete p (tasks s).
Proof.
  intros [p key l o s0 Hp|i key fn o s0 Hi].
  - exists p. split; [by eexists|]. unfold settle_load. simpl.
    by rewrite tasks_clear_loading, tasks_load_result.
  - exists i. split; [by eexists|]. unfold settle_refresh. by destruct o.
Qed.

Lemma callback_size s s' : callback_step s s' -> size (tasks s') < size (tasks s).
Proof.
  intros Hs. destruct (callback_tasks s s' Hs) as (p & Hp & ->).
  rewrite map_size_delete_Some by done.
  assert (size (tasks s) <> 0).
  { apply map_size_non_empty_iff. intros He. rewrite He, lookup_empty in Hp. by destruct Hp. }
  lia.
Qed.

Lemma callback_nsteps n s s' : nsteps callback_step n s s' -> n + size (tasks s') <= size (tasks s).
Proof. induction 1 as [|n x y z Hxy _ IH]; [lia|]. pose proof (callback_size x y Hxy). lia. Qed.

(** C37. The callbacks terminate: there is no infinite run of callbacks,
    and a run from a state with [n] pending tasks has at most [n] steps --
    each callback consumes its task and starts none. *)
Theorem callbacks_terminate :
  well_founded (fun s' s => callback_step s s') /\
  forall n s s', nsteps callback_step n s s' -> n <= size (tasks s).
Proof.
  split.
  - apply (well_founded_lt_compat _ (fun s => size (tasks s))). intros s' s. apply callback_size.
  - intros n s s' Hn. pose proof (callback_nsteps n s s' Hn). lia.
Qed.








