(* ===== verification/StoreProps.v ===== *)
(** * Behaviour of the methods of [Store] against the specification

    Functional theorems per method of [src/src/Store.ts]: what [get]
    returns before and after a TTL runs out and what the purge of an
    expired entry removes, that a [set] without TTL persists, which loader
    [get] calls, what [query] and [delete] do, and how [setLoader] and
    [setAutoRefresh] install and cancel [setInterval] timers.  Several of
    these theorems pin down behaviour that differs from the specification
    of the cache ([spec.md]): a TTL of 0, reads of expired arrays, timers
    that survive, loads that resurrect or stick. *)

From S2P Require Import Prelude JsValue Store StoreWf StoreWfDec Runtime.

Lemma get_cached key ldr inv s l e v :
  fetch key s = Some (l, e) -> isExpired e s = false -> value e = v -> v <> JUndefined ->
  get key ldr inv s = (RValue v, s).
Proof.
  intros Hf Hx <- Hv. unfold get. rewrite Hf, Hx; simpl.
  destruct (is_undefined (value e)) eqn:Hu; [|done]. by apply is_undefined_spec in Hu.
Qed.

Lemma fetch_settle_success s p key l v :
  wf s -> tasks s !! p = Some (TLoad key l) ->
  fetch key (settle_load p key l (Fulfilled v) s) =
    Some (next_ref s, mkEntry v (loader (default empty_entry (data_get key s))) None
                        (loading (default empty_entry (data_get key s)))
                        (refreshInterval (default empty_entry (data_get key s)))).
Proof.
  intros Hwf Hp. destruct (wf_load_task s Hwf _ _ _ Hp) as (_ & e & He & _).
  rewrite settle_load_fetch. by apply fetch_clear_loading_set with e.
Qed.

Lemma fetch_advance k d s : fetch k (advance d s) = fetch k s.
Proof. done. Qed.

(** The entry [set] writes, read back [d] ms later. *)
Lemma isExpired_after_set key v ttl s d :
  isExpired (mkEntry v (loader (default empty_entry (data_get key s))) (expiry_of (now s) ttl)
               (loading (default empty_entry (data_get key s)))
               (refreshInterval (default empty_entry (data_get key s))))
            (advance d (set key v ttl s)) =
  isExpired (mkEntry JUndefined None (expiry_of (now s) ttl) None None) (advance d s).
Proof. done. Qed.

(** C7. TTL: a value stored with [set(key, v, ttl)] is returned by [get]
    as long as no more than [ttl] ms have passed -- including at the very
    instant [Date.now() = expiresAt], since [isExpired] compares with a
    strict [>]. *)
Theorem get_before_expiry key v ttl d ldr inv s :
  wf s -> v <> JUndefined -> (0 <= d <= ttl)%Z ->
  let s' := advance d (set key v (Some ttl) s) in
  get key ldr inv s' = (RValue v, s').
Proof.
  intros Hwf Hv Hd s'. subst s'.
  eapply get_cached; [rewrite fetch_advance; by apply fetch_set_self| |done|].
  - rewrite isExpired_after_set. unfold isExpired. simpl. destruct (num_truthy ttl); [|done].
    apply Z.ltb_ge. lia.
  - done.
Qed.

(** C8. Expiry purges the whole entry.  Once more than [ttl] ms have
    passed since [set(key, v, ttl)], [get(key)] without a loader deletes
    the entry (emitting ["delete"]), re-creates an empty one and fails with
    [NoLoaderAvailable(key)] -- whatever loader [setLoader] had registered
    on the key: the purge drops it with the value. *)
Theorem get_after_expiry_purges key v ttl d inv s :
  wf s -> ttl <> 0%Z -> (ttl < d)%Z ->
  let s' := advance d (set key v (Some ttl) s) in
  fst (get key None inv s') = RThrow (no_loader_error key) /\
  data_get key (snd (get key None inv s')) = Some empty_entry /\
  trace (snd (get key None inv s')) = trace s' ++ [ObsEmit (EvDelete key)].
Proof.
  intros Hwf Hz Hd s'.
  assert (Hwf' : wf s') by (subst s'; eauto with minimarket).
  assert (Hf : fetch key s' = fetch key (set key v (Some ttl) s)) by done.
  rewrite fetch_set_self in Hf by done.
  assert (Hx : isExpired (mkEntry v (loader (default empty_entry (data_get key s)))
                   (expiry_of (now s) (Some ttl)) (loading (default empty_entry (data_get key s)))
                   (refreshInterval (default empty_entry (data_get key s)))) s' = true).
  { subst s'. rewrite isExpired_after_set. unfold isExpired, expiry_of, num_truthy.
    rewrite (proj2 (Z.eqb_neq ttl 0) Hz). simpl. apply Z.ltb_lt. lia. }
  unfold get. rewrite Hf, Hx. cbv beta iota zeta delta [get_from empty_entry loading loader nullish].
  apply fetch_Some in Hf as [Hk _].
  cbn [fst snd]. split_and!; [done| |].
  - rewrite data_get_data_set by (by apply wf_delete). by case_decide.
  - by apply (delete_present key s' (next_ref s)).
Qed.

Lemma get_after_set_no_expiry key v ttl d ldr inv s :
  wf s -> v <> JUndefined -> expiry_of (now s) ttl = None ->
  let s' := advance d (set key v ttl s) in
  get key ldr inv s' = (RValue v, s').
Proof.
  intros Hwf Hv He s'. subst s'.
  eapply get_cached; [rewrite fetch_advance; by apply fetch_set_self| |done|done].
  rewrite isExpired_after_set. unfold isExpired. by rewrite He.
Qed.

(** No-TTL persistence: a value stored by [set(key, v)] without TTL is
    returned by [get] however much time passes. *)
Theorem set_no_ttl_persists key v d ldr inv s :
  wf s -> v <> JUndefined ->
  let s' := advance d (set key v None s) in
  get key ldr inv s' = (RValue v, s').
Proof. intros Hwf Hv. by apply get_after_set_no_expiry. Qed.

(** C9. A TTL of 0 means no expiry: [ttlMs ? .. : undefined] treats the
    falsy [0] as an absent TTL, so [set(key, v, 0)] is never purged. *)
Theorem set_ttl_zero_persists key v d ldr inv s :
  wf s -> v <> JUndefined ->
  let s' := advance d (set key v (Some 0%Z) s) in
  get key ldr inv s' = (RValue v, s').
Proof. intros Hwf Hv. by apply get_after_set_no_expiry. Qed.

Lemma get_unpopulated key ldr inv s :
  unpopulated key s ->
  exists l e s0, get key ldr inv s = get_from key ldr inv l e s0 /\
    heap s0 !! l = Some e /\ loading e = None /\ trace s0 = trace s /\
    promises s0 = promises s /\ ldr ?? loader e = resolve_loader key ldr s.
Proof.
  unfold resolve_loader, data_get. intros [Hf | (l & e & Hf & Hx & Hv & Hl)].
  - unfold get. rewrite Hf. do 3 eexists. split; [reflexivity|]. simpl.
    split_and!; [by rewrite lookup_insert_eq|done|done|done|by destruct ldr].
  - unfold get. rewrite Hf, Hx, Hv. simpl. do 3 eexists. split; [reflexivity|].
    apply fetch_Some in Hf as [_ He]. done.
Qed.

(** C10. Loader precedence: on a key with no value and no load in flight,
    [get(key, fn)] calls [fn] -- not the loader registered with
    [setLoader] -- and nothing else. *)
Theorem get_explicit_loader_precedence key fn inv s :
  unpopulated key s ->
  trace (snd (get key (Some fn) inv s)) = trace s ++ [ObsCall key fn].
Proof.
  intros Hu. destruct (get_unpopulated key (Some fn) inv s Hu)
    as (l & e & s0 & -> & He & Hl & Ht & _ & _).
  unfold get_from, start_load. rewrite Hl. simpl. rewrite <- Ht. by destruct inv.
Qed.

(** C11. No loader, no load: when neither an explicit nor a registered
    loader exists, [get(key)] fails with [NoLoaderAvailable(key)], calls
    nothing and creates no promise. *)
Theorem get_no_loader_fails key inv s :
  unpopulated key s -> resolve_loader key None s = None ->
  fst (get key None inv s) = RThrow (no_loader_error key) /\
  trace (snd (get key None inv s)) = trace s /\
  promises (snd (get key None inv s)) = promises s.
Proof.
  intros Hu Hr. destruct (get_unpopulated key None inv s Hu)
    as (l & e & s0 & -> & He & Hl & Ht & Hp & Hres).
  unfold get_from. rewrite Hl, Hres, Hr. done.
Qed.

(** C12. [query]: whatever the TTL and however much later, [query(key,
    fn)] after [set(key, v, ttl)] filters the elements of [v] when [v] is
    an array and is [[]] otherwise -- [query] never checks [isExpired], so
    an expired array is still returned. *)
Theorem query_after_set key fn v ttl d s :
  wf s -> query key fn (advance d (set key v ttl s)) = array_filter fn v.
Proof.
  intros Hwf. unfold query. change (data_get key (advance d ?x)) with (data_get key x).
  rewrite data_get_set by done. by rewrite decide_True.
Qed.

(** C13. [delete]: on an absent key it changes nothing and emits nothing;
    on a present key it removes the entry, clears the key's refresh timer,
    leaves the other keys alone and emits ["delete"] once. *)
Theorem delete_spec key s :
  wf s ->
  (data s !! key = None -> delete key s = s) /\
  (forall l, data s !! key = Some l ->
     data_get key (delete key s) = None /\
     (forall k, k <> key -> data_get k (delete key s) = data_get k s) /\
     trace (delete key s) = trace s ++ [ObsEmit (EvDelete key)] /\
     forall t, data_get key s ≫= refreshInterval = Some t -> intervals (delete key s) !! t = None).
Proof.
  intros Hwf. split; [apply delete_absent|]. intros l Hk.
  destruct (delete_present key s l Hk) as (Hd & Ht & Hi).
  pose proof (delete_frame key s) as (Hh & _).
  split_and!.
  - unfold data_get, fetch. rewrite Hd. by rewrite lookup_delete_eq.
  - intros k Hne. unfold data_get, fetch. rewrite Hd, Hh. by rewrite lookup_delete_ne.
  - done.
  - intros t Ht'. rewrite Hi, Ht'. by rewrite lookup_delete_eq.
Qed.

(** ** Timers of [setLoader] and [setAutoRefresh] *)

Lemma setAutoRefresh_spec key fn ms s :
  wf s ->
  data_get key (setAutoRefresh key fn ms s) =
    Some (mkEntry (value (default empty_entry (data_get key s))) (Some fn)
            (expiresAt (default empty_entry (data_get key s)))
            (loading (default empty_entry (data_get key s))) (Some (S (next_ref s)))) /\
  (forall k, k <> key -> data_get k (setAutoRefresh key fn ms s) = data_get k s) /\
  intervals (setAutoRefresh key fn ms s) =
    <[S (next_ref s) := mkInterval key fn (interval_delay ms) (now s + interval_delay ms)%Z]>
      (intervals s) /\
  trace (setAutoRefresh key fn ms s) = trace s ++ [ObsCall key fn].
Proof.
  intros Hwf.
  pose proof (wf_setInterval key fn ms (refresh key fn s) (wf_refresh _ _ _ Hwf)) as H.
  unfold setAutoRefresh, setInterval in *. simpl in *.
  split_and!; [| |done|done].
  - rewrite data_get_data_set by done. by rewrite decide_True.
  - intros k Hne. rewrite data_get_data_set by done. by rewrite decide_False.
Qed.

(** C14. Timer supersession by [setLoader]: [setLoader(key, fn, ms)] with
    a truthy [ms] cancels the timer the key's entry held, and leaves the
    entry with [fn] as its loader and a live timer that refreshes [key]
    with [fn]. *)
Theorem setLoader_replaces_timer key fn ms s :
  wf s -> num_truthy ms = true ->
  let s' := setLoader key fn (Some ms) s in
  (forall t, data_get key s ≫= refreshInterval = Some t -> intervals s' !! t = None) /\
  exists t iv, data_get key s' ≫= refreshInterval = Some t /\ intervals s' !! t = Some iv /\
    iv_key iv = key /\ iv_loader iv = fn /\ data_get key s' ≫= loader = Some fn.
Proof.
  intros Hwf Hms s'. subst s'. pose proof (wf_setLoader_entry key fn s Hwf) as Hs2.
  unfold setLoader. rewrite Hms. cbv zeta in Hs2.
  pose proof (entry_below_base key s Hwf) as [_ Hb].
  destruct (data_get key s) as [e|] eqn:Hd; cbn [default id] in *;
    destruct (setAutoRefresh_spec key fn ms _ Hs2) as (Hget & _ & Hiv & _); rewrite Hget;
    (split; [|do 2 eexists; split_and!; [done|by rewrite Hiv, lookup_insert_eq|done..]]); [|done].
  intros t Ht. simpl in Ht. rewrite Hiv. specialize (Hb t Ht). unfold clearInterval. rewrite Ht.
  simpl. rewrite lookup_insert_ne by lia. by rewrite lookup_delete_eq.
Qed.

Lemma next_ref_setAutoRefresh key fn ms s :
  next_ref (setAutoRefresh key fn ms s) = S (S (S (next_ref s))).
Proof. done. Qed.

Lemma data_get_key_Some key s e : data_get key s = Some e -> exists l, data s !! key = Some l.
Proof.
  unfold data_get. destruct (fetch key s) as [[l e']|] eqn:Hf; [|done].
  apply fetch_Some in Hf as [Hk _]. eauto.
Qed.

(** C15. [setAutoRefresh] does not cancel the timer it replaces.  After
    [setAutoRefresh] is called twice on a key and the key is deleted, the
    first timer is still live: it is referenced by no entry, [delete] could
    not clear it, and it goes on refreshing the deleted key with the first
    loader. *)
Theorem orphan_timer_survives_delete key fn1 fn2 ms1 ms2 s :
  wf s ->
  exists t iv,
    intervals (delete key (setAutoRefresh key fn2 ms2 (setAutoRefresh key fn1 ms1 s))) !! t
      = Some iv /\ iv_key iv = key /\ iv_loader iv = fn1.
Proof.
  intros Hwf. pose proof (wf_setAutoRefresh key fn1 ms1 s Hwf) as Hw1.
  destruct (setAutoRefresh_spec key fn1 ms1 s Hwf) as (_ & _ & Hi1 & _).
  destruct (setAutoRefresh_spec key fn2 ms2 _ Hw1) as (Hg2 & _ & Hi2 & _).
  destruct (data_get_key_Some _ _ _ Hg2) as [l Hk].
  destruct (delete_present _ _ l Hk) as (_ & _ & Hid).
  eexists (S (next_ref s)), _. rewrite Hid, Hg2. cbn [mbind option_bind refreshInterval].
  rewrite lookup_delete_ne by (rewrite ?next_ref_setAutoRefresh; cbn; lia).
  rewrite Hi2, lookup_insert_ne by (rewrite ?next_ref_setAutoRefresh; cbn; lia).
  rewrite Hi1, lookup_insert_eq. done.
Qed.

(** ** Loads that outlive their entry *)

(** C16. A [delete] does not cancel a load in flight.  If [get] started a
    load of [key] and [key] is then deleted, the load's success still runs
    [this.set(key, value)]: the deleted key comes back with the loaded
    value. *)
Theorem load_after_delete_resurrects s p key l v :
  wf s -> tasks s !! p = Some (TLoad key l) ->
  value <$> data_get key (settle_load p key l (Fulfilled v) (delete key s)) = Some v.
Proof.
  intros Hwf Hp. pose proof (delete_frame key s) as (_ & _ & Ht & _).
  unfold data_get. rewrite fetch_settle_success; [done|by apply wf_delete|by rewrite Ht].
Qed.

(** C17. A load that resolves to [undefined] is never retried.  When the
    load of [get] settles with [undefined] while the key's entry is still
    the object the load captured, [set] copies the promise into the new
    entry's [loading] (the spread keeps it) and [entry!.loading =
    undefined] clears only the discarded object: from then on every [get]
    on the key returns the settled promise and calls no loader. *)
Theorem undefined_load_never_reloads s p key l calls :
  wf s -> tasks s !! p = Some (TLoad key l) -> data s !! key = Some l ->
  let s' := settle_load p key l (Fulfilled JUndefined) s in
  gets key calls s' = (replicate (length calls) (RPromise p), s') /\
  reply_outcome (RPromise p) s' = Some (Fulfilled JUndefined).
Proof.
  intros Hwf Hp Hk s'.
  destruct (wf_load_task s Hwf _ _ _ Hp) as (_ & e & He & Hel).
  assert (Hd : data_get key s = Some e) by (unfold data_get; rewrite (proj2 (fetch_Some key s l e) (conj Hk He)); done).
  split.
  - apply gets_joinable. eexists _, _. split_and!.
    + subst s'. rewrite fetch_settle_success by done. reflexivity.
    + done.
    + done.
    + by rewrite Hd.
  - subst s'. unfold settle_load; simpl. by rewrite lookup_insert_eq.
Qed.

Lemma fetch_delete_self key s : fetch key (delete key s) = None.
Proof.
  destruct (data s !! key) as [l|] eqn:Hk.
  - destruct (delete_present key s l Hk) as (Hd & _). unfold fetch. by rewrite Hd, lookup_delete_eq.
  - rewrite delete_absent by done. unfold fetch. by rewrite Hk.
Qed.

(** C18. Two loads of one key can be in flight.  While a load of [key] is
    pending, [delete(key)] followed by [get(key, fn)] starts a second load
    with a new promise; the first stays pending.  The specification's "at
    most one in-flight load per key" holds per entry object
    ([inflight_unique]), not per key. *)
Theorem second_load_after_delete s p key l fn :
  wf s -> tasks s !! p = Some (TLoad key l) ->
  exists q s2, get key (Some fn) Returns (delete key s) = (RPromise q, s2) /\ q <> p /\
    tasks s2 !! p = Some (TLoad key l) /\ promises s2 !! q = Some Pending /\
    promises s2 !! p = Some Pending.
Proof.
  intros Hwf Hp. pose proof (delete_frame key s) as (_ & Hdp & Hdt & Hdn & _).
  destruct (wf_load_task s Hwf _ _ _ Hp) as (Hpp & _).
  pose proof (below_lt _ _ _ _ (wf_tasks_below s Hwf) Hp) as Hlt.
  unfold get. rewrite fetch_delete_self. cbn.
  eexists _, _. split; [reflexivity|]. cbn. rewrite Hdn.
  split_and!; [lia| | |].
  - rewrite lookup_insert_ne by lia. by rewrite Hdt.
  - by rewrite lookup_insert_eq.
  - rewrite lookup_insert_ne by lia. by rewrite Hdp.
Qed.

(** C19. A failure can stick for good.  If [setLoader(key, fn)] runs while
    a load of [key] is in flight, the new entry is a spread copy that keeps
    the load's promise in [loading]; when the load then fails, the
    [.catch] clears [loading] on the old object only.  From then on every
    [get] on the key returns the rejected promise -- whatever loader it is
    given -- and no loader is ever called again, contrary to "the in-flight
    handle is cleared after each attempt regardless of outcome". *)
Theorem rejected_load_sticks s p key l e fn err calls :
  wf s -> tasks s !! p = Some (TLoad key l) -> data s !! key = Some l ->
  heap s !! l = Some e -> value e = JUndefined -> isExpired e s = false ->
  let s2 := settle_load p key l (Rejected err) (setLoader key fn None s) in
  gets key calls s2 = (replicate (length calls) (RPromise p), s2) /\
  reply_outcome (RPromise p) s2 = Some (Rejected err).
Proof.
  intros Hwf Hp Hk He Hv Hx s2.
  destruct (wf_load_task s Hwf _ _ _ Hp) as (_ & e' & He' & Hel). rewrite He in He'.
  injection He' as <-.
  assert (Hd : data_get key s = Some e)
    by (unfold data_get; rewrite (proj2 (fetch_Some key s l e) (conj Hk He)); done).
  assert (Hne : next_ref s <> l)
    by (pose proof (below_ne _ _ _ _ (wf_heap_below s Hwf) He); congruence).
  set (s1 := clearInterval (refreshInterval e) s).
  assert (Hs1 : data s1 = data s /\ heap s1 = heap s /\ next_ref s1 = next_ref s /\ now s1 = now s)
    by (subst s1; unfold clearInterval; by destruct (refreshInterval e)).
  destruct Hs1 as (Hd1 & Hh1 & Hn1 & Hnow1).
  assert (Hset : setLoader key fn None s =
    data_set key (mkEntry (value e) (Some fn) (expiresAt e) (loading e) (refreshInterval e)) s1)
    by (unfold setLoader; by rewrite Hd).
  split.
  - apply gets_joinable. exists (next_ref s),
      (mkEntry (value e) (Some fn) (expiresAt e) (loading e) (refreshInterval e)).
    assert (Hnow2 : now s2 = now s).
    { subst s2. rewrite Hset. unfold settle_load, clear_loading.
      case_match; exact Hnow1. }
    split_and!; [|unfold isExpired in *; cbn [expiresAt]; by rewrite Hnow2|done|done].
    subst s2. change (fetch key (settle_load p key l (Rejected err) ?x))
      with (fetch key (clear_loading l x)).
    rewrite Hset. unfold clear_loading. cbn. rewrite Hh1, lookup_insert_ne, He by congruence.
    rewrite fetch_write_obj. cbn. rewrite lookup_insert_eq, decide_False by congruence.
    unfold fetch. cbn. rewrite lookup_insert_eq. cbn. rewrite Hn1, lookup_insert_eq. done.
  - subst s2. unfold settle_load; simpl. by rewrite lookup_insert_eq.
Qed.

(** ** Refresh timers *)

(** C20. A refresh tick: a due timer of [setAutoRefresh(key, fn, ms)]
    calls [fn] once, is due again one delay later, and holds a pending
    [refresh]; when [fn]'s promise fulfils with [v], [this.set(key, v)]
    stores [v] with no expiry, the other keys are untouched and the timer
    stays scheduled -- the refresh loop of the source, one period. *)
Theorem refresh_tick_stores s t key fn d due v :
  wf s -> intervals s !! t = Some (mkInterval key fn d due) -> (due <= now s)%Z ->
  exists s1 i, fire t s = Some s1 /\ tasks s1 !! i = Some (TRefresh key fn) /\
    trace s1 = trace s ++ [ObsCall key fn] /\
    intervals s1 !! t = Some (mkInterval key fn d (due + d)) /\
    let s2 := settle_refresh i key (Fulfilled v) s1 in
    (value <$> data_get key s2) = Some v /\ (expiresAt <$> data_get key s2) = Some None /\
    (forall k, k <> key -> data_get k s2 = data_get k s) /\
    intervals s2 !! t = Some (mkInterval key fn d (due + d)).
Proof.
  intros Hwf Ht Hdue. unfold fire. rewrite Ht. simpl. rewrite (proj2 (Z.leb_le _ _) Hdue).
  set (s0 := upd_intervals _ s).
  assert (Hw1 : wf (refresh key fn s0)).
  { apply (wf_fire t s). done. unfold fire. rewrite Ht. simpl. by rewrite (proj2 (Z.leb_le _ _) Hdue). }
  assert (Hi : tasks (refresh key fn s0) !! next_ref s0 = Some (TRefresh key fn))
    by (simpl; by rewrite lookup_insert_eq).
  pose proof (wf_drop_refresh _ _ _ _ Hw1 Hi) as Hw2.
  do 2 eexists. split_and!; [reflexivity|exact Hi|done|simpl; by rewrite lookup_insert_eq|..];
    unfold settle_refresh; rewrite ?data_get_set by done.
  - by rewrite decide_True.
  - by rewrite decide_True.
  - intros k Hk. rewrite data_get_set, decide_False by done.
    reflexivity.
  - simpl. by rewrite lookup_insert_eq.
Qed.

Lemma interval_delay_spec ms :
  (1 <= interval_delay ms <= 2147483647)%Z /\
  ((1 <= ms <= 2147483647)%Z -> interval_delay ms = ms).
Proof.
  unfold interval_delay. destruct (1 <=? ms)%Z eqn:H1, (ms <=? 2147483647)%Z eqn:H2; simpl;
    rewrite ?Z.leb_le, ?Z.leb_gt in *; lia.
Qed.

(** C21. Delay of the refresh timer: the timer [setAutoRefresh(key, fn,
    ms)] installs and records in the key's entry has a delay between 1 and
    2^31-1 ms, equal to [ms] when [ms] is in that range (Node clamps any
    other value, [0] and negative ones included, to 1 ms). *)
Theorem setAutoRefresh_delay_bounds key fn ms s :
  wf s ->
  exists iv, intervals (setAutoRefresh key fn ms s) !! S (next_ref s) = Some iv /\
    iv_key iv = key /\ iv_loader iv = fn /\
    (1 <= iv_delay iv <= 2147483647)%Z /\
    ((1 <= ms <= 2147483647)%Z -> iv_delay iv = ms) /\
    data_get key (setAutoRefresh key fn ms s) ≫= refreshInterval = Some (S (next_ref s)).
Proof.
  intros Hwf. destruct (setAutoRefresh_spec key fn ms s Hwf) as (Hg & _ & Hi & _).
  eexists. rewrite Hi, lookup_insert_eq, Hg. split_and!; try done; apply interval_delay_spec.
Qed.

(** C33. [delete] stops the auto-refresh it follows: [setAutoRefresh]
    followed by [delete] leaves the timers exactly as they were before --
    the timer [setAutoRefresh] installed is cleared, so it never fires,
    however much time passes (a timer the key held before is neither
    cleared nor created: see C16). *)
Theorem delete_stops_auto_refresh key fn ms s :
  wf s ->
  let s' := delete key (setAutoRefresh key fn ms s) in
  intervals s' = intervals s /\ forall d, fire (S (next_ref s)) (advance d s') = None.
Proof.
  intros Hwf s'.
  destruct (setAutoRefresh_spec key fn ms s Hwf) as (Hget & _ & Hiv & _).
  destruct (data_get_key_Some _ _ _ Hget) as [l Hl].
  destruct (delete_present key _ l Hl) as (_ & _ & Hi).
  assert (Hfresh : intervals s !! S (next_ref s) = None).
  { apply map_below_fresh. eapply map_below_mono; [apply (wf_intervals_below s Hwf)|lia]. }
  assert (Hs' : intervals s' = intervals s).
  { subst s'. rewrite Hi, Hget. cbn [mbind option_bind refreshInterval]. rewrite Hiv, delete_insert_eq. by apply delete_id. }
  split; [done|]. intros d. unfold fire. simpl. by rewrite Hs', Hfresh.
Qed.

(** ** Witnesses on concrete runs *)

Lemma get_before_expiry_witness :
  get "x" None Returns (advance 50 (set "x" (JNum 5) (Some 50%Z) (init 0))) =
    (RValue (JNum 5), advance 50 (set "x" (JNum 5) (Some 50%Z) (init 0))).
Proof. apply (get_before_expiry "x" (JNum 5) 50 50); [apply wf_init|discriminate|lia]. Defined.

Lemma get_after_expiry_purges_witness :
  fst (get "price" None Returns (advance 60 (set "price" (JNum 5) (Some 50%Z) price_registered)))
    = RThrow (no_loader_error "price").
Proof.
  apply (get_after_expiry_purges "price" (JNum 5) 50 60 Returns price_registered);
    [apply price_registered_wf|discriminate|lia].
Defined.

Lemma set_no_ttl_persists_witness :
  get "x" None Returns (advance 100000 (set "x" (JNum 5) None (init 0))) =
    (RValue (JNum 5), advance 100000 (set "x" (JNum 5) None (init 0))).
Proof. apply set_no_ttl_persists; [apply wf_init|discriminate]. Defined.

Lemma set_ttl_zero_persists_witness :
  get "x" None Returns (advance 100000 (set "x" (JNum 5) (Some 0%Z) (init 0))) =
    (RValue (JNum 5), advance 100000 (set "x" (JNum 5) (Some 0%Z) (init 0))).
Proof. apply set_ttl_zero_persists; [apply wf_init|discriminate]. Defined.

Lemma get_explicit_loader_precedence_witness :
  trace (snd (get "price" (Some (LoaderFn 8)) Returns price_registered)) =
    trace price_registered ++ [ObsCall "price" (LoaderFn 8)].
Proof.
  apply get_explicit_loader_precedence. right. do 2 eexists. split_and!; reflexivity.
Defined.

Lemma get_no_loader_fails_witness :
  fst (get "x" None Returns (init 0)) = RThrow (no_loader_error "x").
Proof. apply (get_no_loader_fails "x" Returns (init 0)); [left; reflexivity|reflexivity]. Defined.

Lemma query_after_set_witness :
  query "l" (fun v => match v with JNum n => (2 <? n)%Z | _ => false end)
    (advance 60 (set "l" (JArray [JNum 1; JNum 2; JNum 3; JNum 4]) (Some 50%Z) (init 0)))
  = array_filter (fun v => match v with JNum n => (2 <? n)%Z | _ => false end)
      (JArray [JNum 1; JNum 2; JNum 3; JNum 4]).
Proof. apply query_after_set, wf_init. Defined.

Lemma delete_spec_witness :
  delete "x" (init 0) = init 0.
Proof. apply (delete_spec "x" (init 0) (wf_init 0)). reflexivity. Defined.

Lemma setLoader_replaces_timer_witness :
  exists t iv, data_get "k" (setLoader "k" (LoaderFn 2) (Some 100%Z)
                               (setAutoRefresh "k" (LoaderFn 1) 50 (init 0))) ≫= refreshInterval = Some t /\
    intervals (setLoader "k" (LoaderFn 2) (Some 100%Z) (setAutoRefresh "k" (LoaderFn 1) 50 (init 0)))
      !! t = Some iv /\ iv_key iv = "k" /\ iv_loader iv = LoaderFn 2 /\
    data_get "k" (setLoader "k" (LoaderFn 2) (Some 100%Z)
                    (setAutoRefresh "k" (LoaderFn 1) 50 (init 0))) ≫= loader = Some (LoaderFn 2).
Proof.
  apply (setLoader_replaces_timer "k" (LoaderFn 2) 100 (setAutoRefresh "k" (LoaderFn 1) 50 (init 0)));
    [apply wf_setAutoRefresh, wf_init|reflexivity].
Defined.

Lemma orphan_timer_survives_delete_witness :
  exists t iv,
    intervals (delete "k" (setAutoRefresh "k" (LoaderFn 2) 50 (setAutoRefresh "k" (LoaderFn 1) 50 (init 0))))
      !! t = Some iv /\ iv_key iv = "k" /\ iv_loader iv = LoaderFn 1.
Proof. apply orphan_timer_survives_delete, wf_init. Defined.

Lemma load_after_delete_resurrects_witness :
  value <$> data_get "price" (settle_load 1 "price" 0 (Fulfilled (JNum 100)) (delete "price" price_loading))
    = Some (JNum 100).
Proof.
  apply load_after_delete_resurrects; [apply price_loading_wf|reflexivity].
Defined.

Lemma undefined_load_never_reloads_witness :
  gets "price" [(None, Returns)] (settle_load 1 "price" 0 (Fulfilled JUndefined) price_loading) =
    (replicate 1 (RPromise 1), settle_load 1 "price" 0 (Fulfilled JUndefined) price_loading).
Proof.
  apply (undefined_load_never_reloads price_loading 1 "price" 0 [(None, Returns)]);
    [apply price_loading_wf|reflexivity|reflexivity].
Defined.

Lemma second_load_after_delete_witness :
  exists q s2, get "price" (Some price_loader) Returns (delete "price" price_loading) = (RPromise q, s2) /\
    q <> 1 /\ tasks s2 !! 1 = Some (TLoad "price" 0) /\ promises s2 !! q = Some Pending /\
    promises s2 !! 1 = Some Pending.
Proof.
  apply second_load_after_delete; [apply price_loading_wf|reflexivity].
Defined.

Lemma rejected_load_sticks_witness :
  gets "price" [(Some (LoaderFn 3), Returns)]
    (settle_load 1 "price" 0 (Rejected (JError "down")) (setLoader "price" price_loader None price_loading))
  = (replicate 1 (RPromise 1),
     settle_load 1 "price" 0 (Rejected (JError "down")) (setLoader "price" price_loader None price_loading)).
Proof.
  apply (rejected_load_sticks price_loading 1 "price" 0
           (mkEntry JUndefined (Some price_loader) None (Some 1) None));
    [apply price_loading_wf|reflexivity..].
Defined.

Lemma setAutoRefresh_delay_bounds_witness :
  exists iv, intervals (setAutoRefresh "k" (LoaderFn 1) 0 (init 0)) !! 1 = Some iv /\
    iv_key iv = "k" /\ iv_loader iv = LoaderFn 1 /\ (1 <= iv_delay iv <= 2147483647)%Z /\
    ((1 <= 0 <= 2147483647)%Z -> iv_delay iv = 0%Z) /\
    data_get "k" (setAutoRefresh "k" (LoaderFn 1) 0 (init 0)) ≫= refreshInterval = Some 1.
Proof. apply (setAutoRefresh_delay_bounds "k" (LoaderFn 1) 0 (init 0)), wf_init. Defined.

Lemma delete_stops_auto_refresh_witness :
  intervals (delete "k" (setAutoRefresh "k" price_loader 100 (init 0))) = intervals (init 0).
Proof. apply (delete_stops_auto_refresh "k" price_loader 100 (init 0)). apply wf_init. Defined.

(** [setAutoRefresh("price", loader, 10)], then 10 ms pass: timer [1] is due. *)
Definition tick_store : Store := advance 10 (run_call (CallSetAutoRefresh "price" price_loader 10) (init 0)).

Lemma refresh_tick_stores_witness :
  exists s1 i, fire 1 tick_store = Some s1 /\ tasks s1 !! i = Some (TRefresh "price" price_loader) /\
    trace s1 = trace tick_store ++ [ObsCall "price" price_loader] /\
    intervals s1 !! 1 = Some (mkInterval "price" price_loader 10 (10 + 10)) /\
    let s2 := settle_refresh i "price" (Fulfilled (JNum 7)) s1 in
    (value <$> data_get "price" s2) = Some (JNum 7) /\ (expiresAt <$> data_get "price" s2) = Some None /\
    (forall k, k <> "price" -> data_get k s2 = data_get k tick_store) /\
    intervals s2 !! 1 = Some (mkInterval "price" price_loader 10 (10 + 10)).
Proof.
  apply (refresh_tick_stores tick_store 1 "price" price_loader 10 10 (JNum 7));
    [apply wfb_spec; vm_compute; reflexivity|vm_compute; reflexivity|vm_compute; discriminate].
Defined.
