(* ===== verification/CacheSpec.v ===== *)
(** * The cache contract and the refinement of [Store.ts]

    The contract of class [Store], abstracted from promises, loaders,
    timers and object identities: the cache is a clock and a map from
    keys to a value and an optional expiry instant.  Each step of the
    program carries a [label] -- the method call a caller makes, the key
    and outcome of a load or refresh that settles, a timer tick, time
    passing -- and [a_label] is what the contract does on it: a key is
    assigned (the expiry computed from the clock as [set] does), deleted,
    reserved by an entry without a value, assigned without expiry by a
    successful loader, left alone, or time passes.  A read at instant [t]
    ([lookup_at]) sees a value that is present, not [undefined] and not
    past its expiry.

    [abs] maps a concrete [Store] to the contract's state through the
    key map and the heap of entry objects.  [calls_refine] states that
    every sequence of method calls commutes with the abstraction;
    [lstep] is [Runtime.step] with the label of each step, and
    [run_refines] that the contents after any labelled run are the
    contract's replay of its labels;
    [get_refines_lookup] that the value [get] returns at once is the
    contract's read. *)

From S2P Require Import Prelude JsValue Store StoreWf Runtime.

Section Contract.

(** Key to [(value, expiresAt)]. *)
Abbreviation contents := (gmap string (jsval * option Z)).

Record AState := mkA { a_now : Z; a_map : contents }.

(** [isExpired] on an expiry instant. *)
Definition a_expired (t : Z) (x : option Z) : bool :=
  match x with Some t' => (t' <? t)%Z | None => false end.

(** The read of the contract at instant [t]. *)
Definition lookup_at (t : Z) (k : string) (m : contents) : option jsval :=
  match m !! k with
  | Some (v, x) => if is_undefined v || a_expired t x then None else Some v
  | None => None
  end.

(** The contract of each method, on the contents. *)
Definition a_set (k : string) (v : jsval) (ttl : option Z) (a : AState) : AState :=
  mkA (a_now a) (<[k := (v, expiry_of (a_now a) ttl)]> (a_map a)).

Definition a_delete (k : string) (a : AState) : AState :=
  mkA (a_now a) (base.delete k (a_map a)).

(** An absent key gets an entry without value; a present one is kept. *)
Definition a_reserve (k : string) (a : AState) : AState :=
  match a_map a !! k with
  | Some _ => a
  | None => mkA (a_now a) (<[k := (JUndefined, None)]> (a_map a))
  end.

(** [get] purges an expired key and reserves an absent one. *)
Definition a_get (k : string) (a : AState) : AState :=
  match a_map a !! k with
  | Some (_, x) => if a_expired (a_now a) x then a_reserve k (a_delete k a) else a
  | None => a_reserve k a
  end.

Definition a_call (c : call) (a : AState) : AState :=
  match c with
  | CallGet k _ _ => a_get k a
  | CallSet k v ttl => a_set k v ttl a
  | CallSetLoader k _ _ | CallSetAutoRefresh k _ _ => a_reserve k a
  | CallDelete k => a_delete k a
  end.

(** What a step of the program is, as the contract sees it. *)
Inductive label :=
| LCall (c : call)
| LLoaded (key : string) (o : outcome)
| LTimer
| LTick (d : Z).

(** The contract on each label: a method call, a loader's value stored
    without TTL (a load of [get] or a refresh tick that succeeds), a
    failed loader or a timer tick that change no contents, time passing. *)
Definition a_label (lb : label) (a : AState) : AState :=
  match lb with
  | LCall c => a_call c a
  | LLoaded key (Fulfilled v) => a_set key v None a
  | LLoaded _ (Rejected _) | LTimer => a
  | LTick d => mkA (a_now a + d) (a_map a)
  end.

(** [Runtime.step] with the label of each step. *)
Inductive lstep : Store -> label -> Store -> Prop :=
| LStepCall c s : lstep s (LCall c) (run_call c s)
| LStepSettleLoad p key l o s :
    tasks s !! p = Some (TLoad key l) -> lstep s (LLoaded key o) (settle_load p key l o s)
| LStepSettleRefresh i key fn o s :
    tasks s !! i = Some (TRefresh key fn) -> lstep s (LLoaded key o) (settle_refresh i key o s)
| LStepFire t s s' : fire t s = Some s' -> lstep s LTimer s'
| LStepTick d s : (0 <= d)%Z -> lstep s (LTick d) (advance d s).

(** A run and the labels of its steps, in order. *)
Inductive lrun : Store -> list label -> Store -> Prop :=
| LRunNil s : lrun s [] s
| LRunCons s lb s1 ls s' : lstep s lb s1 -> lrun s1 ls s' -> lrun s (lb :: ls) s'.

(** The contents of a store: each key's entry object, read through the heap. *)
Definition contents_of (s : Store) : contents :=
  omap (fun l => (fun e => (value e, expiresAt e)) <$> heap s !! l) (data s).

Definition abs (s : Store) : AState := mkA (now s) (contents_of s).

(** ** The contents through the operations on the map and the heap *)

Lemma contents_frame s s' :
  data s' = data s -> heap s' = heap s -> contents_of s' = contents_of s.
Proof. unfold contents_of. by intros -> ->. Qed.

Lemma contents_lookup k s :
  contents_of s !! k = (fun le => (value le.2, expiresAt le.2)) <$> fetch k s.
Proof.
  unfold contents_of, fetch. rewrite lookup_omap.
  destruct (data s !! k); simpl; [|done]. by destruct (heap s !! _).
Qed.

Lemma contents_data_set k e s :
  wf s -> contents_of (data_set k e s) = <[k := (value e, expiresAt e)]> (contents_of s).
Proof.
  intros Hwf. apply map_eq. intros i. rewrite !contents_lookup, fetch_data_set by done.
  destruct (decide (i = k)) as [->|Hne]; [by rewrite lookup_insert_eq|].
  rewrite lookup_insert_ne by congruence. by rewrite contents_lookup.
Qed.

(** Writing a field other than [value] and [expiresAt] through a reference. *)
Lemma contents_write_obj l e e0 s :
  heap s !! l = Some e0 -> value e = value e0 -> expiresAt e = expiresAt e0 ->
  contents_of (write_obj l e s) = contents_of s.
Proof.
  intros He Hv Hx. apply map_eq. intros i. unfold contents_of, write_obj, upd_heap; cbn [data heap]. rewrite !lookup_omap.
  destruct (data s !! i) as [l'|]; simpl; [|reflexivity].
  destruct (decide (l' = l)) as [->|Hne]; [by rewrite lookup_insert_eq, He; simpl; rewrite Hv, Hx|].
  by rewrite lookup_insert_ne.
Qed.

Lemma contents_delete k s : contents_of (delete k s) = base.delete k (contents_of s).
Proof.
  unfold delete. set (s1 := match data_get k s with
                            | Some e => clearInterval (refreshInterval e) s | None => s end).
  assert (Hd : data s1 = data s /\ heap s1 = heap s).
  { subst s1. destruct (data_get k s) as [e|]; [destruct (refreshInterval e)|]; done. }
  destruct Hd as [Hd Hh]. rewrite Hd.
  destruct (data s !! k) eqn:Hk.
  - unfold contents_of. simpl. rewrite Hd, Hh. apply omap_delete.
  - change (contents_of s1 = base.delete k (contents_of s)). rewrite (contents_frame s s1 Hd Hh). symmetry. apply delete_id.
    unfold contents_of. rewrite lookup_omap, Hk. done.
Qed.

(** The updates that touch neither the key map nor the heap. *)
Lemma contents_log o s : contents_of (log o s) = contents_of s.
Proof. done. Qed.
Lemma contents_bump s : contents_of (bump s) = contents_of s.
Proof. done. Qed.
Lemma contents_upd_tasks f s : contents_of (upd_tasks f s) = contents_of s.
Proof. done. Qed.
Lemma contents_upd_promises f s : contents_of (upd_promises f s) = contents_of s.
Proof. done. Qed.
Lemma contents_upd_intervals f s : contents_of (upd_intervals f s) = contents_of s.
Proof. done. Qed.
Lemma contents_clearInterval h s : contents_of (clearInterval h s) = contents_of s.
Proof. by destruct h. Qed.

Create Rewrite HintDb cache_abs.
Hint Rewrite contents_log contents_bump contents_upd_tasks contents_upd_promises
  contents_upd_intervals contents_clearInterval contents_delete : cache_abs.

Lemma contents_clear_loading l s : contents_of (clear_loading l s) = contents_of s.
Proof.
  unfold clear_loading. destruct (heap s !! l) eqn:He; [|done].
  by eapply contents_write_obj.
Qed.

Lemma contents_set k v ttl s :
  wf s -> contents_of (set k v ttl s) = <[k := (v, expiry_of (now s) ttl)]> (contents_of s).
Proof. intros Hwf. unfold set, store_emit. autorewrite with cache_abs. by rewrite contents_data_set. Qed.

Hint Rewrite contents_clear_loading : cache_abs.

(** ** Each operation commutes with the abstraction *)

Lemma abs_eq s s' : now s' = now s -> contents_of s' = contents_of s -> abs s' = abs s.
Proof. unfold abs. by intros -> ->. Qed.

Lemma refines_set k v ttl s : wf s -> abs (set k v ttl s) = a_set k v ttl (abs s).
Proof. intros Hwf. unfold abs at 1. by rewrite contents_set. Qed.

Lemma refines_delete k s : abs (delete k s) = a_delete k (abs s).
Proof.
  unfold abs at 1. by rewrite contents_delete, (proj2 (proj2 (proj2 (proj2 (delete_frame k s))))).
Qed.

(** [this.data.set(key, { ...this.data.get(key), .. })] keeping the value
    and the expiry. *)
Lemma refines_respread k e s :
  wf s -> value e = value (default empty_entry (data_get k s)) ->
  expiresAt e = expiresAt (default empty_entry (data_get k s)) ->
  abs (data_set k e s) = a_reserve k (abs s).
Proof.
  intros Hwf Hv Hx. unfold data_get in Hv, Hx. unfold a_reserve. change (a_map (abs s)) with (contents_of s).
  rewrite contents_lookup. destruct (fetch k s) as [[l e0]|] eqn:Hf; simpl in Hv, Hx.
  - apply abs_eq; [done|]. rewrite contents_data_set, Hv, Hx by done.
    apply insert_id. by rewrite contents_lookup, Hf.
  - unfold abs at 1. by rewrite contents_data_set, Hv, Hx.
Qed.

Lemma refines_get_from k ldr inv l e s :
  heap s !! l = Some e -> abs (snd (get_from k ldr inv l e s)) = abs s.
Proof.
  intros He. unfold get_from. destruct (loading e); [done|]. destruct (ldr ?? loader e); [|done].
  unfold start_load. destruct inv; apply abs_eq; try done.
  cbn [snd]. autorewrite with cache_abs. by rewrite (contents_write_obj l _ e).
Qed.

(** The lazily created [{}] of [get], then [get_from] on it. *)
Lemma refines_get_fresh k ldr inv s :
  wf s -> fetch k s = None ->
  abs (snd (get_from k ldr inv (next_ref s) empty_entry (data_set k empty_entry s))) = a_reserve k (abs s).
Proof.
  intros Hwf Hf. rewrite refines_get_from by (simpl; by rewrite lookup_insert_eq).
  apply refines_respread; [done| |]; unfold data_get; by rewrite Hf.
Qed.

Lemma fetch_contents_None k s : contents_of s !! k = None -> fetch k s = None.
Proof. rewrite contents_lookup. by intros ?%fmap_None. Qed.

Lemma refines_get k ldr inv s : wf s -> abs (snd (get k ldr inv s)) = a_get k (abs s).
Proof.
  intros Hwf. unfold get, a_get. change (a_map (abs s)) with (contents_of s). rewrite contents_lookup.
  destruct (fetch k s) as [[l e]|] eqn:Hf; cbn [fmap option_fmap option_map].
  - apply fetch_Some in Hf as Hf'. destruct Hf' as [_ He].
    unfold isExpired, a_expired. cbn [a_now abs snd].
    destruct (match expiresAt e with Some t => (t <? now s)%Z | None => false end);
      cbv beta iota zeta.
    + rewrite refines_get_fresh by (eauto with minimarket; apply fetch_contents_None;
        by rewrite contents_delete, lookup_delete_eq).
      by rewrite refines_delete.
    + destruct (is_undefined (value e)); [|done]. by rewrite refines_get_from.
  - by apply refines_get_fresh.
Qed.

Lemma refines_setAutoRefresh k fn ms s :
  wf s -> abs (setAutoRefresh k fn ms s) = a_reserve k (abs s).
Proof.
  intros Hwf. unfold setAutoRefresh.
  pose proof (wf_setInterval k fn ms (refresh k fn s) (wf_refresh k fn s Hwf)) as Hw.
  destruct (setInterval k fn ms (refresh k fn s)) as [t s2] eqn:Hsi. simpl in Hw.
  assert (abs s2 = abs s) as <-.
  { unfold setInterval in Hsi. simplify_eq. apply abs_eq; [done|].
    unfold refresh. by autorewrite with cache_abs. }
  by apply refines_respread.
Qed.

Lemma a_reserve_idem k a : a_reserve k (a_reserve k a) = a_reserve k a.
Proof. unfold a_reserve. destruct (a_map a !! k) eqn:Hk; rewrite ?Hk; [done|]. simpl. by rewrite lookup_insert_eq. Qed.

Lemma refines_setLoader k fn ttl s : wf s -> abs (setLoader k fn ttl s) = a_reserve k (abs s).
Proof.
  intros Hwf. pose proof (wf_setLoader_entry k fn s Hwf) as Hw. unfold setLoader.
  set (s1 := match data_get k s with Some e => clearInterval (refreshInterval e) s | None => s end) in *.
  assert (Hs1 : abs s1 = abs s /\ data_get k s1 = data_get k s /\ wf s1).
  { subst s1. destruct (data_get k s) as [e|] eqn:Hd0; split_and!; eauto with minimarket.
    - apply abs_eq; [by destruct (refreshInterval e)|apply contents_clearInterval].
    - rewrite <-Hd0. unfold clearInterval. by destruct (refreshInterval e). }
  destruct Hs1 as (Ha & Hd & Hw1). simpl in Hw.
  assert (H2 : abs (data_set k (mkEntry (value (default empty_entry (data_get k s)))
      (Some fn) (expiresAt (default empty_entry (data_get k s))) (loading (default empty_entry (data_get k s)))
      (refreshInterval (default empty_entry (data_get k s)))) s1) = a_reserve k (abs s)).
  { rewrite <-Ha. apply refines_respread; by rewrite ?Hd. }
  destruct ttl as [ms|]; [destruct (num_truthy ms)|]; try done.
  rewrite refines_setAutoRefresh by done. by rewrite H2, a_reserve_idem.
Qed.

Lemma refines_settle_load p key l o s :
  wf s -> abs (settle_load p key l o s) = abs (load_result key o s).
Proof.
  intros Hwf. apply abs_eq.
  - unfold settle_load, clear_loading. simpl. by case_match.
  - unfold settle_load. by autorewrite with cache_abs.
Qed.

Lemma refines_settle_refresh i key fn o s :
  wf s -> tasks s !! i = Some (TRefresh key fn) ->
  abs (settle_refresh i key o s) =
    match o with Fulfilled v => a_set key v None (abs s) | Rejected _ => abs s end.
Proof.
  intros Hwf Hi. pose proof (wf_drop_refresh i key fn s Hwf Hi) as Hw.
  unfold settle_refresh. destruct o as [v|err].
  - by rewrite refines_set.
  - apply abs_eq; [done|]. by autorewrite with cache_abs.
Qed.

Lemma refines_fire t s s' : fire t s = Some s' -> abs s' = abs s.
Proof.
  unfold fire. intros Hf. repeat case_match; simplify_eq.
  apply abs_eq; [done|]. unfold refresh. by autorewrite with cache_abs.
Qed.

(** ** Reads of the contract *)

Lemma a_reserve_reads t k k' a : lookup_at t k' (a_map (a_reserve k a)) = lookup_at t k' (a_map a).
Proof.
  unfold a_reserve, lookup_at. destruct (a_map a !! k) eqn:Hk; [done|]. simpl.
  destruct (decide (k' = k)) as [->|Hne]; [by rewrite lookup_insert_eq, Hk|by rewrite lookup_insert_ne].
Qed.

Lemma a_get_reads k k' a : lookup_at (a_now a) k' (a_map (a_get k a)) = lookup_at (a_now a) k' (a_map a).
Proof.
  unfold a_get. destruct (a_map a !! k) as [[v x]|] eqn:Hk; [|apply a_reserve_reads].
  destruct (a_expired (a_now a) x) eqn:Hx; [|done].
  change (a_now a) with (a_now (a_delete k a)) at 1. rewrite a_reserve_reads.
  unfold lookup_at. simpl. destruct (decide (k' = k)) as [->|Hne].
  - by rewrite lookup_delete_eq, Hk, Hx, orb_true_r.
  - by rewrite lookup_delete_ne.
Qed.

Lemma get_from_not_value k ldr inv l e s v : fst (get_from k ldr inv l e s) <> RValue v.
Proof. unfold get_from, start_load. by repeat case_match. Qed.

(** ** The refinement theorems *)

Lemma refines_call c s : wf s -> abs (run_call c s) = a_call c (abs s).
Proof.
  intros Hwf. destruct c; simpl.
  - by apply refines_get.
  - by apply refines_set.
  - by apply refines_setLoader.
  - by apply refines_setAutoRefresh.
  - apply refines_delete.
Qed.

Lemma lstep_step s lb s' : lstep s lb s' -> step s s'.
Proof.
  intros []; [apply StepCall|by apply StepSettleLoad|by eapply StepSettleRefresh|by eapply StepFire|by apply StepTick].
Qed.

Lemma step_lstep s s' : step s s' -> exists lb, lstep s lb s'.
Proof.
  intros []; eexists; [apply LStepCall|by apply LStepSettleLoad|by eapply LStepSettleRefresh|
    by eapply LStepFire|by apply LStepTick].
Qed.

(** The labelled runs from a fresh store are the runs of [Runtime.step]. *)
Lemma rtc_lrun s s' : rtc step s s' <-> exists ls, lrun s ls s'.
Proof.
  split.
  - induction 1 as [x|x y z Hxy _ (ls & IH)]; [exists []; constructor|].
    destruct (step_lstep _ _ Hxy) as [lb Hlb]. exists (lb :: ls). by econstructor.
  - intros (ls & Hr). induction Hr; [apply rtc_refl|]. eapply rtc_l; [|done]. by eapply lstep_step.
Qed.

Lemma reachable_lrun s : reachable s <-> exists t0 ls, lrun (init t0) ls s.
Proof. unfold reachable. by setoid_rewrite rtc_lrun. Qed.

Lemma lstep_refines s lb s' : wf s -> lstep s lb s' -> abs s' = a_label lb (abs s).
Proof.
  intros Hwf Hs. destruct Hs as [c s|p key l o s Hp|i key fn o s Hi|t s s1 Hf|d s Hd]; simpl.
  - by rewrite refines_call.
  - rewrite refines_settle_load by done. destruct o; simpl; [by rewrite refines_set|done].
  - rewrite (refines_settle_refresh i key fn) by done. by destruct o.
  - by rewrite (refines_fire t s s1 Hf).
  - done.
Qed.

Lemma wf_run_call c s : wf s -> wf (run_call c s).
Proof. intros Hwf. apply (wf_step s); [done|constructor]. Qed.

(** C28. Functional refinement of the methods: a sequence of calls of
    [get], [set], [setLoader], [setAutoRefresh] and [delete] on a
    well-formed store, abstracted, is the contract's methods applied in
    the same order to the abstraction: [set] assigns the value with the
    expiry [ttl ? now + ttl : undefined], [delete] removes the key, [get]
    purges an expired key and reserves an absent one, and [setLoader] and
    [setAutoRefresh] only reserve an absent key -- they keep the value and
    expiry of a present one. *)
Theorem calls_refine cs s :
  wf s -> abs (foldl (fun s c => run_call c s) s cs) = foldl (fun a c => a_call c a) (abs s) cs.
Proof.
  revert s. induction cs as [|c cs IH]; intros s Hwf; [done|]. simpl.
  rewrite IH by (by apply wf_run_call). by rewrite refines_call.
Qed.

(** C29. Trace refinement: along any run from a well-formed store --
    any interleaving of method calls, settling loads and refreshes, timer
    ticks and the clock -- the contents and the clock are the contract's
    replay of the run's labels: a call acts as its method's contract, a
    load or refresh that succeeds stores its value without TTL, one that
    fails and a timer tick change nothing, and time only moves the clock. *)
Theorem run_refines s ls s' :
  wf s -> lrun s ls s' -> abs s' = foldl (fun a lb => a_label lb a) (abs s) ls.
Proof.
  intros Hwf Hr. revert Hwf. induction Hr as [s|s lb s1 ls s' Hs _ IH]; intros Hwf; [done|]. simpl.
  rewrite <-(lstep_refines s lb s1 Hwf Hs). apply IH. by apply (wf_step s), (lstep_step s lb).
Qed.

(** C30. The value [get] returns at once is the contract's read: [get]
    replies with [v] without a promise exactly when the key holds [v],
    [v] is not [undefined] and the key is not past its expiry; the store
    is then unchanged. *)
Theorem get_refines_lookup k ldr inv s v :
  (fst (get k ldr inv s) = RValue v <-> lookup_at (now s) k (a_map (abs s)) = Some v) /\
  (lookup_at (now s) k (a_map (abs s)) = Some v -> get k ldr inv s = (RValue v, s)).
Proof.
  unfold get, lookup_at. change (a_map (abs s)) with (contents_of s). rewrite contents_lookup.
  destruct (fetch k s) as [[l e]|]; cbn [fmap option_fmap option_map snd].
  - unfold isExpired, a_expired.
    destruct (match expiresAt e with Some t => (t <? now s)%Z | None => false end);
      rewrite ?orb_true_r, ?orb_false_r; cbv beta iota zeta.
    + split; [split; [by intros ?%get_from_not_value|done]|done].
    + destruct (is_undefined (value e)); [|naive_solver].
      split; [split; [by intros ?%get_from_not_value|done]|done].
  - split; [split; [by intros ?%get_from_not_value|done]|done].
Qed.

(** Reads are changed only by writes: [get], [setLoader] and
    [setAutoRefresh] never change what a read of the contract returns, on
    any key -- [get]'s purge of an expired key and the empty entries they
    create are invisible to reads. *)
Theorem reads_preserved_by_get_and_loaders c s k' :
  wf s -> (match c with CallGet _ _ _ | CallSetLoader _ _ _ | CallSetAutoRefresh _ _ _ => True
                      | _ => False end) ->
  lookup_at (now s) k' (a_map (abs (run_call c s))) = lookup_at (now s) k' (a_map (abs s)).
Proof.
  intros Hwf Hc. rewrite refines_call by done.
  destruct c; try done; simpl; [apply (a_get_reads _ _ (abs s))|apply a_reserve_reads..].
Qed.

(** ** Witnesses *)

Definition ab_calls : list call :=
  [CallSet "a" (JNum 1) (Some 5%Z); CallSetLoader "b" price_loader None; CallGet "b" None Returns;
   CallDelete "a"].

Lemma calls_refine_witness :
  abs (foldl (fun s c => run_call c s) (init 0) ab_calls) = foldl (fun a c => a_call c a) (abs (init 0)) ab_calls.
Proof. apply (calls_refine ab_calls (init 0)). apply wf_init. Defined.

Definition loaded_labels : list label :=
  [LCall (CallSetLoader "price" price_loader None); LCall (CallGet "price" None Returns);
   LLoaded "price" (Fulfilled (JNum 100)); LTick 5%Z].

Definition price_loaded : Store := advance 5 (settle_load 1 "price" 0 (Fulfilled (JNum 100)) price_loading).

Lemma price_loaded_run : lrun (init 0) loaded_labels price_loaded.
Proof.
  apply (LRunCons _ _ price_registered); [apply LStepCall|].
  apply (LRunCons _ _ price_loading); [apply LStepCall|].
  eapply LRunCons; [apply (LStepSettleLoad 1 "price" 0); vm_compute; reflexivity|].
  eapply LRunCons; [apply LStepTick; lia|apply LRunNil].
Qed.

Lemma run_refines_witness :
  lrun (init 0) loaded_labels price_loaded /\
  abs price_loaded = foldl (fun a lb => a_label lb a) (abs (init 0)) loaded_labels.
Proof.
  split; [apply price_loaded_run|].
  apply (run_refines (init 0) loaded_labels price_loaded); [apply wf_init|apply price_loaded_run].
Defined.

Definition a_store : Store := set "a" (JNum 1) (Some 5%Z) (init 0).

Lemma get_refines_lookup_witness : get "a" None Returns a_store = (RValue (JNum 1), a_store).
Proof. apply (proj2 (get_refines_lookup "a" None Returns a_store (JNum 1))). vm_compute. reflexivity. Defined.

Lemma reads_preserved_by_get_and_loaders_witness :
  lookup_at (now price_registered) "price" (a_map (abs (run_call (CallGet "price" None Returns) price_registered)))
  = lookup_at (now price_registered) "price" (a_map (abs price_registered)).
Proof.
  apply (reads_preserved_by_get_and_loaders (CallGet "price" None Returns) price_registered "price");
    [apply price_registered_wf|exact I].
Defined.

End Contract.
