(* ===== verification/Events.v ===== *)
(** * The event bus of [src/src/events.ts]

    [events.ts] keeps one array of handlers per event name of
    [types.ts] ([listeners]) and exports [on] (append a handler), [emit]
    (call every handler of the event, in array order, with the payload)
    and [off] (keep the handlers that are not [===] the given one).

    Handlers are functions, represented by identity; [emit] returns the
    calls it makes, in order.  The class [EventBus] is the interface
    [ttl.ts] relies on (it only calls [emit]), with the laws
    [EventBusLaws] that relate [on], [off] and [emit]; [Listeners] is the
    implementation of [events.ts] and [listeners_bus_laws] discharges the
    laws for it.  Handlers that register or remove handlers while [emit]
    iterates are the subject of [EventsHeap.v]. *)

From S2P Require Import Prelude JsValue Types.

(** ** The interface *)

Class EventBus (B : Type) := {
  bus_on : MarketEventName -> Handler -> B -> B;
  bus_off : MarketEventName -> Handler -> B -> B;
  bus_emit : MarketEventName -> Payload -> B -> list (Handler * Payload)
}.

Class EventBusLaws (B : Type) `{EventBus B} := {
  bus_emit_on e h p b : bus_emit e p (bus_on e h b) = bus_emit e p b ++ [(h, p)];
  bus_emit_on_other e e' h p b : e <> e' -> bus_emit e' p (bus_on e h b) = bus_emit e' p b;
  bus_emit_off e h p b :
    bus_emit e p (bus_off e h b) = filter (fun c => fst c <> h) (bus_emit e p b);
  bus_emit_off_other e e' h p b : e <> e' -> bus_emit e' p (bus_off e h b) = bus_emit e' p b;
  bus_emit_payload e p b : Forall (fun c => snd c = p) (bus_emit e p b)
}.

(** ** The implementation: [const listeners: Record<MarketEventName,
    MarketEventHandler[]>] *)
Record Listeners := mkListeners {
  ls_set : list Handler;
  ls_delete : list Handler;
  ls_expire : list Handler;
  ls_clear : list Handler
}.

Definition no_listeners : Listeners := mkListeners [] [] [] [].

(** [listeners[event]] *)
Definition listeners_of (ls : Listeners) (e : MarketEventName) : list Handler :=
  match e with
  | EvNameSet => ls_set ls
  | EvNameDelete => ls_delete ls
  | EvNameExpire => ls_expire ls
  | EvNameClear => ls_clear ls
  end.

(** [listeners[event] = hs] *)
Definition update_listeners (ls : Listeners) (e : MarketEventName) (hs : list Handler) : Listeners :=
  match e with
  | EvNameSet => mkListeners hs (ls_delete ls) (ls_expire ls) (ls_clear ls)
  | EvNameDelete => mkListeners (ls_set ls) hs (ls_expire ls) (ls_clear ls)
  | EvNameExpire => mkListeners (ls_set ls) (ls_delete ls) hs (ls_clear ls)
  | EvNameClear => mkListeners (ls_set ls) (ls_delete ls) (ls_expire ls) hs
  end.

(** [on(event, handler)]: [listeners[event].push(handler)] *)
Definition on (e : MarketEventName) (h : Handler) (ls : Listeners) : Listeners :=
  update_listeners ls e (listeners_of ls e ++ [h]).

(** [emit(event, payload)]: [listeners[event].forEach(handler => handler(payload))] *)
Definition emit (e : MarketEventName) (p : Payload) (ls : Listeners) : list (Handler * Payload) :=
  map (fun h => (h, p)) (listeners_of ls e).

(** [off(event, handler)]: [listeners[event] = listeners[event].filter(fn => fn !== handler)] *)
Definition off (e : MarketEventName) (h : Handler) (ls : Listeners) : Listeners :=
  update_listeners ls e (filter (fun f => f <> h) (listeners_of ls e)).

#[export] Instance listeners_bus : EventBus Listeners := {
  bus_on := on; bus_off := off; bus_emit := emit
}.

Lemma listeners_of_update ls e e' hs :
  listeners_of (update_listeners ls e hs) e' = if decide (e = e') then hs else listeners_of ls e'.
Proof. by destruct e, e'. Qed.

Lemma filter_map_pair (hs : list Handler) (p : Payload) h :
  filter (fun c => fst c <> h) (map (fun f => (f, p)) hs) = map (fun f => (f, p)) (filter (fun f => f <> h) hs).
Proof.
  induction hs as [|f hs IH]; [done|]. simpl. rewrite !filter_cons. simpl.
  case_decide; simpl; by rewrite IH.
Qed.

#[export] Instance listeners_bus_laws : EventBusLaws Listeners.
Proof.
  split; intros; simpl; unfold emit, on, off; rewrite ?listeners_of_update.
  - rewrite decide_True by done. by rewrite map_app.
  - by rewrite decide_False.
  - rewrite decide_True by done. by rewrite filter_map_pair.
  - by rewrite decide_False.
  - apply Forall_forall. intros c Hc. apply list_elem_of_fmap in Hc as (h & -> & _). done.
Qed.

(** ** Theorems *)

(** Register the handlers [hs] on [e], one [on] call each, in order. *)
Definition on_all (e : MarketEventName) (hs : list Handler) (ls : Listeners) : Listeners :=
  fold_left (fun acc h => on e h acc) hs ls.

(** Registration order: after [on(e, h)] for each handler of [hs] in
    turn on a fresh bus, [emit(e, p)] calls exactly the handlers of [hs], in
    registration order, a handler registered twice being called twice, each
    with the payload [p]; the other events call nobody. *)
Theorem emit_calls_registered_in_order e hs p :
  emit e p (on_all e hs no_listeners) = map (fun h => (h, p)) hs /\
  forall e', e' <> e -> emit e' p (on_all e hs no_listeners) = [].
Proof.
  unfold on_all.
  assert (Hgen : forall pre ls, emit e p ls = map (fun h => (h, p)) pre ->
            (forall e', e' <> e -> emit e' p ls = []) ->
            emit e p (fold_left (fun acc h => on e h acc) hs ls) = map (fun h => (h, p)) (pre ++ hs) /\
            forall e', e' <> e -> emit e' p (fold_left (fun acc h => on e h acc) hs ls) = []).
  { induction hs as [|h hs IH]; intros pre ls H1 H2; simpl; [rewrite app_nil_r; by split|].
    rewrite cons_middle, app_assoc. apply IH.
    - change (bus_emit e p (bus_on e h ls) = map (fun h => (h, p)) (pre ++ [h])).
      by rewrite bus_emit_on, map_app, <- H1.
    - intros e' Hne. change (bus_emit e' p (bus_on e h ls) = []).
      rewrite bus_emit_on_other by congruence. by apply H2. }
  destruct (Hgen [] no_listeners) as [H1 H2]; [by destruct e|intros [] ?; reflexivity|].
  split; [exact H1|exact H2].
Qed.

(** [off(e, h)] removes every registration of [h] on [e] (the
    [filter] drops all handlers [=== h], not only the first): [emit(e, p)]
    then calls the other handlers of [e] in their original order and never
    [h], and the handlers of the other events are untouched. *)
Theorem off_removes_all_registrations e h p ls :
  emit e p (off e h ls) = filter (fun c => fst c <> h) (emit e p ls) /\
  Forall (fun c => fst c <> h) (emit e p (off e h ls)) /\
  forall e', e' <> e -> emit e' p (off e h ls) = emit e' p ls.
Proof.
  change (emit e p (off e h ls)) with (bus_emit e p (bus_off e h ls)).
  rewrite bus_emit_off. split_and!; [done| |].
  - apply Forall_forall. intros c Hc. by apply list_elem_of_filter in Hc as [? _].
  - intros e' Hne. exact (bus_emit_off_other e e' h p ls (not_eq_sym Hne)).
Qed.

Lemma update_listeners_same ls e : update_listeners ls e (listeners_of ls e) = ls.
Proof. by destruct ls, e. Qed.

Lemma update_listeners_twice ls e hs hs' :
  update_listeners (update_listeners ls e hs) e hs' = update_listeners ls e hs'.
Proof. by destruct ls, e. Qed.

(** C35. [on] and [off] are inverse: [on(e, h)] appends [h] at the end of
    the handlers of [e]; [off(e, h)] after it removes every registration
    of [h] -- the one [on] made and any earlier one -- so it leaves what
    [off(e, h)] alone leaves; and for a handler not yet registered for
    [e], [on] then [off] gives back the registry exactly. *)
Theorem off_on_roundtrip e h ls :
  listeners_of (on e h ls) e = listeners_of ls e ++ [h] /\
  off e h (on e h ls) = off e h ls /\
  (h ∉ listeners_of ls e -> off e h (on e h ls) = ls).
Proof.
  assert (Hoff : off e h (on e h ls) = off e h ls).
  { unfold off, on. rewrite listeners_of_update, decide_True, update_listeners_twice by done.
    by rewrite filter_app, filter_cons_False, filter_nil, app_nil_r by (by intros ?). }
  split_and!; [unfold on; rewrite listeners_of_update; by rewrite decide_True|done|].
  intros Hh. rewrite Hoff. unfold off. rewrite filter_all; [apply update_listeners_same|].
  apply Forall_forall. intros x Hx ->. contradiction.
Qed.

(** [listeners.set = [5, 3]]: [on] then [off] of [5] leaves [[3]]. *)
Lemma off_on_roundtrip_witness :
  off EvNameSet 5 (on EvNameSet 5 (on EvNameSet 3 (on EvNameSet 5 no_listeners))) =
  off EvNameSet 5 (on EvNameSet 3 (on EvNameSet 5 no_listeners)) /\
  listeners_of (off EvNameSet 5 (on EvNameSet 5 (on EvNameSet 3 (on EvNameSet 5 no_listeners)))) EvNameSet = [3].
Proof.
  destruct (off_on_roundtrip EvNameSet 5 (on EvNameSet 3 (on EvNameSet 5 no_listeners))) as (_ & H & _).
  split; [exact H|rewrite H; vm_compute; reflexivity].
Defined.
