(* ===== verification/EventsRef.v ===== *)
(** * A reference event bus, and [events.ts] equivalent to it

    The reference keeps a single log of the registrations [(event,
    handler)], in the order they were made: [ref_on] appends one,
    [ref_off] drops every registration of the handler for the event, and
    [ref_emit] calls the handlers the log holds for the event, in order.
    Two logs are equivalent ([≡]) when they hold the same handlers for
    every event, in the same order: registrations of different events
    commute, so the equivalence is coarser than equality.  The reference
    operations respect it ([Proper] instances), and the proofs rewrite
    with it.

    [events.ts] instead keeps one array per event name ([Listeners]).
    [to_ref] reads the four arrays as a log; the theorem of this file is
    that, for every sequence of [on] and [off] calls, [emit] of [events.ts]
    calls exactly the handlers the reference calls. *)

From S2P Require Import Prelude JsValue Types Events.

Record RefBus := mkRef { ref_log : list (MarketEventName * Handler) }.

(** The handlers the log holds for [e], in registration order. *)
Definition of_event (e : MarketEventName) (b : RefBus) : list Handler :=
  map snd (filter (fun c => c.1 = e) (ref_log b)).

Definition ref_on (e : MarketEventName) (h : Handler) (b : RefBus) : RefBus :=
  mkRef (ref_log b ++ [(e, h)]).

Definition ref_off (e : MarketEventName) (h : Handler) (b : RefBus) : RefBus :=
  mkRef (filter (fun c => c <> (e, h)) (ref_log b)).

Definition ref_emit (e : MarketEventName) (p : Payload) (b : RefBus) : list (Handler * Payload) :=
  map (fun h => (h, p)) (of_event e b).

#[export] Instance ref_bus : EventBus RefBus := {
  bus_on := ref_on; bus_off := ref_off; bus_emit := ref_emit
}.

(** ** The equivalence of logs *)

#[export] Instance ref_equiv : Equiv RefBus := fun b1 b2 => forall e, of_event e b1 = of_event e b2.

#[export] Instance ref_equiv_equivalence : Equivalence (≡@{RefBus}).
Proof. split; [by intros b e|by intros b1 b2 H e|intros b1 b2 b3 H1 H2 e; by rewrite H1, H2]. Qed.

Lemma of_event_on e e' h b :
  of_event e' (ref_on e h b) = of_event e' b ++ if decide (e = e') then [h] else [].
Proof.
  unfold of_event, ref_on. simpl. rewrite filter_app, map_app, filter_cons, filter_nil.
  case_decide as H1; case_decide as H2; simpl in *; congruence.
Qed.

Lemma of_event_off e e' h b :
  of_event e' (ref_off e h b) = if decide (e = e') then filter (fun f => f <> h) (of_event e' b)
                                else of_event e' b.
Proof.
  unfold of_event, ref_off. simpl. induction (ref_log b) as [|[e0 h0] l IH]; [by case_decide|].
  rewrite !filter_cons. simpl.
  repeat (case_decide; simplify_eq/=); rewrite ?filter_cons; repeat (case_decide; simplify_eq/=);
    rewrite ?IH; try done; by case_decide.
Qed.

#[export] Instance ref_on_proper e h : Proper ((≡) ==> (≡)) (ref_on e h).
Proof. intros b1 b2 Hb e'. by rewrite !of_event_on, Hb. Qed.

#[export] Instance ref_off_proper e h : Proper ((≡) ==> (≡)) (ref_off e h).
Proof. intros b1 b2 Hb e'. by rewrite !of_event_off, Hb. Qed.

#[export] Instance ref_emit_proper e p : Proper ((≡) ==> (=)) (ref_emit e p).
Proof. intros b1 b2 Hb. unfold ref_emit. by rewrite (Hb e). Qed.

(** The reference satisfies the laws [ttl.ts] relies on. *)
#[export] Instance ref_bus_laws : EventBusLaws RefBus.
Proof.
  split; intros; simpl; unfold ref_emit; rewrite ?of_event_on, ?of_event_off.
  - rewrite decide_True by done. by rewrite map_app.
  - rewrite decide_False by done. by rewrite app_nil_r.
  - rewrite decide_True by done. by rewrite filter_map_pair.
  - by rewrite decide_False.
  - apply Forall_forall. intros c Hc. apply list_elem_of_fmap in Hc as (h & -> & _). done.
Qed.

(** ** [events.ts] against the reference *)

(** The four arrays of [listeners], read as one log. *)
Definition to_ref (ls : Listeners) : RefBus :=
  mkRef (map (pair EvNameSet) (ls_set ls) ++ map (pair EvNameDelete) (ls_delete ls) ++
         map (pair EvNameExpire) (ls_expire ls) ++ map (pair EvNameClear) (ls_clear ls)).

(** A call of [on] or [off] by some caller. *)
Inductive bus_call := BOn (e : MarketEventName) (h : Handler) | BOff (e : MarketEventName) (h : Handler).

Definition run_bus (cs : list bus_call) (ls : Listeners) : Listeners :=
  foldl (fun acc c => match c with BOn e h => on e h acc | BOff e h => off e h acc end) ls cs.

Definition ref_run (cs : list bus_call) (b : RefBus) : RefBus :=
  foldl (fun acc c => match c with BOn e h => ref_on e h acc | BOff e h => ref_off e h acc end) b cs.

Lemma of_event_pairs (e e' : MarketEventName) (hs : list Handler) :
  map snd (filter (fun c => c.1 = e') (map (pair e) hs)) = if decide (e = e') then hs else [].
Proof.
  induction hs as [|h hs IH]; simpl; [by case_decide|]. rewrite filter_cons. simpl.
  by case_decide; simpl; rewrite IH.
Qed.

Lemma of_event_to_ref e ls : of_event e (to_ref ls) = listeners_of ls e.
Proof.
  unfold of_event, to_ref. simpl. rewrite !filter_app, !map_app, !of_event_pairs.
  destruct e; repeat (case_decide; try done); simpl; by rewrite ?app_nil_r.
Qed.

Lemma to_ref_on e h ls : to_ref (on e h ls) ≡ ref_on e h (to_ref ls).
Proof.
  intros e'. rewrite of_event_on, !of_event_to_ref. unfold on.
  rewrite listeners_of_update. case_decide; subst; by rewrite ?app_nil_r.
Qed.

Lemma to_ref_off e h ls : to_ref (off e h ls) ≡ ref_off e h (to_ref ls).
Proof.
  intros e'. rewrite of_event_off, !of_event_to_ref. unfold off.
  rewrite listeners_of_update. by case_decide; subst.
Qed.

#[export] Instance ref_run_proper cs : Proper ((≡) ==> (≡)) (ref_run cs).
Proof.
  induction cs as [|[e h|e h] cs IH]; intros b1 b2 Hb; simpl; [done| |]; apply IH; by rewrite Hb.
Qed.

Lemma to_ref_run cs ls : to_ref (run_bus cs ls) ≡ ref_run cs (to_ref ls).
Proof.
  revert ls. induction cs as [|[e h|e h] cs IH]; intros ls; simpl; [done| |];
    rewrite IH; f_equiv; [apply to_ref_on|apply to_ref_off].
Qed.

(** C36. Equivalence with the reference bus: from any registry, after any
    sequence of [on] and [off] calls, [emit(e, p)] of [events.ts] calls the
    same handlers in the same order as the single registration log of the
    reference -- keeping one array per event name loses no ordering and
    mixes no events. *)
Theorem listeners_equiv_reference cs ls e p :
  emit e p (run_bus cs ls) = ref_emit e p (ref_run cs (to_ref ls)).
Proof.
  rewrite <-(to_ref_run cs ls). unfold emit, ref_emit. by rewrite of_event_to_ref.
Qed.
