(* ===== verification/EventsHeap.v ===== *)
(** * [events.ts] with its arrays by reference, and re-entrant handlers

    [Events.v] reads [listeners] as four lists of handlers.  In the
    source they are four *array objects*: [on] mutates the array of the
    event in place ([listeners[event].push(handler)]), [off] allocates a
    new array and makes the field point to it ([listeners[event] =
    listeners[event].filter(...)]), and [emit] reads the field once and
    walks that array with [forEach], which visits the indices below the
    length the array had when [forEach] started, reading each element when
    it reaches it.  A handler is a function the source calls; what it does
    to the bus -- call [on], [off] or [emit] again, while the outer [emit]
    is still walking its array -- is [beh h p], a list of [bus_action]s.

    [HBus] is the heap-level state: the field of each event name holds an
    array reference ([slot]), the arrays are a heap ([arrays]), fresh
    references come from [next_arr], and [calls] records the handler calls
    in the order they happen.  A call ends in a [completion]: it returns
    ([Done]) or throws ([Threw]), in a state either way; an exception
    propagates out of [forEach] and out of [emit] ([and_then]).
    [emit_heap] takes fuel: the depth of nested [emit] calls the
    JavaScript stack allows; at depth 0 the call throws the [RangeError]
    of an exhausted stack.

    The theorems: the heap model is *equivalent* to a snapshot semantics
    over the values of [Events.v] ([snap_emit]: [emit] calls the handlers
    registered when it started, whatever they do to the registry); with
    handlers that only call [on] and [off], one level of fuel suffices and
    the calls are exactly those [Events.emit] lists; a handler that emits
    its own event exhausts any stack.  The equivalence covers handlers
    that throw: the same error, with the same state. *)

From S2P Require Import Prelude JsValue Types Events.

(** What a handler does with the bus when it is called, in order. *)
Inductive bus_action :=
| AOn (e : MarketEventName) (h : Handler)
| AOff (e : MarketEventName) (h : Handler)
| AEmit (e : MarketEventName) (p : Payload)
| AThrow (err : jsval).

(** How a call ends: it returns, or it throws [err]; in a state either way. *)
Inductive completion (T : Type) := Done (t : T) | Threw (err : jsval) (t : T).
Arguments Done {T} t.
Arguments Threw {T} err t.

Definition final {T} (c : completion T) : T := match c with Done t => t | Threw _ t => t end.

Definition map_completion {T U} (f : T -> U) (c : completion T) : completion U :=
  match c with Done t => Done (f t) | Threw err t => Threw err (f t) end.

(** [c] then [k]: [k] runs when [c] returns; an exception propagates. *)
Definition and_then {T} (c : completion T) (k : T -> completion T) : completion T :=
  match c with Done t => k t | Threw err t => Threw err t end.

(** [RangeError: Maximum call stack size exceeded]. *)
Definition range_error : jsval := JError "Maximum call stack size exceeded".

(** [const listeners]: the field of each event name holds an array
    reference into [arrays]. *)
Record HBus := mkHBus {
  slot : MarketEventName -> nat;
  arrays : gmap nat (list Handler);
  next_arr : nat;
  calls : list (Handler * Payload)
}.

(** The array object [a]. *)
Definition arr (b : HBus) (a : nat) : list Handler := default [] (arrays b !! a).

(** The module's initial [listeners]: four fresh empty arrays. *)
Definition init_heap : HBus :=
  mkHBus (fun e => match e with EvNameSet => 0 | EvNameDelete => 1 | EvNameExpire => 2 | EvNameClear => 3 end)
         (<[0:=[]]> (<[1:=[]]> (<[2:=[]]> (<[3:=[]]> ∅)))) 4 [].

(** [on]: [listeners[event].push(handler)], in place. *)
Definition on_heap (e : MarketEventName) (h : Handler) (b : HBus) : HBus :=
  mkHBus (slot b) (<[slot b e := arr b (slot b e) ++ [h]]> (arrays b)) (next_arr b) (calls b).

(** [off]: [listeners[event] = listeners[event].filter(fn => fn !== handler)],
    a new array. *)
Definition off_heap (e : MarketEventName) (h : Handler) (b : HBus) : HBus :=
  mkHBus (fun e' => if decide (e = e') then next_arr b else slot b e')
         (<[next_arr b := filter (fun f => f <> h) (arr b (slot b e))]> (arrays b))
         (S (next_arr b)) (calls b).

(** The call [handler(payload)] happens. *)
Definition call_log (h : Handler) (p : Payload) (b : HBus) : HBus :=
  mkHBus (slot b) (arrays b) (next_arr b) (calls b ++ [(h, p)]).

(** The value-level state: the registry of [Events.v] and the calls. *)
Record VBus := mkVBus { v_ls : Listeners; v_calls : list (Handler * Payload) }.

(** The operations a handler's body performs, on either level. *)
Class BusOps (T : Type) := {
  op_on : MarketEventName -> Handler -> T -> T;
  op_off : MarketEventName -> Handler -> T -> T
}.

#[export] Instance heap_ops : BusOps HBus := { op_on := on_heap; op_off := off_heap }.
#[export] Instance value_ops : BusOps VBus := {
  op_on e h v := mkVBus (on e h (v_ls v)) (v_calls v);
  op_off e h v := mkVBus (off e h (v_ls v)) (v_calls v)
}.

(** The body of a handler: its actions in order, a nested [emit] by [em]. *)
Definition run_actions {T} `{BusOps T} (em : MarketEventName -> Payload -> T -> completion T) :
    list bus_action -> T -> completion T :=
  fix go acts t :=
    match acts with
    | [] => Done t
    | AOn e h :: r => go r (op_on e h t)
    | AOff e h :: r => go r (op_off e h t)
    | AEmit e p :: r => and_then (em e p t) (go r)
    | AThrow err :: _ => Threw err t
    end.

(** [array.forEach(call)] from index [i], [k] indices left: each element is
    read from the array as it is when [forEach] reaches it. *)
Definition for_each (call : Handler -> HBus -> completion HBus) (a : nat) :
    nat -> nat -> HBus -> completion HBus :=
  fix loop i k b :=
    match k with
    | 0 => Done b
    | S k' =>
        match arr b a !! i with
        | Some h => and_then (call h b) (loop (S i) k')
        | None => loop (S i) k' b
        end
    end.

(** The snapshot: call the handlers of a list, one after the other. *)
Definition snap_loop (call : Handler -> VBus -> completion VBus) : list Handler -> VBus -> completion VBus :=
  fix loop hs v :=
    match hs with
    | [] => Done v
    | h :: hs' => and_then (call h v) (loop hs')
    end.

Section Handlers.
Variable beh : Handler -> Payload -> list bus_action.

(** [emit(event, payload)]: [listeners[event].forEach(handler => handler(payload))],
    with the length read when [forEach] starts. *)
Fixpoint emit_heap (fuel : nat) (e : MarketEventName) (p : Payload) (b : HBus) : completion HBus :=
  match fuel with
  | 0 => Threw range_error b
  | S f =>
      for_each (fun h b' => run_actions (emit_heap f) (beh h p) (call_log h p b'))
               (slot b e) 0 (length (arr b (slot b e))) b
  end.

(** The reference: [emit] calls the handlers registered when it starts. *)
Fixpoint snap_emit (fuel : nat) (e : MarketEventName) (p : Payload) (v : VBus) : completion VBus :=
  match fuel with
  | 0 => Threw range_error v
  | S f =>
      snap_loop (fun h v' => run_actions (snap_emit f) (beh h p) (mkVBus (v_ls v') (v_calls v' ++ [(h, p)])))
                (listeners_of (v_ls v) e) v
  end.

End Handlers.

(** ** The heap read as values *)

(** The four arrays the fields point to, as the registry of [Events.v]. *)
Definition abs_ls (b : HBus) : Listeners :=
  mkListeners (arr b (slot b EvNameSet)) (arr b (slot b EvNameDelete))
              (arr b (slot b EvNameExpire)) (arr b (slot b EvNameClear)).

Definition abs_bus (b : HBus) : VBus := mkVBus (abs_ls b) (calls b).

(** The fields point to four distinct arrays, all allocated. *)
Definition heap_wf (b : HBus) : Prop :=
  (forall e, slot b e < next_arr b) /\ (forall e e', slot b e = slot b e' -> e = e').

(** [b'] extends [b]: every array of [b] is a prefix of itself in [b'] --
    arrays only grow by [push]. *)
Definition grows (b b' : HBus) : Prop :=
  next_arr b <= next_arr b' /\ forall a, a < next_arr b -> arr b a `prefix_of` arr b' a.

#[export] Instance grows_preorder : PreOrder grows.
Proof.
  split; [intros b; split; [lia|done]|].
  intros b1 b2 b3 [H1 H1'] [H2 H2']. split; [lia|]. intros a Ha. etrans; [apply H1'|apply H2']; [done|lia].
Qed.

Lemma listeners_of_abs b e : listeners_of (abs_ls b) e = arr b (slot b e).
Proof. by destruct e. Qed.

Lemma listeners_ext ls ls' : (forall e, listeners_of ls e = listeners_of ls' e) -> ls = ls'.
Proof.
  intros H. destruct ls, ls'. f_equal; [apply (H EvNameSet)|apply (H EvNameDelete)|
    apply (H EvNameExpire)|apply (H EvNameClear)].
Qed.

Lemma arr_insert b a a' hs : arr (mkHBus (slot b) (<[a:=hs]> (arrays b)) (next_arr b) (calls b)) a' =
  if decide (a = a') then hs else arr b a'.
Proof. unfold arr. simpl. rewrite lookup_insert. by case_decide. Qed.

Lemma abs_on e h b : heap_wf b -> abs_ls (on_heap e h b) = on e h (abs_ls b).
Proof.
  intros [_ Hinj]. apply listeners_ext. intros e'. unfold on.
  rewrite listeners_of_update, !listeners_of_abs. unfold on_heap. rewrite arr_insert.
  case_decide as Hs; case_decide; subst; try done. by apply Hinj in Hs.
Qed.

Lemma abs_off e h b : heap_wf b -> abs_ls (off_heap e h b) = off e h (abs_ls b).
Proof.
  intros [Hlt _]. apply listeners_ext. intros e'. unfold off.
  rewrite listeners_of_update, !listeners_of_abs. unfold arr. simpl. rewrite lookup_insert.
  destruct (decide (e = e')); [by rewrite decide_True|].
  rewrite decide_False by (specialize (Hlt e'); lia). done.
Qed.

Lemma heap_wf_on e h b : heap_wf b -> heap_wf (on_heap e h b).
Proof. done. Qed.

Lemma heap_wf_off e h b : heap_wf b -> heap_wf (off_heap e h b).
Proof.
  intros [Hlt Hinj]. split; simpl.
  - intros e'. case_decide; [lia|]. specialize (Hlt e'). lia.
  - intros e1 e2. do 2 case_decide; subst; try done; intros Heq;
      [specialize (Hlt e2)|specialize (Hlt e1)|by apply Hinj]; lia.
Qed.

Lemma grows_on e h b : grows b (on_heap e h b).
Proof.
  split; [done|]. intros a _. unfold on_heap. rewrite arr_insert. case_decide; subst; [|done].
  by apply prefix_app_r.
Qed.

Lemma grows_off e h b : grows b (off_heap e h b).
Proof.
  split; [simpl; lia|]. intros a Ha. unfold arr. simpl. rewrite lookup_insert, decide_False by lia. done.
Qed.

Lemma grows_call_log h p b : grows b (call_log h p b).
Proof. done. Qed.

#[export] Hint Resolve heap_wf_on heap_wf_off grows_on grows_off grows_call_log : minimarket.

(** ** The simulation *)

(** A heap-level completion [oh] from the well-formed state [b] matches the
    value-level one [ov]: the same outcome read as values, ending in a
    well-formed state that extends [b]. *)
Definition matches (b : HBus) (oh : completion HBus) (ov : completion VBus) : Prop :=
  map_completion abs_bus oh = ov /\ heap_wf (final oh) /\ grows b (final oh).

Definition sim (fh : HBus -> completion HBus) (fv : VBus -> completion VBus) : Prop :=
  forall b, heap_wf b -> matches b (fh b) (fv (abs_bus b)).

Lemma matches_ret b : heap_wf b -> matches b (Done b) (Done (abs_bus b)).
Proof. done. Qed.

Lemma matches_throw err b : heap_wf b -> matches b (Threw err b) (Threw err (abs_bus b)).
Proof. done. Qed.

Lemma matches_grows b b1 oh ov : grows b b1 -> matches b1 oh ov -> matches b oh ov.
Proof. intros Hg (Ha & Hw & Hg1). split_and!; [done|done|by etrans]. Qed.

Lemma matches_bind b oh ov k kv :
  matches b oh ov ->
  (forall b', oh = Done b' -> heap_wf b' -> grows b b' -> matches b' (k b') (kv (abs_bus b'))) ->
  matches b (and_then oh k) (and_then ov kv).
Proof.
  intros (Ha & Hw & Hg) Hk. destruct oh as [b1|err b1]; simpl in *; subst ov; [|done].
  by apply (matches_grows b b1), Hk.
Qed.

Lemma sim_run_actions emh emv :
  (forall e p, sim (emh e p) (emv e p)) -> forall acts, sim (run_actions emh acts) (run_actions emv acts).
Proof.
  intros Hem acts. induction acts as [|[e h|e h|e p|err] r IH]; intros b Hwf; simpl.
  - by apply matches_ret.
  - apply (matches_grows _ (on_heap e h b)); [apply grows_on|].
    rewrite <-(abs_on e h b Hwf). exact (IH _ (heap_wf_on e h b Hwf)).
  - apply (matches_grows _ (off_heap e h b)); [apply grows_off|].
    rewrite <-(abs_off e h b Hwf). exact (IH _ (heap_wf_off e h b Hwf)).
  - apply matches_bind; [by apply Hem|]. intros b' _ Hw _. by apply IH.
  - by apply matches_throw.
Qed.

(** The loop of [forEach] over an array that has the snapshot [hs] as a
    prefix all along: the handlers it calls are those of [hs]. *)
Lemma sim_for_each call callv a hs :
  (forall h, sim (call h) (callv h)) ->
  forall k i b, heap_wf b -> a < next_arr b -> hs `prefix_of` arr b a -> i + k = length hs ->
  matches b (for_each call a i k b) (snap_loop callv (drop i hs) (abs_bus b)).
Proof.
  intros Hcall k. induction k as [|k IH]; intros i b Hwf Ha Hp Hk; simpl.
  - rewrite drop_ge by lia. by apply matches_ret.
  - destruct (lookup_lt_is_Some_2 hs i) as [h Hh]; [lia|].
    rewrite (prefix_lookup_Some _ _ _ _ Hh Hp), (drop_S _ _ _ Hh). simpl.
    apply matches_bind; [by apply Hcall|]. intros b' _ Hw [Hn Hg].
    apply IH; [done|lia|by etrans; [|apply Hg]|lia].
Qed.

Lemma abs_call_log h p b :
  abs_bus (call_log h p b) = mkVBus (v_ls (abs_bus b)) (v_calls (abs_bus b) ++ [(h, p)]).
Proof. done. Qed.

(** The heap model simulates the snapshot semantics, at every fuel. *)
Lemma emit_heap_sim beh fuel e p : sim (emit_heap beh fuel e p) (snap_emit beh fuel e p).
Proof.
  revert e p. induction fuel as [|f IH]; intros e p b Hwf; [by apply matches_throw|]. simpl.
  rewrite <-(drop_0 (listeners_of _ e)), listeners_of_abs.
  apply (sim_for_each _ _ _ _); [|done|apply Hwf|done|lia].
  intros h b1 Hw1. rewrite <-abs_call_log. apply (matches_grows _ (call_log h p b1)); [done|].
  by apply sim_run_actions.
Qed.

(** ** Handlers that only call [on] and [off] *)

(** Every action of the body is an [on] or an [off]: it neither emits nor
    throws. *)
Definition plain_body (acts : list bus_action) : bool :=
  forallb (fun a => match a with AOn _ _ | AOff _ _ => true | _ => false end) acts.

(** The [on] and [off] calls of a body, applied to a registry in order. *)
Definition apply_actions (acts : list bus_action) (ls : Listeners) : Listeners :=
  foldl (fun ls a => match a with AOn e h => on e h ls | AOff e h => off e h ls | _ => ls end) ls acts.

Lemma run_actions_plain em acts v :
  plain_body acts = true -> run_actions em acts v = Done (mkVBus (apply_actions acts (v_ls v)) (v_calls v)).
Proof.
  revert v. induction acts as [|[e h|e h|e p|err] r IH]; intros v Hn; simpl in *; [by destruct v|..|done|done];
    by rewrite IH.
Qed.

Lemma snap_loop_plain beh em p hs v :
  (forall h, plain_body (beh h p) = true) ->
  snap_loop (fun h v' => run_actions em (beh h p) (mkVBus (v_ls v') (v_calls v' ++ [(h, p)]))) hs v =
  Done (mkVBus (apply_actions (concat (map (fun h => beh h p) hs)) (v_ls v)) (v_calls v ++ map (fun h => (h, p)) hs)).
Proof.
  intros Hn. revert v. induction hs as [|h hs IH]; intros v; simpl; [by rewrite app_nil_r; destruct v|].
  rewrite run_actions_plain by done. simpl. rewrite IH. simpl.
  unfold apply_actions. by rewrite foldl_app, <-app_assoc.
Qed.

(** ** Fuel *)

(** More stack never changes a return: a run that returns at some depth
    returns the same state at every larger one. *)
Lemma run_actions_mono {T} `{BusOps T} (em em' : MarketEventName -> Payload -> T -> completion T) acts t t' :
  (forall e p u u', em e p u = Done u' -> em' e p u = Done u') ->
  run_actions em acts t = Done t' -> run_actions em' acts t = Done t'.
Proof.
  intros Hem. revert t. induction acts as [|[e h|e h|e p|err] r IH]; intros t; simpl; eauto.
  destruct (em e p t) as [u|err u] eqn:Hu; simpl; [|done]. rewrite (Hem _ _ _ _ Hu). simpl. apply IH.
Qed.

Lemma for_each_mono call call' a :
  (forall h b b', call h b = Done b' -> call' h b = Done b') ->
  forall k i b b', for_each call a i k b = Done b' -> for_each call' a i k b = Done b'.
Proof.
  intros Hc k. induction k as [|k IH]; intros i b b'; simpl; [done|].
  destruct (arr b a !! i) as [h|]; [|apply IH].
  destruct (call h b) as [b1|err b1] eqn:Hb1; simpl; [|done]. rewrite (Hc _ _ _ Hb1). simpl. apply IH.
Qed.

Lemma emit_heap_mono beh f f' e p b b' :
  f <= f' -> emit_heap beh f e p b = Done b' -> emit_heap beh f' e p b = Done b'.
Proof.
  revert f' e p b b'. induction f as [|f IH]; intros [|f'] e p b b' Hf; simpl; try done; [lia|].
  apply for_each_mono. intros h b1 b2. apply run_actions_mono. intros. apply IH; [lia|done].
Qed.

(** ** Theorems *)

(** C38. [events.ts] on its heap of arrays is equivalent to the snapshot
    semantics: from well-formed [listeners], whatever the handlers do to
    the bus while [emit] walks its array -- [on] pushing onto that very
    array, [off] swapping in a new one, nested [emit]s, throwing -- [emit]
    calls exactly the handlers registered when it started, in order, ends
    the same way (returning, or throwing the same error) and leaves the
    registry the snapshot semantics leaves; at every stack depth. *)
Theorem emit_refines_snapshot beh fuel e p b :
  heap_wf b -> map_completion abs_bus (emit_heap beh fuel e p b) = snap_emit beh fuel e p (abs_bus b).
Proof. intros Hwf. apply (emit_heap_sim beh fuel e p b Hwf). Qed.

(** C39. Re-entrant [on]/[off] during [emit]: when every handler only
    calls [on] and [off], [emit] returns within one stack level, the calls
    it makes are exactly those [Events.emit] lists for the registry at the
    call -- a handler removed by an earlier one is still called, one added
    is not -- and the registry afterwards is the handlers' [on]/[off]
    calls applied in order. *)
Theorem emit_reentrant_on_off beh e p b :
  heap_wf b -> (forall h, plain_body (beh h p) = true) ->
  exists b', emit_heap beh 1 e p b = Done b' /\
    calls b' = calls b ++ emit e p (abs_ls b) /\
    abs_ls b' = apply_actions (concat (map (fun h => beh h p) (listeners_of (abs_ls b) e))) (abs_ls b).
Proof.
  intros Hwf Hn. destruct (emit_heap_sim beh 1 e p b Hwf) as [Ha _].
  cbn [snap_emit] in Ha. rewrite snap_loop_plain in Ha by done.
  destruct (emit_heap beh 1 e p b) as [b'|err b']; [|done]. injection Ha as Hls Hc.
  exists b'. split_and!; [done|by rewrite Hc|done].
Qed.

(** C40. A handler that is first in its event's array and emits that same
    event recurses without end: however deep the stack, [emit] throws the
    [RangeError] of an exhausted stack -- nothing in [events.ts] guards
    against a re-entrant [emit]. *)
Theorem emit_self_overflows beh e p b h r :
  arr b (slot b e) !! 0 = Some h -> beh h p = AEmit e p :: r ->
  forall fuel, exists b', emit_heap beh fuel e p b = Threw range_error b'.
Proof.
  intros H0 Hb fuel. revert b H0. induction fuel as [|f IH]; intros b H0; [by eexists|]. simpl.
  destruct (length (arr b (slot b e))) as [|k] eqn:Hl; [apply lookup_lt_Some in H0; lia|].
  simpl. rewrite H0, Hb. simpl. destruct (IH (call_log h p b) H0) as [b' ->]. by eexists.
Qed.

(** ** Examples *)

Ltac solve_heap_wf := split; [intros []; simpl; lia|intros [] []; simpl; congruence].

Definition demo_payload : Payload := mkPayload "k" None None.

(** [listeners.set = [1, 2]]. *)
Definition demo_bus : HBus := on_heap EvNameSet 2 (on_heap EvNameSet 1 init_heap).

(** Handler 1 removes handler 2, emits [delete] and adds handler 3;
    handler 2 throws. *)
Definition demo_beh (h : Handler) (p : Payload) : list bus_action :=
  match h with
  | 1 => [AOff EvNameSet 2; AEmit EvNameDelete p; AOn EvNameSet 3]
  | 2 => [AThrow (JStr "boom")]
  | _ => []
  end.

(** Handler 1 removes handler 2 and adds handler 3. *)
Definition demo_onoff (h : Handler) (p : Payload) : list bus_action :=
  if h =? 1 then [AOff EvNameSet 2; AOn EvNameSet 3] else [].

(** Handler 1 emits [set] again. *)
Definition demo_self (h : Handler) (p : Payload) : list bus_action :=
  if h =? 1 then [AEmit EvNameSet p] else [].

Lemma emit_refines_snapshot_witness :
  heap_wf demo_bus /\
  map_completion abs_bus (emit_heap demo_beh 2 EvNameSet demo_payload demo_bus) =
  snap_emit demo_beh 2 EvNameSet demo_payload (abs_bus demo_bus).
Proof. split; [solve_heap_wf|apply emit_refines_snapshot; solve_heap_wf]. Defined.

Lemma emit_reentrant_on_off_witness :
  exists b', emit_heap demo_onoff 1 EvNameSet demo_payload demo_bus = Done b' /\
    calls b' = [(1, demo_payload); (2, demo_payload)] /\ listeners_of (abs_ls b') EvNameSet = [1; 3].
Proof.
  destruct (emit_reentrant_on_off demo_onoff EvNameSet demo_payload demo_bus) as (b' & H1 & H2 & H3);
    [solve_heap_wf|intros [|[|h]]; reflexivity|].
  exists b'. split_and!; [done|rewrite H2; vm_compute; reflexivity|rewrite H3; vm_compute; reflexivity].
Defined.

Lemma emit_self_overflows_witness :
  exists b', emit_heap demo_self 1000 EvNameSet demo_payload demo_bus = Threw range_error b'.
Proof. apply (emit_self_overflows demo_self EvNameSet demo_payload demo_bus 1 []); reflexivity. Defined.
