(* ===== verification/Ttl.v ===== *)
(** * The TTL registry of [src/src/ttl.ts]

    [ttl.ts] keeps [ttlStore : Map<string, TTLItem>] and exports
    [setTTL(key, ttl, onExpire)], which starts a [setTimeout] whose
    callback deletes the key's record, calls [onExpire] and emits
    ["expire"] with [{ key, ttl }] on the bus of [events.ts], and
    [clearTTL(key)], which clears the timeout of the key's record and
    deletes the record.

    The state [TtlState] holds the registry, the live timeouts (by
    identity), a counter for fresh identities, [Date.now()], the event bus
    and the calls the callbacks made.  The whole file is a Section over a
    bus [B] satisfying [EventBusLaws] (file [Events.v]): its theorems hold
    for any implementation of the interface, [Events.Listeners] included.
    [ttl_step] is the module under the event loop; [records_live], proved
    by rule induction for every reachable state, says each record has a
    live timeout created for its key. *)

From S2P Require Import Prelude JsValue Types Events.

(** [interface TTLItem { expiresAt: number; timeoutId: NodeJS.Timeout }] *)
Record TTLItem := mkTTLItem { expiresAt : Z; timeoutId : nat }.

(** A live [setTimeout] of [setTTL]: what its callback captured and when
    it is due. *)
Record Timeout := mkTimeout { to_key : string; to_ttl : Z; to_onExpire : nat; to_due : Z }.

(** What a callback of [ttl.ts] does that others observe: it calls
    [onExpire], and [emit] calls the bus's handlers. *)
Inductive ttl_obs := TCallback (cb : nat) | TEmit (h : Handler) (p : Payload).

(** Node's [setTimeout] clamps a delay outside [1 .. 2^31-1] to 1 ms. *)
Definition timeout_delay (ms : Z) : Z :=
  if (1 <=? ms)%Z && (ms <=? 2147483647)%Z then ms else 1%Z.

Section TtlModule.
Context {B : Type} `{EventBusLaws B}.

Record TtlState := mkTtl {
  ttlStore : gmap string TTLItem;
  timeouts : gmap nat Timeout;
  next_id : nat;
  clock : Z;
  bus : B;
  calls : list ttl_obs
}.

(** [setTTL(key, ttl, onExpire)] *)
Definition setTTL (key : string) (ttl : Z) (onExpire : nat) (st : TtlState) : TtlState :=
  let expires := (clock st + ttl)%Z in
  let id := next_id st in
  mkTtl (<[key := mkTTLItem expires id]> (ttlStore st))
        (<[id := mkTimeout key ttl onExpire (clock st + timeout_delay ttl)%Z]> (timeouts st))
        (S id) (clock st) (bus st) (calls st).

(** [clearTTL(key)] *)
Definition clearTTL (key : string) (st : TtlState) : TtlState :=
  match ttlStore st !! key with
  | Some item =>
      mkTtl (delete key (ttlStore st)) (delete (timeoutId item) (timeouts st))
            (next_id st) (clock st) (bus st) (calls st)
  | None => st
  end.

(** The callback of timeout [id], once due: [ttlStore.delete(key);
    onExpire(); emit("expire", { key, ttl })]. *)
Definition fire_timeout (id : nat) (st : TtlState) : option TtlState :=
  match timeouts st !! id with
  | Some t =>
      if (to_due t <=? clock st)%Z then
        let p := mkPayload (to_key t) None (Some (to_ttl t)) in
        Some (mkTtl (delete (to_key t) (ttlStore st)) (delete id (timeouts st))
                    (next_id st) (clock st) (bus st)
                    (calls st ++ TCallback (to_onExpire t)
                       :: map (fun c => TEmit (fst c) (snd c)) (bus_emit EvNameExpire p (bus st))))
      else None
  | None => None
  end.

Definition advance_ttl (d : Z) (st : TtlState) : TtlState :=
  mkTtl (ttlStore st) (timeouts st) (next_id st) (clock st + d) (bus st) (calls st).

(** Identities in use are below the counter. *)
Definition ttl_wf (st : TtlState) : Prop :=
  map_below (timeouts st) (next_id st) /\
  forall k item, ttlStore st !! k = Some item -> timeoutId item < next_id st.

(** Other code registers or removes a handler on the bus. *)
Definition upd_bus (f : B -> B) (st : TtlState) : TtlState :=
  mkTtl (ttlStore st) (timeouts st) (next_id st) (clock st) (f (bus st)) (calls st).

(** The module under the event loop: calls of [setTTL] and [clearTTL],
    registrations on the bus, a due timeout firing, time passing. *)
Inductive ttl_step : TtlState -> TtlState -> Prop :=
| TStepSet key ttl cb st : ttl_step st (setTTL key ttl cb st)
| TStepClear key st : ttl_step st (clearTTL key st)
| TStepOn e h st : ttl_step st (upd_bus (bus_on e h) st)
| TStepOff e h st : ttl_step st (upd_bus (bus_off e h) st)
| TStepFire id st st' : fire_timeout id st = Some st' -> ttl_step st st'
| TStepTick d st : (0 <= d)%Z -> ttl_step st (advance_ttl d st).

Definition ttl_reachable (st : TtlState) : Prop :=
  exists t0 b0, rtc ttl_step (mkTtl ∅ ∅ 0 t0 b0 []) st.

(** Every record of [ttlStore] has a live timeout, created for its key. *)
Definition records_live (st : TtlState) : Prop :=
  forall k item, ttlStore st !! k = Some item ->
    exists t, timeouts st !! timeoutId item = Some t /\ to_key t = k.

End TtlModule.

Arguments TtlState B : clear implicits.

Section TtlTheorems.
Context {B : Type} `{EventBusLaws B}.
Implicit Types (st : TtlState B).

(** C23. [clearTTL] cancels what [setTTL] started: [setTTL(key, ttl, cb)]
    followed by [clearTTL(key)] leaves no record for [key], no live
    timeout that [setTTL] created, and no callback called. *)
Theorem clearTTL_cancels key ttl cb st :
  ttl_wf st ->
  let st' := clearTTL key (setTTL key ttl cb st) in
  ttlStore st' = delete key (ttlStore st) /\ timeouts st' = timeouts st /\ calls st' = calls st.
Proof.
  intros [Hb _] st'. subst st'. unfold clearTTL, setTTL; simpl. rewrite lookup_insert_eq; simpl.
  split_and!; [by rewrite delete_insert_eq| |done].
  rewrite delete_insert_eq. apply delete_id. by apply map_below_fresh.
Qed.

(** C24. [setTTL] on a key that already has a TTL does not clear the
    previous timeout.  When that stale timeout fires it deletes the key's
    record -- the one the second [setTTL] wrote -- and calls the first
    [onExpire]; afterwards [clearTTL(key)] finds no record and does
    nothing, so the second timeout can no longer be cancelled and stays
    live. *)
Theorem setTTL_twice_stale_timeout key t1 t2 cb1 cb2 d st :
  (timeout_delay t1 <= d)%Z ->
  let st2 := advance_ttl d (setTTL key t2 cb2 (setTTL key t1 cb1 st)) in
  exists st3 emits, fire_timeout (next_id st) st2 = Some st3 /\
    calls st3 = calls st ++ TCallback cb1 :: emits /\
    ttlStore st3 !! key = None /\ clearTTL key st3 = st3 /\
    timeouts st3 !! S (next_id st) = Some (mkTimeout key t2 cb2 (clock st + timeout_delay t2)).
Proof.
  intros Hd st2. subst st2. unfold fire_timeout; simpl.
  rewrite lookup_insert_ne by lia. rewrite lookup_insert_eq; simpl.
  replace (clock st + timeout_delay t1 <=? clock st + d)%Z with true
    by (symmetry; apply Z.leb_le; lia).
  do 2 eexists. split_and!; [reflexivity|reflexivity|simpl; by rewrite lookup_delete_eq| |].
  - unfold clearTTL. simpl. by rewrite lookup_delete_eq.
  - simpl. rewrite lookup_delete_ne by lia. by rewrite lookup_insert_eq.
Qed.

(** C25. Expiry notification through the bus interface: a due timeout's
    callback removes the key's record and the timeout, calls [onExpire],
    then every ["expire"] handler of the bus in registration order -- the
    handler registered last, last -- each with the payload [{ key, ttl }]. *)
Theorem fire_notifies_expire_handlers id t h b st :
  timeouts st !! id = Some t -> (to_due t <= clock st)%Z -> bus st = bus_on EvNameExpire h b ->
  let p := mkPayload (to_key t) None (Some (to_ttl t)) in
  exists st', fire_timeout id st = Some st' /\
    calls st' = calls st ++ TCallback (to_onExpire t)
                  :: map (fun c => TEmit (fst c) (snd c)) (bus_emit EvNameExpire p b) ++ [TEmit h p] /\
    ttlStore st' !! to_key t = None /\ timeouts st' !! id = None.
Proof.
  intros Ht Hdue Hbus p. unfold fire_timeout. rewrite Ht.
  replace (to_due t <=? clock st)%Z with true by (symmetry; by apply Z.leb_le).
  eexists. split; [reflexivity|]. simpl. rewrite Hbus, bus_emit_on, map_app.
  split_and!; [done|by rewrite lookup_delete_eq|by rewrite lookup_delete_eq].
Qed.

(** C34. A TTL longer than [2^31-1] ms (about 24.8 days) expires after
    1 ms: [setTTL] passes [ttl] to [setTimeout] unchecked, Node clamps the
    out-of-range delay to 1 ms, so 1 ms later the timeout deletes the
    record -- which says the key expires at [now + ttl] -- and calls
    [onExpire]. *)
Theorem setTTL_long_ttl_fires_early key ttl cb st :
  (2147483647 < ttl)%Z ->
  let st1 := setTTL key ttl cb st in
  ttlStore st1 !! key = Some (mkTTLItem (clock st + ttl) (next_id st)) /\
  exists st2 emits, fire_timeout (next_id st) (advance_ttl 1 st1) = Some st2 /\
    ttlStore st2 !! key = None /\ calls st2 = calls st ++ TCallback cb :: emits /\
    (clock st2 < clock st + ttl)%Z.
Proof.
  intros Httl st1. subst st1. unfold setTTL. simpl. rewrite lookup_insert_eq.
  split; [done|]. unfold fire_timeout. simpl. rewrite lookup_insert_eq. simpl.
  assert (Hd : timeout_delay ttl = 1%Z).
  { unfold timeout_delay. replace (ttl <=? 2147483647)%Z with false by (symmetry; apply Z.leb_gt; lia).
    by rewrite andb_false_r. }
  rewrite Hd. replace (clock st + 1 <=? clock st + 1)%Z with true by (symmetry; apply Z.leb_le; lia).
  do 2 eexists. split_and!; [reflexivity|simpl; by rewrite lookup_delete_eq|reflexivity|simpl; lia].
Qed.

(** ** The invariant of the registry *)

Definition ttl_inv st : Prop := ttl_wf st /\ records_live st.

Lemma ttl_inv_setTTL key ttl cb st : ttl_inv st -> ttl_inv (setTTL key ttl cb st).
Proof.
  intros [[Hb Hr] Hl]. split; [split|]; unfold records_live in *; simpl.
  - by apply map_below_insert_fresh.
  - intros k item. rewrite lookup_insert. case_decide; [intros; simplify_eq; simpl; lia|].
    intros Hk. specialize (Hr k item Hk). lia.
  - intros k item. rewrite lookup_insert. case_decide as Hk.
    + intros; simplify_eq; simpl. rewrite lookup_insert_eq. by eexists.
    + intros Hi. destruct (Hl k item Hi) as (t & Ht & Htk). specialize (Hr k item Hi).
      exists t. by rewrite lookup_insert_ne by lia.
Qed.

Lemma ttl_inv_clearTTL key st : ttl_inv st -> ttl_inv (clearTTL key st).
Proof.
  intros [[Hb Hr] Hl]. unfold clearTTL. destruct (ttlStore st !! key) as [item|] eqn:Hkey;
    [|by split; [split|]].
  destruct (Hl key item Hkey) as (t0 & Ht0 & Hk0).
  split; [split|]; unfold records_live in *; simpl.
  - by apply map_below_delete.
  - intros k it. rewrite lookup_delete. case_decide; [done|]. apply Hr.
  - intros k it. rewrite lookup_delete. case_decide as Hne; [done|]. intros Hi.
    destruct (Hl k it Hi) as (t & Ht & Htk). exists t. split; [|done].
    rewrite lookup_delete_ne; [done|]. intros Heq. rewrite <-Heq, Ht0 in Ht. congruence.
Qed.

Lemma ttl_inv_fire id st st' : ttl_inv st -> fire_timeout id st = Some st' -> ttl_inv st'.
Proof.
  intros [[Hb Hr] Hl]. unfold fire_timeout. destruct (timeouts st !! id) as [t0|] eqn:Ht0; [|done].
  case_match; [|done]. intros [= <-]. split; [split|]; unfold records_live in *; simpl.
  - by apply map_below_delete.
  - intros k it. rewrite lookup_delete. case_decide; [done|]. apply Hr.
  - intros k it. rewrite lookup_delete. case_decide as Hne; [done|]. intros Hi.
    destruct (Hl k it Hi) as (t & Ht & Htk). exists t. split; [|done].
    rewrite lookup_delete_ne; [done|]. intros ->. congruence.
Qed.

Lemma ttl_inv_step st st' : ttl_inv st -> ttl_step st st' -> ttl_inv st'.
Proof.
  intros Hi Hs. destruct Hs.
  - by apply ttl_inv_setTTL.
  - by apply ttl_inv_clearTTL.
  - done.
  - done.
  - by eapply ttl_inv_fire.
  - done.
Qed.

Lemma ttl_reachable_inv st : ttl_reachable st -> ttl_inv st.
Proof.
  intros (t0 & b0 & Hr).
  assert (Hi : ttl_inv (mkTtl ∅ ∅ 0 t0 b0 [])).
  { split; [split|]; [apply map_below_empty|intros k it; simpl; by rewrite lookup_empty|intros k it; simpl; by rewrite lookup_empty]. }
  revert Hi. induction Hr as [|x y z Hxy _ IH]; [done|]. eauto using ttl_inv_step.
Qed.

(** C32. Every recorded TTL is enforced: in every state the module reaches
    -- whatever interleaving of [setTTL], [clearTTL], bus registrations,
    timeouts and time -- a key that has a record has a live timeout
    created for that key, and once it is due, it fires: the key's record
    is removed and [onExpire] is the first callback it makes. *)
Theorem ttl_record_expires st k item :
  ttl_reachable st -> ttlStore st !! k = Some item ->
  exists t, timeouts st !! timeoutId item = Some t /\ to_key t = k /\
    forall d, (to_due t <= clock st + d)%Z ->
    exists st' emits, fire_timeout (timeoutId item) (advance_ttl d st) = Some st' /\
      ttlStore st' !! k = None /\ calls st' = calls st ++ TCallback (to_onExpire t) :: emits.
Proof.
  intros Hr Hk. destruct (ttl_reachable_inv st Hr) as [_ Hl].
  destruct (Hl k item Hk) as (t & Ht & <-). exists t. split_and!; [done|done|].
  intros d Hd. unfold fire_timeout. simpl. rewrite Ht.
  replace (to_due t <=? clock st + d)%Z with true by (symmetry; by apply Z.leb_le).
  do 2 eexists. split_and!; [reflexivity|simpl; by rewrite lookup_delete_eq|reflexivity].
Qed.

End TtlTheorems.

(** ** Witnesses on the bus of [events.ts] *)

Definition ttl_init : TtlState Listeners := mkTtl ∅ ∅ 0 0 no_listeners [].

Lemma ttl_init_wf : ttl_wf ttl_init.
Proof. split; [apply map_below_empty|]. intros k item Hk. done. Qed.

Lemma clearTTL_cancels_witness :
  timeouts (clearTTL "k" (setTTL "k" 50 7 ttl_init)) = timeouts ttl_init.
Proof. apply (clearTTL_cancels "k" 50 7 ttl_init ttl_init_wf). Defined.

Lemma setTTL_twice_stale_timeout_witness :
  exists st3 emits,
    fire_timeout 0 (advance_ttl 60 (setTTL "k" 100 8 (setTTL "k" 50 7 ttl_init))) = Some st3 /\
    calls st3 = calls ttl_init ++ TCallback 7 :: emits /\
    ttlStore st3 !! "k" = None /\ clearTTL "k" st3 = st3 /\
    timeouts st3 !! 1 = Some (mkTimeout "k" 100 8 (0 + timeout_delay 100)).
Proof.
  apply (setTTL_twice_stale_timeout "k" 50 100 7 8 60 ttl_init).
  vm_compute; discriminate.
Defined.

Definition ttl_due : TtlState Listeners :=
  mkTtl {[ "k" := mkTTLItem 50 0 ]} {[ 0 := mkTimeout "k" 50 7 50 ]} 1 60
        (on EvNameExpire 3 no_listeners) [].

Lemma fire_notifies_expire_handlers_witness :
  exists st', fire_timeout 0 ttl_due = Some st' /\
    calls st' = calls ttl_due ++ TCallback 7
                  :: map (fun c => TEmit (fst c) (snd c))
                       (bus_emit EvNameExpire (mkPayload "k" None (Some 50%Z)) no_listeners)
                  ++ [TEmit 3 (mkPayload "k" None (Some 50%Z))] /\
    ttlStore st' !! "k" = None /\ timeouts st' !! 0 = None.
Proof.
  apply (fire_notifies_expire_handlers 0 (mkTimeout "k" 50 7 50) 3 no_listeners ttl_due);
    [reflexivity|vm_compute; discriminate|reflexivity].
Defined.

Lemma ttl_set_reachable : ttl_reachable (setTTL "k" 50 7 ttl_init).
Proof. exists 0%Z, no_listeners. apply rtc_once. apply TStepSet. Qed.

Lemma ttl_record_expires_witness :
  exists t, timeouts (setTTL "k" 50 7 ttl_init) !! 0 = Some t /\ to_key t = "k" /\
    forall d, (to_due t <= clock (setTTL "k" 50 7 ttl_init) + d)%Z ->
    exists st' emits, fire_timeout 0 (advance_ttl d (setTTL "k" 50 7 ttl_init)) = Some st' /\
      ttlStore st' !! "k" = None /\ calls st' = calls (setTTL "k" 50 7 ttl_init) ++ TCallback (to_onExpire t) :: emits.
Proof.
  apply (ttl_record_expires (setTTL "k" 50 7 ttl_init) "k" (mkTTLItem 50 0));
    [apply ttl_set_reachable|reflexivity].
Defined.

Lemma setTTL_long_ttl_fires_early_witness :
  exists st2 emits, fire_timeout 0 (advance_ttl 1 (setTTL "k" 2592000000 7 ttl_init)) = Some st2 /\
    ttlStore st2 !! "k" = None /\ calls st2 = calls ttl_init ++ TCallback 7 :: emits /\
    (clock st2 < clock ttl_init + 2592000000)%Z.
Proof.
  apply (setTTL_long_ttl_fires_early "k" 2592000000 7 ttl_init);
    vm_compute; reflexivity.
Defined.
