(* ===== verification/Derived.v ===== *)
(** * Derived values of [src/src/derived.ts]

    [setDerived(key, deps, compute)] builds a closure [recompute] that
    awaits [Promise.all(deps.map(d => store.get(d)))] and then calls
    [store.set(key, compute(...values))]; it then runs
    [deps.forEach(dep => { return () => store.off(`update:${dep}`,
    recompute); })], which only builds unsubscribe closures and discards
    them, and calls [recompute()] once.

    [World] pairs the store of [Store.v] with the listeners registered on
    the store's [EventEmitter] (event name and the derivation the listener
    recomputes) and the recomputations waiting for their [Promise.all].
    [set_notify] is a caller's [store.set] followed by the dispatch of
    ["update:<key>"] to the listeners of that name.  [store] is the
    default export of the module [./index], which is not among the
    sources: the model passes the store explicitly.  The wait of
    [Promise.all] ends either with every dependency fulfilled
    ([finish_recompute]: [store.set]) or with one rejected
    ([fail_recompute]: the promise of [recompute], which no caller
    handles, rejects unhandled). *)

From S2P Require Import Prelude JsValue Store StoreWf Runtime StoreProps.

(** The closure [recompute] of one [setDerived] call, by what it captured. *)
Record Derivation := mkDerivation {
  dv_key : string;
  dv_deps : list string;
  dv_compute : list jsval -> jsval
}.

Record World := mkWorld {
  w_store : Store;
  w_listeners : list (string * Derivation);
  w_pending : list (Derivation * list reply)
}.

(** [deps.map(d => store.get(d))]: one [get] per dependency, in order;
    [invs d] says what the registered loader of [d] does if it runs. *)
Fixpoint get_each (deps : list string) (invs : string -> invocation) (s : Store)
    : list reply * Store :=
  match deps with
  | [] => ([], s)
  | d :: ds =>
      let '(r, s1) := get d None (invs d) s in
      let '(rs, s2) := get_each ds invs s1 in
      (r :: rs, s2)
  end.

(** [recompute()] up to its [await]. *)
Definition recompute (dv : Derivation) (invs : string -> invocation) (w : World) : World :=
  let '(rs, s') := get_each (dv_deps dv) invs (w_store w) in
  mkWorld s' (w_listeners w) (w_pending w ++ [(dv, rs)]).

(** [setDerived(key, deps, compute)]: the [forEach] registers nothing;
    [recompute()] runs once. *)
Definition setDerived (key : string) (deps : list string) (compute : list jsval -> jsval)
    (invs : string -> invocation) (w : World) : World :=
  recompute (mkDerivation key deps compute) invs w.

(** The values of [Promise.all] over the replies, once all are fulfilled. *)
Fixpoint all_fulfilled (rs : list reply) (s : Store) : option (list jsval) :=
  match rs with
  | [] => Some []
  | r :: rs' =>
      match reply_outcome r s with
      | Some (Fulfilled v) => (fun vs => v :: vs) <$> all_fulfilled rs' s
      | _ => None
      end
  end.

(** The [i]-th waiting recomputation resumes: [store.set(key,
    compute(...values))]. *)
Definition finish_recompute (i : nat) (w : World) : option World :=
  match w_pending w !! i with
  | Some (dv, rs) =>
      match all_fulfilled rs (w_store w) with
      | Some vs =>
          Some (mkWorld (set (dv_key dv) (dv_compute dv vs) None (w_store w)) (w_listeners w)
                  (take i (w_pending w) ++ drop (S i) (w_pending w)))
      | None => None
      end
  | None => None
  end.

(** A [get] that threw: [async get] turns the throw into a promise
    rejected at the call. *)
Definition is_throw (r : reply) : bool := match r with RThrow _ => true | _ => false end.

(** The reason [Promise.all] may reject with, through the [j]-th reply.
    It rejects with the first of its inputs to reject in time.  A [get]
    that threw rejected at the call, before any promise of a load can
    settle, so when some reply is such a throw the reason is the first of
    them in the order of [deps]; otherwise it is any rejected reply -- the
    model does not order the settlements of loads in time, and the step
    that resumes the wait chooses. *)
Definition all_reason (rs : list reply) (j : nat) (s : Store) : option jsval :=
  match rs !! j with
  | Some r =>
      match reply_outcome r s with
      | Some (Rejected err) =>
          match list_find (fun r' => is_throw r' = true) rs with
          | Some (j', _) => if decide (j = j') then Some err else None
          | None => Some err
          end
      | _ => None
      end
  | None => None
  end.

(** The [Promise.all] of the [i]-th waiting recomputation rejects through
    its [j]-th input: the promise of [recompute] rejects, and since both
    [setDerived] and the listeners call [recompute()] without handling its
    promise, the rejection is unhandled; [store.set] is not reached. *)
Definition fail_recompute (i j : nat) (w : World) : option World :=
  match w_pending w !! i with
  | Some (dv, rs) =>
      match all_reason rs j (w_store w) with
      | Some err =>
          Some (mkWorld (log (ObsUnhandled err) (w_store w)) (w_listeners w)
                  (take i (w_pending w) ++ drop (S i) (w_pending w)))
      | None => None
      end
  | None => None
  end.

(** A caller's [store.set(key, v, ttl)]: the store emits
    ["update:" ++ key], and every listener registered under that name runs
    its [recompute]. *)
Definition set_notify (key : string) (v : jsval) (ttl : option Z)
    (invs : string -> invocation) (w : World) : World :=
  let w1 := mkWorld (set key v ttl (w_store w)) (w_listeners w) (w_pending w) in
  fold_left (fun acc dv => recompute dv invs acc)
    (map snd (filter (fun l => fst l = String.append "update:" key) (w_listeners w))) w1.

(** ** Theorems *)

Lemma wf_get_each deps invs s : wf s -> wf (snd (get_each deps invs s)).
Proof.
  revert s. induction deps as [|d ds IH]; intros s Hwf; simpl; [done|].
  pose proof (wf_get d None (invs d) s Hwf) as H1.
  destruct (get d None (invs d) s) as [r s1]. simpl in H1.
  specialize (IH s1 H1). destruct (get_each ds invs s1). done.
Qed.

Lemma recompute_listeners dv invs w : w_listeners (recompute dv invs w) = w_listeners w.
Proof. unfold recompute. by destruct (get_each _ _ _). Qed.

(** C26. [setDerived] never subscribes: it registers no listener on the
    store, so a later [store.set] of a dependency schedules no
    recomputation and the derived key keeps its old value -- derived
    values go stale after the first computation, contrary to the contract
    that the helper recomputes whenever a dependency changes. *)
Theorem setDerived_never_subscribes key deps compute invs w dep v ttl :
  w_listeners w = [] -> wf (w_store w) -> dep <> key ->
  let w1 := setDerived key deps compute invs w in
  w_listeners w1 = [] /\
  w_pending (set_notify dep v ttl invs w1) = w_pending w1 /\
  data_get key (w_store (set_notify dep v ttl invs w1)) = data_get key (w_store w1).
Proof.
  intros Hl Hwf Hne w1.
  assert (Hl1 : w_listeners w1 = []) by (subst w1; unfold setDerived; by rewrite recompute_listeners).
  assert (Hwf1 : wf (w_store w1)).
  { subst w1. unfold setDerived, recompute.
    pose proof (wf_get_each deps invs (w_store w) Hwf). by destruct (get_each _ _ _). }
  unfold set_notify. rewrite Hl1. simpl. split_and!; [done|done|].
  rewrite data_get_set by done. by rewrite decide_False.
Qed.

(** The dependency [d] holds the valid value [v]. *)
Definition cached (d : string) (v : jsval) (s : Store) : Prop :=
  exists l e, fetch d s = Some (l, e) /\ isExpired e s = false /\ value e = v /\ v <> JUndefined.

Lemma get_each_cached deps vs invs s :
  Forall2 (fun d v => cached d v s) deps vs -> get_each deps invs s = (map RValue vs, s).
Proof.
  induction 1 as [|d v ds vs' (l & e & Hf & Hx & Hv & Hu) _ IH]; [done|]. simpl.
  rewrite (get_cached d None (invs d) s l e v Hf Hx Hv Hu), IH. done.
Qed.

(** Removing the recomputation just queued, as [finish_recompute] and
    [fail_recompute] do. *)
Lemma take_drop_last {A} (l : list A) x : take (length l) (l ++ [x]) ++ drop (S (length l)) (l ++ [x]) = l.
Proof. rewrite take_app_length, drop_app_ge by lia. rewrite Nat.sub_succ_l, Nat.sub_diag by lia. apply app_nil_r. Qed.

Lemma all_fulfilled_values vs s : all_fulfilled (map RValue vs) s = Some vs.
Proof. induction vs as [|v vs IH]; [done|]. simpl. by rewrite IH. Qed.

(** C27. [setDerived] computes once: when every dependency holds a valid
    value, [recompute] reads them with [get] (which changes nothing), and
    when its [Promise.all] resumes the derived key holds
    [compute(...values)], with the values in the order of [deps]. *)
Theorem setDerived_computes_once key deps compute invs w vs :
  wf (w_store w) -> Forall2 (fun d v => cached d v (w_store w)) deps vs ->
  let w1 := setDerived key deps compute invs w in
  w_store w1 = w_store w /\
  exists w2, finish_recompute (length (w_pending w)) w1 = Some w2 /\
    value <$> data_get key (w_store w2) = Some (compute vs) /\ w_pending w2 = w_pending w.
Proof.
  intros Hwf Hc w1. subst w1. unfold setDerived, recompute. cbn [dv_deps].
  rewrite (get_each_cached deps vs invs _ Hc). simpl. split; [done|].
  unfold finish_recompute. simpl. rewrite lookup_app_r, Nat.sub_diag by lia. simpl.
  rewrite all_fulfilled_values. eexists. split; [reflexivity|]. simpl.
  rewrite data_get_set by done. rewrite decide_True by done. split; [done|].
  apply take_drop_last.
Qed.

(** The dependencies' [get]s leave the entries of the other keys. *)
Lemma get_each_other key deps invs s :
  wf s -> key ∉ deps -> data_get key (snd (get_each deps invs s)) = data_get key s.
Proof.
  revert s. induction deps as [|d ds IH]; intros s Hwf Hk; [done|]. simpl.
  apply not_elem_of_cons in Hk as [Hne Hk].
  pose proof (wf_get d None (invs d) s Hwf) as Hw.
  pose proof (fetch_get_other key d None (invs d) s Hwf Hne) as Hf.
  destruct (get d None (invs d) s) as [r s1]. simpl in Hw, Hf.
  specialize (IH s1 Hw Hk). destruct (get_each ds invs s1) as [rs s2]. simpl in *.
  rewrite IH. unfold data_get. by rewrite Hf.
Qed.

(** C31. A dependency that cannot be loaded breaks the derived key for
    good: when the first dependency has no entry (hence no loader), its
    [get] rejects at once with [NoLoaderAvailable], so the [Promise.all] of
    [recompute] rejects with that error, whatever the other dependencies
    do: the recomputation never completes, the rejection is unhandled
    (fatal under Node's default policy), and the derived key is left as it
    was. *)
Theorem setDerived_missing_dep_unhandled key d ds compute invs w :
  wf (w_store w) -> fetch d (w_store w) = None -> key ∉ d :: ds ->
  let w1 := setDerived key (d :: ds) compute invs w in
  finish_recompute (length (w_pending w)) w1 = None /\
  exists w2, fail_recompute (length (w_pending w)) 0 w1 = Some w2 /\
    (forall j w3, fail_recompute (length (w_pending w)) j w1 = Some w3 -> w3 = w2) /\
    trace (w_store w2) = trace (w_store w1) ++ [ObsUnhandled (no_loader_error d)] /\
    data_get key (w_store w2) = data_get key (w_store w) /\ w_pending w2 = w_pending w.
Proof.
  intros Hwf Hd Hk w1.
  pose proof (get_each_other key (d :: ds) invs (w_store w) Hwf Hk) as Hother.
  subst w1. unfold setDerived, recompute. cbn [dv_deps get_each] in *.
  assert (Hg : fst (get d None (invs d) (w_store w)) = RThrow (no_loader_error d))
    by (unfold get; by rewrite Hd).
  destruct (get d None (invs d) (w_store w)) as [r s1]. simpl in Hg. subst r.
  destruct (get_each ds invs s1) as [rs s2]. simpl in *.
  unfold finish_recompute, fail_recompute. simpl. rewrite lookup_app_r, Nat.sub_diag by lia. simpl.
  split; [done|]. eexists. split; [reflexivity|]. simpl. split_and!.
  - intros j w3. unfold all_reason. destruct j as [|j]; [by intros [= <-]|]. simpl.
    destruct (rs !! j) as [r|]; [|done]. repeat case_match; done.
  - done.
  - by rewrite data_get_log.
  - apply take_drop_last.
Qed.

(** ** Witnesses: [total] derived from [a] and [b] *)

Definition sum_nums (vs : list jsval) : jsval :=
  JNum (fold_right (fun v acc => match v with JNum n => (n + acc)%Z | _ => acc end) 0%Z vs).

Definition ab_store : Store := set "b" (JNum 2) None (set "a" (JNum 1) None (init 0)).

Lemma setDerived_never_subscribes_witness :
  w_pending (set_notify "a" (JNum 5) None (fun _ => Returns)
               (setDerived "total" ["a"; "b"] sum_nums (fun _ => Returns) (mkWorld ab_store [] [])))
  = w_pending (setDerived "total" ["a"; "b"] sum_nums (fun _ => Returns) (mkWorld ab_store [] [])).
Proof.
  apply (setDerived_never_subscribes "total" ["a"; "b"] sum_nums (fun _ => Returns)
           (mkWorld ab_store [] []) "a" (JNum 5) None);
    [reflexivity|apply wf_set, wf_set, wf_init|discriminate].
Defined.

Lemma setDerived_computes_once_witness :
  exists w2, finish_recompute 0 (setDerived "total" ["a"; "b"] sum_nums (fun _ => Returns)
                                   (mkWorld ab_store [] [])) = Some w2 /\
    value <$> data_get "total" (w_store w2) = Some (JNum 3) /\ w_pending w2 = [].
Proof.
  apply (setDerived_computes_once "total" ["a"; "b"] sum_nums (fun _ => Returns)
           (mkWorld ab_store [] []) [JNum 1; JNum 2]).
  - apply wf_set, wf_set, wf_init.
  - constructor; [|constructor; [|constructor]];
      do 2 eexists; split_and!; try reflexivity; discriminate.
Defined.

Definition total_world : World :=
  setDerived "total" ["c"; "a"] sum_nums (fun _ => Returns) (mkWorld ab_store [] []).

Lemma setDerived_missing_dep_unhandled_witness :
  exists w2, fail_recompute 0 0 total_world = Some w2 /\
    (forall j w3, fail_recompute 0 j total_world = Some w3 -> w3 = w2) /\
    trace (w_store w2) = trace (w_store total_world) ++ [ObsUnhandled (no_loader_error "c")] /\
    data_get "total" (w_store w2) = data_get "total" ab_store /\ w_pending w2 = [].
Proof.
  destruct (setDerived_missing_dep_unhandled "total" "c" ["a"] sum_nums (fun _ => Returns)
              (mkWorld ab_store [] [])) as [_ H].
  - apply wf_set, wf_set, wf_init.
  - reflexivity.
  - apply (bool_decide_unpack _). vm_compute. exact I.
  - exact H.
Defined.
